(** * The hardware-characteristics codec of package [instance]

    A shallow embedding of [instance/instance.go]: the record
    [HardwareCharacteristics], its renderer [String], the parser
    [ParseHardware] with its setters, and the two number parsers
    [parseUint64] and [parseSize].

    Go strings are byte sequences and are modelled by [string]; a pointer
    field ([*string], [*uint64], [*[]string]) is an [option]; a [uint64]
    is a [Z] in the range [0 .. 2^64-1]; a [float64] is a value of
    [Float64.t].  The Go library functions the package calls are modelled
    in the modules [GoStrings], [Float64] and [GoStrconv]; what lives
    outside the repository and the Go library, or depends on the platform,
    is a field of the class [Imports]. *)

From Stdlib Require Import ZArith Lia Bool Ascii.
From Stdlib Require Floats.SpecFloat.
From stdpp Require Import base tactics option list strings gmap.

Local Open Scope Z_scope.

(** ** Package [strings] *)

Module GoStrings.

(** [len(s)] *)
Definition len (s : string) : Z := Z.of_nat (String.length s).

(** [s[:n]] and [s[n:]] for [0 <= n <= len(s)] (Go panics outside that
    range; the codec never slices outside it). *)
Fixpoint take (n : nat) (s : string) : string :=
  match n, s with
  | S n', String c s' => String c (take n' s')
  | _, _ => EmptyString
  end.

Fixpoint drop (n : nat) (s : string) : string :=
  match n, s with
  | S n', String _ s' => drop n' s'
  | _, _ => s
  end.

Definition slice_to (s : string) (hi : Z) : string := take (Z.to_nat hi) s.
Definition slice_from (s : string) (lo : Z) : string := drop (Z.to_nat lo) s.

(** [strings.Index(s, substr)]: the byte offset of the first occurrence
    of [substr] in [s], or [-1]. *)
Fixpoint index_from (i : Z) (s substr : string) : Z :=
  if String.prefix substr s then i
  else match s with
       | EmptyString => -1
       | String _ s' => index_from (i + 1) s' substr
       end.

Definition Index (s substr : string) : Z := index_from 0 s substr.

(** [strings.Split(s, sep)] for a separator of one byte, which is what
    both call sites pass ([" "] and [","]): the pieces between the
    occurrences of [sep]; one piece more than there are separators, so
    the empty string splits into one empty piece. *)
Fixpoint Split (s : string) (sep : ascii) : list string :=
  match s with
  | EmptyString => [EmptyString]
  | String c s' =>
      if Ascii.eqb c sep then EmptyString :: Split s' sep
      else match Split s' sep with
           | piece :: pieces => String c piece :: pieces
           | [] => [String c EmptyString]
           end
  end.

(** [strings.Join(elems, sep)] *)
Fixpoint Join (elems : list string) (sep : string) : string :=
  match elems with
  | [] => EmptyString
  | [e] => e
  | e :: rest => e +:+ sep +:+ Join rest sep
  end.

(** White space as [unicode.IsSpace] has it, on the UTF-8 encoding.  The
    one-byte runes are tab, line feed, vertical tab, form feed, carriage
    return and space. *)
Definition isSpace1 (c : ascii) : bool :=
  match N_of_ascii c with
  | 9 | 10 | 11 | 12 | 13 | 32 => true
  | _ => false
  end%N.

(** U+0085 and U+00A0, encoded as C2 85 and C2 A0. *)
Definition isSpace2 (c1 c2 : ascii) : bool :=
  let b1 := N_of_ascii c1 in
  let b2 := N_of_ascii c2 in
  ((b1 =? 0xC2) && ((b2 =? 0x85) || (b2 =? 0xA0)))%N.

(** U+1680 (E1 9A 80), U+2000..U+200A, U+2028, U+2029, U+202F
    (E2 80 80..8A, A8, A9, AF), U+205F (E2 81 9F), U+3000 (E3 80 80). *)
Definition isSpace3 (c1 c2 c3 : ascii) : bool :=
  let b1 := N_of_ascii c1 in
  let b2 := N_of_ascii c2 in
  let b3 := N_of_ascii c3 in
  ((b1 =? 0xE1) && (b2 =? 0x9A) && (b3 =? 0x80)
   || (b1 =? 0xE2) && (b2 =? 0x80)
      && ((0x80 <=? b3) && (b3 <=? 0x8A) || (b3 =? 0xA8) || (b3 =? 0xA9) || (b3 =? 0xAF))
   || (b1 =? 0xE2) && (b2 =? 0x81) && (b3 =? 0x9F)
   || (b1 =? 0xE3) && (b2 =? 0x80) && (b3 =? 0x80))%N.

(** The scan that drops white-space runes from the front of a byte
    sequence: one byte of [isSpace1], or two bytes of [sp2], or three
    bytes of [sp3]; a byte sequence that does not decode to a
    white-space rune stops the scan. *)
Fixpoint trimFront (sp2 : ascii -> ascii -> bool) (sp3 : ascii -> ascii -> ascii -> bool)
    (s : string) : string :=
  match s with
  | String c1 s1 =>
      if isSpace1 c1 then trimFront sp2 sp3 s1
      else match s1 with
           | String c2 s2 =>
               if sp2 c1 c2 then trimFront sp2 sp3 s2
               else match s2 with
                    | String c3 s3 => if sp3 c1 c2 c3 then trimFront sp2 sp3 s3 else s
                    | EmptyString => s
                    end
           | EmptyString => s
           end
  | EmptyString => s
  end.

(** [strings.TrimLeftFunc(s, unicode.IsSpace)] *)
Definition trimLeft (s : string) : string := trimFront isSpace2 isSpace3 s.

(** [strings.TrimRightFunc(s, unicode.IsSpace)]: the runes are decoded
    from the back ([utf8.DecodeLastRuneInString]); this is the scan
    above on the reversed byte sequence, the bytes of an encoding read
    last to first. *)
Definition trimRight (s : string) : string :=
  String.rev (trimFront (fun c1 c2 => isSpace2 c2 c1) (fun c1 c2 c3 => isSpace3 c3 c2 c1)
                (String.rev s)).

(** [strings.TrimSpace(s)] *)
Definition TrimSpace (s : string) : string := trimRight (trimLeft s).

End GoStrings.

(** ** The type [float64]

    Every finite IEEE 754 binary64 value is an integer multiple of the
    least positive subnormal [2^-1074].  [Fin neg k] stands for
    [(-1)^neg * k * 2^-1074]; it is a binary64 value when [k] is below
    [2^2098] (the value is below [2^1024]) and has at most 53 significant
    bits.  Each value has one representation, both zeros included. *)

Module Float64.

Inductive t : Type :=
| NaN
| Inf (neg : bool)
| Fin (neg : bool) (k : Z).

(** [1.0] and [2^1024] in units of [2^-1074]. *)
Definition unit : Z := 2 ^ 1074.
Definition top : Z := 2 ^ 2098.

(** The spacing of binary64 values around [k], in units of [2^-1074]. *)
Definition grid (k : Z) : Z := 2 ^ Z.max 0 (Z.log2 k - 52).

Definition on_grid (k : Z) : bool := (0 <=? k) && (k mod grid k =? 0).
Definition representable (k : Z) : bool := on_grid k && (k <? top).

Definition valid (f : t) : bool :=
  match f with
  | Fin _ k => representable k
  | _ => true
  end.

(** The binary64 value nearest to [(-1)^neg * n / d], ties to even, for
    [0 <= n] and [0 < d]; an infinity when that is [2^1024] or more. *)
Definition round (neg : bool) (n d : Z) : t :=
  let N := n * unit in
  let g := grid (N / d) in
  let q := N / (d * g) in
  let r := N mod (d * g) in
  let q' := match 2 * r ?= d * g with
            | Lt => q
            | Gt => q + 1
            | Eq => if Z.even q then q else q + 1
            end in
  if q' * g <? top then Fin neg (q' * g) else Inf neg.

(** The conversion of an integer constant. *)
Definition of_Z (n : Z) : t := round (n <? 0) (Z.abs n) 1.

Definition signed (neg : bool) (k : Z) : Z := if neg then - k else k.

(** [x < y] *)
Definition ltb (x y : t) : bool :=
  match x, y with
  | NaN, _ | _, NaN => false
  | Inf a, Inf b => a && negb b
  | Inf a, Fin _ _ => a
  | Fin _ _, Inf b => negb b
  | Fin a k1, Fin b k2 => signed a k1 <? signed b k2
  end.

(** [x * y] *)
Definition mul (x y : t) : t :=
  match x, y with
  | NaN, _ | _, NaN => NaN
  | Inf a, Inf b => Inf (xorb a b)
  | Inf a, Fin b k | Fin a k, Inf b => if k =? 0 then NaN else Inf (xorb a b)
  | Fin a k1, Fin b k2 => round (xorb a b) (k1 * k2) (unit * unit)
  end.

(** [math.Ceil(x)]: the least integer value not below [x]; [NaN], the
    infinities and the zeros are returned as they are, and [Ceil] of a
    value in [(-1, 0)] is [-0]. *)
Definition Ceil (x : t) : t :=
  match x with
  | Fin neg k => Fin neg ((if neg then k / unit else (k + unit - 1) / unit) * unit)
  | _ => x
  end.

(** The integer part of a finite value (truncation towards zero). *)
Definition trunc (x : t) : option Z :=
  match x with
  | Fin neg k => Some (signed neg (k / unit))
  | _ => None
  end.

(** The finite values of the Standard Library's specification of IEEE
    754 arithmetic, read in this representation. *)
Definition of_SF (x : SpecFloat.spec_float) : t :=
  match x with
  | SpecFloat.S754_zero s => Fin s 0
  | SpecFloat.S754_infinity s => Inf s
  | SpecFloat.S754_nan => NaN
  | SpecFloat.S754_finite s m e => Fin s (Z.pos m * 2 ^ (e + 1074))
  end.

End Float64.

(** ** Package [strconv] and the verb [%d] of package [fmt] *)

Module GoStrconv.

Definition maxUint64 : Z := 2 ^ 64 - 1.

(** The value of a decimal digit, ['0' <= c && c <= '9']. *)
Definition digit (c : ascii) : option Z :=
  let n := Z.of_N (N_of_ascii c) in
  if (48 <=? n) && (n <=? 57) then Some (n - 48) else None.

(** The loop of [strconv.ParseUint(s, 10, 64)] over the bytes of [s]:
    a byte that is not a decimal digit is a syntax error, a value above
    [maxUint64] is a range error. *)
Fixpoint parseUintLoop (n : Z) (s : string) : option Z :=
  match s with
  | EmptyString => Some n
  | String c s' =>
      match digit c with
      | None => None
      | Some d => if maxUint64 <? n * 10 + d then None else parseUintLoop (n * 10 + d) s'
      end
  end.

(** [strconv.ParseUint(s, 10, 64)]; [None] when the error is not nil. *)
Definition ParseUint (s : string) : option Z :=
  match s with
  | EmptyString => None
  | _ => parseUintLoop 0 s
  end.

(** [fmt.Sprintf("%d", u)] for a [uint64]: the digits are produced
    from the least significant one into a buffer that is filled from
    its end; a [uint64] has at most 20 of them. *)
Definition digitChar (d : Z) : ascii := ascii_of_N (Z.to_N (48 + d)).

Fixpoint formatBits (room : nat) (u : Z) (a : string) : string :=
  match room with
  | O => a
  | S room' =>
      if u <? 10 then String (digitChar u) a
      else formatBits room' (u / 10) (String (digitChar (u mod 10)) a)
  end.

Definition FormatUint (u : Z) : string := formatBits 20 u EmptyString.

(** *** Decimal floating-point literals

    The decimal grammar of [strconv.ParseFloat(s, 64)]: an optional
    sign, decimal digits with at most one point and at least one digit,
    an optional exponent [e] or [E] with an optional sign and at least
    one digit; and the words [inf], [infinity] and [nan] in any case,
    the first two with an optional sign.  The result is the binary64
    value nearest to the decimal number; a number that rounds to an
    infinity is a range error. *)

Definition lower (c : ascii) : ascii :=
  let n := N_of_ascii c in
  if ((65 <=? n) && (n <=? 90))%N then ascii_of_N (n + 32) else c.

Fixpoint toLower (s : string) : string :=
  match s with
  | EmptyString => EmptyString
  | String c s' => String (lower c) (toLower s')
  end.

Definition special (s : string) : option Float64.t :=
  let l := toLower s in
  if bool_decide (l ∈ ["inf"; "+inf"; "infinity"; "+infinity"]) then Some (Float64.Inf false)
  else if bool_decide (l ∈ ["-inf"; "-infinity"]) then Some (Float64.Inf true)
  else if bool_decide (l = "nan") then Some Float64.NaN
  else None.

(** The mantissa: digits and at most one point.  Returns the digits
    read as one integer, the number of digits after the point, whether
    a digit was seen, and what follows the mantissa; [None] on a second
    point. *)
Fixpoint readMantissa (s : string) (mant nfrac : Z) (sawdot sawdigits : bool)
  : option (Z * Z * bool * string) :=
  match s with
  | EmptyString => Some (mant, nfrac, sawdigits, s)
  | String c s' =>
      if Ascii.eqb c "." then
        if sawdot then None else readMantissa s' mant nfrac true sawdigits
      else match digit c with
           | Some d => readMantissa s' (mant * 10 + d) (if sawdot then nfrac + 1 else nfrac) sawdot true
           | None => Some (mant, nfrac, sawdigits, s)
           end
  end.

(** The digits of the exponent; the value stops growing at 10000. *)
Fixpoint readExpDigits (s : string) (e : Z) : Z * string :=
  match s with
  | EmptyString => (e, s)
  | String c s' =>
      match digit c with
      | Some d => readExpDigits s' (if e <? 10000 then e * 10 + d else e)
      | None => (e, s)
      end
  end.

Definition readExponent (s : string) : option (Z * string) :=
  match s with
  | String c s1 =>
      if Ascii.eqb (lower c) "e" then
        let '(esign, s2) :=
          match s1 with
          | String "+" s2 => (1, s2)
          | String "-" s2 => (-1, s2)
          | _ => (1, s1)
          end in
        match s2 with
        | String c2 _ =>
            match digit c2 with
            | Some _ => let '(e, rest) := readExpDigits s2 0 in Some (e * esign, rest)
            | None => None
            end
        | EmptyString => None
        end
      else Some (0, s)
  | EmptyString => Some (0, s)
  end.

(** The sign, the digits as an integer and the power of ten of a
    decimal literal; [None] on a syntax error. *)
Definition readFloat (s : string) : option (bool * Z * Z) :=
  match s with
  | EmptyString => None
  | String c s0 =>
      let '(neg, s1) :=
        if Ascii.eqb c "+" then (false, s0)
        else if Ascii.eqb c "-" then (true, s0)
        else (false, s) in
      match readMantissa s1 0 0 false false with
      | Some (mant, nfrac, true, s2) =>
          match readExponent s2 with
          | Some (e, EmptyString) => Some (neg, mant, e - nfrac)
          | _ => None
          end
      | _ => None
      end
  end.

Definition ParseDecimal (s : string) : option Float64.t :=
  match special s with
  | Some f => Some f
  | None =>
      match readFloat s with
      | Some (neg, mant, exp) =>
          match Float64.round neg (mant * 10 ^ Z.max 0 exp) (10 ^ Z.max 0 (- exp)) with
          | Float64.Inf _ => None
          | f => Some f
          end
      | None => None
      end
  end.

End GoStrconv.

(** ** What the package imports from outside the Go library, and what
       the platform decides *)

Class Imports : Type := {
  (** [arch.IsSupportedArch] of [github.com/juju/utils/arch]: membership
      in the allow-list of architecture names. *)
  IsSupportedArch : string -> bool;
  (** [strconv.ParseFloat(s, 64)] of the Go release the package is built
      with; [None] when the returned error is not nil. *)
  ParseFloat : string -> option Float64.t;
  (** The result of the conversion [uint64(f)] when [f] is a NaN, an
      infinity, or a value whose integer part is outside [0 .. 2^64-1]:
      the Go specification leaves it to the implementation. *)
  uint64_out_of_range : Float64.t -> Z;
}.

(** ** Package [instance] *)

(** [HardwareCharacteristics]: attributes that are nil ([None]) are
    unknown or not supported. *)
Record HardwareCharacteristics : Type := mkHardwareCharacteristics {
  Arch : option string;
  Mem : option Z;
  RootDisk : option Z;
  CpuCores : option Z;
  CpuPower : option Z;
  Tags : option (list string);
  AvailabilityZone : option string;
}.

(** [HardwareCharacteristics{}] *)
Definition zeroHC : HardwareCharacteristics :=
  mkHardwareCharacteristics None None None None None None None.

Definition with_Arch (hc : HardwareCharacteristics) (v : option string) :=
  mkHardwareCharacteristics v (Mem hc) (RootDisk hc) (CpuCores hc) (CpuPower hc) (Tags hc) (AvailabilityZone hc).
Definition with_Mem (hc : HardwareCharacteristics) (v : option Z) :=
  mkHardwareCharacteristics (Arch hc) v (RootDisk hc) (CpuCores hc) (CpuPower hc) (Tags hc) (AvailabilityZone hc).
Definition with_RootDisk (hc : HardwareCharacteristics) (v : option Z) :=
  mkHardwareCharacteristics (Arch hc) (Mem hc) v (CpuCores hc) (CpuPower hc) (Tags hc) (AvailabilityZone hc).
Definition with_CpuCores (hc : HardwareCharacteristics) (v : option Z) :=
  mkHardwareCharacteristics (Arch hc) (Mem hc) (RootDisk hc) v (CpuPower hc) (Tags hc) (AvailabilityZone hc).
Definition with_CpuPower (hc : HardwareCharacteristics) (v : option Z) :=
  mkHardwareCharacteristics (Arch hc) (Mem hc) (RootDisk hc) (CpuCores hc) v (Tags hc) (AvailabilityZone hc).
Definition with_Tags (hc : HardwareCharacteristics) (v : option (list string)) :=
  mkHardwareCharacteristics (Arch hc) (Mem hc) (RootDisk hc) (CpuCores hc) (CpuPower hc) v (AvailabilityZone hc).
Definition with_AvailabilityZone (hc : HardwareCharacteristics) (v : option string) :=
  mkHardwareCharacteristics (Arch hc) (Mem hc) (RootDisk hc) (CpuCores hc) (CpuPower hc) (Tags hc) v.

(** The errors.  The package builds them with [fmt.Errorf]; a
    constructor stands for one message format and carries its argument.
    [cause] is what a setter returns, [error] what [setRaw] and
    [ParseHardware] return. *)
Inductive cause : Type :=
| already_set                      (* "already set" *)
| not_recognized (str : string)    (* "%q not recognized" *)
| must_be_non_negative_integer     (* "must be a non-negative integer" *)
| must_be_non_negative_float.      (* "must be a non-negative float with optional M/G/T/P suffix" *)

Inductive error : Type :=
| malformed_characteristic (raw : string)            (* "malformed characteristic %q" *)
| unknown_characteristic (name : string)             (* "unknown characteristic %q" *)
| bad_characteristic (name : string) (err : cause).  (* "bad %q characteristic: %v" *)

(** The error kinds of the specification. *)
Inductive ErrorKind : Type :=
| MalformedToken
| UnknownCharacteristic
| AlreadySet
| InvalidNumber
| UnsupportedArchitecture.

Definition kind (e : error) : ErrorKind :=
  match e with
  | malformed_characteristic _ => MalformedToken
  | unknown_characteristic _ => UnknownCharacteristic
  | bad_characteristic _ already_set => AlreadySet
  | bad_characteristic _ (not_recognized _) => UnsupportedArchitecture
  | bad_characteristic _ must_be_non_negative_integer => InvalidNumber
  | bad_characteristic _ must_be_non_negative_float => InvalidNumber
  end.

(** [func (hc HardwareCharacteristics) String() string] *)
Definition hcString (hc : HardwareCharacteristics) : string :=
  let strs : list string := [] in
  let strs := match Arch hc with
              | Some a => strs ++ ["arch=" +:+ a]
              | None => strs
              end in
  let strs := match CpuCores hc with
              | Some n => strs ++ ["cores=" +:+ GoStrconv.FormatUint n]
              | None => strs
              end in
  let strs := match CpuPower hc with
              | Some n => strs ++ ["cpu-power=" +:+ GoStrconv.FormatUint n]
              | None => strs
              end in
  let strs := match Mem hc with
              | Some n => strs ++ ["mem=" +:+ GoStrconv.FormatUint n +:+ "M"]
              | None => strs
              end in
  let strs := match RootDisk hc with
              | Some n => strs ++ ["root-disk=" +:+ GoStrconv.FormatUint n +:+ "M"]
              | None => strs
              end in
  let strs := match Tags hc with
              | Some tags => if 0 <? Z.of_nat (length tags)
                             then strs ++ ["tags=" +:+ GoStrings.Join tags ","]
                             else strs
              | None => strs
              end in
  let strs := match AvailabilityZone hc with
              | Some z => if negb (String.eqb z "")
                          then strs ++ ["availability-zone=" +:+ z]
                          else strs
              | None => strs
              end in
  GoStrings.Join strs " ".

(** [parseTags] *)
Definition parseTags (s : string) : option (list string) :=
  if String.eqb s "" then Some []
  else Some (GoStrings.Split s ",").

(** [parseUint64]: the pair of a [*uint64] and an error. *)
Definition parseUint64 (str : string) : option Z * option cause :=
  if negb (String.eqb str "") then
    match GoStrconv.ParseUint str with
    | None => (None, Some must_be_non_negative_integer)
    | Some val => (Some val, None)
    end
  else (Some 0, None).

(** [mbSuffixes] *)
Definition mbSuffixes : gmap string Float64.t :=
  {[ "M" := Float64.of_Z 1;
     "G" := Float64.of_Z 1024;
     "T" := Float64.of_Z (1024 * 1024);
     "P" := Float64.of_Z (1024 * 1024 * 1024) ]}.

(** The outcome of a call that may panic: the value it returns, or the
    error it panics with. *)
Inductive outcome (A : Type) : Type :=
| Returns (a : A)
| Panics (err : error).
Arguments Returns {A} a.
Arguments Panics {A} err.

Section Codec.
Context {imports : Imports}.

(** The conversion [uint64(f)]: the fraction is discarded. *)
Definition uint64_of_float (f : Float64.t) : Z :=
  match Float64.trunc f with
  | Some z => if (0 <=? z) && (z <=? GoStrconv.maxUint64) then z else uint64_out_of_range f
  | None => uint64_out_of_range f
  end.

(** [parseSize]: the pair of a [*uint64] and an error. *)
Definition parseSize (str : string) : option Z * option cause :=
  if negb (String.eqb str "") then
    let mult := Float64.of_Z 1 in
    let '(str, mult) :=
      match mbSuffixes !! GoStrings.slice_from str (GoStrings.len str - 1) with
      | Some m => (GoStrings.slice_to str (GoStrings.len str - 1), m)
      | None => (str, mult)
      end in
    match ParseFloat str with
    | None => (None, Some must_be_non_negative_float)
    | Some val =>
        if Float64.ltb val (Float64.of_Z 0) then (None, Some must_be_non_negative_float)
        else
          let val := Float64.mul val mult in
          (Some (uint64_of_float (Float64.Ceil val)), None)
    end
  else (Some 0, None).

(** The setters.  Each takes the record before the call and returns the
    record after it together with the error. *)
Definition setArch (hc : HardwareCharacteristics) (str : string)
  : HardwareCharacteristics * option cause :=
  if bool_decide (Arch hc <> None) then (hc, Some already_set)
  else if negb (String.eqb str "") && negb (IsSupportedArch str) then (hc, Some (not_recognized str))
  else (with_Arch hc (Some str), None).

Definition setCpuCores (hc : HardwareCharacteristics) (str : string)
  : HardwareCharacteristics * option cause :=
  if bool_decide (CpuCores hc <> None) then (hc, Some already_set)
  else let '(v, err) := parseUint64 str in (with_CpuCores hc v, err).

Definition setCpuPower (hc : HardwareCharacteristics) (str : string)
  : HardwareCharacteristics * option cause :=
  if bool_decide (CpuPower hc <> None) then (hc, Some already_set)
  else let '(v, err) := parseUint64 str in (with_CpuPower hc v, err).

Definition setMem (hc : HardwareCharacteristics) (str : string)
  : HardwareCharacteristics * option cause :=
  if bool_decide (Mem hc <> None) then (hc, Some already_set)
  else let '(v, err) := parseSize str in (with_Mem hc v, err).

Definition setRootDisk (hc : HardwareCharacteristics) (str : string)
  : HardwareCharacteristics * option cause :=
  if bool_decide (RootDisk hc <> None) then (hc, Some already_set)
  else let '(v, err) := parseSize str in (with_RootDisk hc v, err).

Definition setTags (hc : HardwareCharacteristics) (str : string)
  : HardwareCharacteristics * option cause :=
  if bool_decide (Tags hc <> None) then (hc, Some already_set)
  else (with_Tags hc (parseTags str), None).

Definition setAvailabilityZone (hc : HardwareCharacteristics) (str : string)
  : HardwareCharacteristics * option cause :=
  if bool_decide (AvailabilityZone hc <> None) then (hc, Some already_set)
  else if negb (String.eqb str "") then (with_AvailabilityZone hc (Some str), None)
  else (hc, None).

(** [setRaw] interprets a name=value string and sets the supplied value. *)
Definition setRaw (hc : HardwareCharacteristics) (raw : string)
  : HardwareCharacteristics * option error :=
  let eq := GoStrings.Index raw "=" in
  if eq <=? 0 then (hc, Some (malformed_characteristic raw))
  else
    let name := GoStrings.slice_to raw eq in
    let str := GoStrings.slice_from raw (eq + 1) in
    let switch : option (HardwareCharacteristics * option cause) :=
      if String.eqb name "arch" then Some (setArch hc str)
      else if String.eqb name "cores" then Some (setCpuCores hc str)
      else if String.eqb name "cpu-power" then Some (setCpuPower hc str)
      else if String.eqb name "mem" then Some (setMem hc str)
      else if String.eqb name "root-disk" then Some (setRootDisk hc str)
      else if String.eqb name "tags" then Some (setTags hc str)
      else if String.eqb name "availability-zone" then Some (setAvailabilityZone hc str)
      else None in
    match switch with
    | None => (hc, Some (unknown_characteristic name))
    | Some (hc', Some err) => (hc', Some (bad_characteristic name err))
    | Some (hc', None) => (hc', None)
    end.

(** The inner loop of [ParseHardware], over the pieces of one
    argument: the record after the loop, and the error on which it
    returned early. *)
Fixpoint setRaws (hc : HardwareCharacteristics) (raws : list string)
  : HardwareCharacteristics * option error :=
  match raws with
  | [] => (hc, None)
  | raw :: raws' =>
      if String.eqb raw "" then setRaws hc raws'
      else match setRaw hc raw with
           | (hc', Some err) => (hc', Some err)
           | (hc', None) => setRaws hc' raws'
           end
  end.

(** The outer loop, over the arguments. *)
Fixpoint parseArgs (hc : HardwareCharacteristics) (args : list string)
  : HardwareCharacteristics * option error :=
  match args with
  | [] => (hc, None)
  | arg :: args' =>
      match setRaws hc (GoStrings.Split (GoStrings.TrimSpace arg) " ") with
      | (hc', Some err) => (hc', Some err)
      | (hc', None) => parseArgs hc' args'
      end
  end.

(** [ParseHardware] constructs a [HardwareCharacteristics] from the
    supplied arguments; on an error the zero record is returned with it. *)
Definition ParseHardware (args : list string) : HardwareCharacteristics * option error :=
  match parseArgs zeroHC args with
  | (_, Some err) => (zeroHC, Some err)
  | (hc, None) => (hc, None)
  end.

(** [MustParseHardware] constructs a [HardwareCharacteristics] from the
    supplied arguments, as [ParseHardware], but panics on failure. *)
Definition MustParseHardware (args : list string) : outcome HardwareCharacteristics :=
  let '(hc, err) := ParseHardware args in
  match err with
  | Some e => Panics e
  | None => Returns hc
  end.

End Codec.

(** A sample of the imports: the architectures of [juju/utils/arch], the
    decimal grammar of [strconv.ParseFloat], and the x86-64 result of an
    out-of-range conversion. *)
Definition sampleArches : list string :=
  ["amd64"; "i386"; "armhf"; "arm64"; "ppc64el"; "s390x"].

Definition sampleImports : Imports := {|
  IsSupportedArch s := bool_decide (s ∈ sampleArches);
  ParseFloat := GoStrconv.ParseDecimal;
  uint64_out_of_range _ := 2 ^ 63;
|}.

(** ** Notions the statements use *)

Definition TAB : string := String (ascii_of_nat 9) EmptyString.

(** [s] contains the byte [c]. *)
Fixpoint has_byte (c : ascii) (s : string) : bool :=
  match s with
  | EmptyString => false
  | String c' s' => Ascii.eqb c' c || has_byte c s'
  end.

(** The pieces [ParseHardware] cuts one argument into, and the tokens of
    a call: the non-empty pieces of its arguments, in order. *)
Definition pieces (arg : string) : list string :=
  GoStrings.Split (GoStrings.TrimSpace arg) " ".

Definition tokens (args : list string) : list string :=
  filter (fun raw => raw <> EmptyString) (concat (pieces <$> args)).

(** A token free of white space at its ends and of spaces inside: an
    argument that is such a token is passed to [setRaw] as it is. *)
Definition is_token (t : string) : bool :=
  negb (String.eqb t "") && negb (has_byte " " t)
  && String.eqb (GoStrings.trimLeft t) t && String.eqb (GoStrings.trimRight t) t.

(** The recognized keys, and whether the field of a key is assigned. *)
Definition keys : list string :=
  ["arch"; "cores"; "cpu-power"; "mem"; "root-disk"; "tags"; "availability-zone"].

Definition is_set (name : string) (hc : HardwareCharacteristics) : bool :=
  if String.eqb name "arch" then bool_decide (Arch hc <> None)
  else if String.eqb name "cores" then bool_decide (CpuCores hc <> None)
  else if String.eqb name "cpu-power" then bool_decide (CpuPower hc <> None)
  else if String.eqb name "mem" then bool_decide (Mem hc <> None)
  else if String.eqb name "root-disk" then bool_decide (RootDisk hc <> None)
  else if String.eqb name "tags" then bool_decide (Tags hc <> None)
  else if String.eqb name "availability-zone" then bool_decide (AvailabilityZone hc <> None)
  else false.

(** The setter [setRaw] dispatches a key to. *)
Definition setter {imports : Imports} (name : string)
  : option (HardwareCharacteristics -> string -> HardwareCharacteristics * option cause) :=
  if String.eqb name "arch" then Some setArch
  else if String.eqb name "cores" then Some setCpuCores
  else if String.eqb name "cpu-power" then Some setCpuPower
  else if String.eqb name "mem" then Some setMem
  else if String.eqb name "root-disk" then Some setRootDisk
  else if String.eqb name "tags" then Some setTags
  else if String.eqb name "availability-zone" then Some setAvailabilityZone
  else None.

(** What [setRaw] returns for the outcome of a setter. *)
Definition characteristic (name : string) (r : HardwareCharacteristics * option cause)
  : HardwareCharacteristics * option error :=
  match r with
  | (hc, Some err) => (hc, Some (bad_characteristic name err))
  | (hc, None) => (hc, None)
  end.

(** Decimal numerals: strings of decimal digits and their value. *)
Fixpoint all_digits (s : string) : bool :=
  match s with
  | EmptyString => true
  | String c s' => bool_decide (GoStrconv.digit c <> None) && all_digits s'
  end.

Fixpoint dec_value (acc : Z) (s : string) : Z :=
  match s with
  | EmptyString => acc
  | String c s' => dec_value (acc * 10 + default 0 (GoStrconv.digit c)) s'
  end.

(** The least integer not below [a / b], for [0 < b]. *)
Definition ceiling (a b : Z) : Z := - ((- a) / b).

(** A size without its unit: the string before a final [M], [G], [T] or
    [P], with the binary logarithm of the unit's multiplier. *)
Fixpoint unit_suffix (v : string) : string * Z :=
  match v with
  | EmptyString => (v, 0)
  | String c EmptyString =>
      if Ascii.eqb c "M" then (EmptyString, 0)
      else if Ascii.eqb c "G" then (EmptyString, 10)
      else if Ascii.eqb c "T" then (EmptyString, 20)
      else if Ascii.eqb c "P" then (EmptyString, 30)
      else (v, 0)
  | String c v' => let '(pre, j) := unit_suffix v' in (String c pre, j)
  end.

(** Every field assigned in [hc] has the same value in [hc']. *)
Definition keeps (hc hc' : HardwareCharacteristics) : Prop :=
  (forall x, Arch hc = Some x -> Arch hc' = Some x) /\
  (forall x, Mem hc = Some x -> Mem hc' = Some x) /\
  (forall x, RootDisk hc = Some x -> RootDisk hc' = Some x) /\
  (forall x, CpuCores hc = Some x -> CpuCores hc' = Some x) /\
  (forall x, CpuPower hc = Some x -> CpuPower hc' = Some x) /\
  (forall x, Tags hc = Some x -> Tags hc' = Some x) /\
  (forall x, AvailabilityZone hc = Some x -> AvailabilityZone hc' = Some x).

(** The value a plain-integer field takes for a value string: 0 for the
    empty string, the number a decimal numeral denotes when it is at most
    [2^64-1], and none otherwise. *)
Definition plain_integer (v : string) : option Z :=
  if String.eqb v "" then Some 0
  else if all_digits v && (dec_value 0 v <=? GoStrconv.maxUint64) then Some (dec_value 0 v)
  else None.

(** The tokens of a record as the specification lists them: one per
    assigned field, in the order architecture, cores, cpu-power, memory,
    root-disk, tags, availability zone; tags and zone only when not empty. *)
Definition rendered (key : string) (value : option string) : list string :=
  match value with
  | Some v => [key +:+ "=" +:+ v]
  | None => []
  end.

Definition fieldTokens (hc : HardwareCharacteristics) : list string :=
  rendered "arch" (Arch hc) ++
  rendered "cores" (GoStrconv.FormatUint <$> CpuCores hc) ++
  rendered "cpu-power" (GoStrconv.FormatUint <$> CpuPower hc) ++
  rendered "mem" ((fun n => GoStrconv.FormatUint n +:+ "M") <$> Mem hc) ++
  rendered "root-disk" ((fun n => GoStrconv.FormatUint n +:+ "M") <$> RootDisk hc) ++
  rendered "tags" (match Tags hc with
                   | Some (t :: ts) => Some (GoStrings.Join (t :: ts) ",")
                   | _ => None
                   end) ++
  rendered "availability-zone" (match AvailabilityZone hc with
                                | Some (String c z) => Some (String c z)
                                | _ => None
                                end).

(** What the development assumes of the imported [strconv.ParseFloat]:
    its results are binary64 values, and a decimal literal is parsed as
    the decimal grammar of [GoStrconv.ParseDecimal] says. *)
Definition ParseFloat_conforms {imports : Imports} : Prop :=
  (forall s f, ParseFloat s = Some f -> Float64.valid f = true) /\
  (forall s f, GoStrconv.ParseDecimal s = Some f -> ParseFloat s = Some f).

(** A [uint64] that is a float64 value: it has at most 53 significant
    bits. *)
Definition exact_uint64 (n : Z) : Prop :=
  0 <= n <= GoStrconv.maxUint64 /\ Float64.on_grid (n * Float64.unit) = true.

(** What holds of the fields of a record that a successful parse
    returns: values are free of spaces; an architecture is empty or on
    the allow-list; the plain integers are in the range of [uint64]; a
    tag list is empty or the pieces of a non-empty string; the
    availability zone is not empty. *)
Definition parsed {imports : Imports} (hc : HardwareCharacteristics) : Prop :=
  (forall a, Arch hc = Some a ->
     has_byte " " a = false /\ (a = "" \/ IsSupportedArch a = true)) /\
  (forall n, CpuCores hc = Some n -> 0 <= n <= GoStrconv.maxUint64) /\
  (forall n, CpuPower hc = Some n -> 0 <= n <= GoStrconv.maxUint64) /\
  (forall l, Tags hc = Some l ->
     l = [] \/ exists s, s <> "" /\ has_byte " " s = false /\ l = GoStrings.Split s ",") /\
  (forall z, AvailabilityZone hc = Some z -> z <> "" /\ has_byte " " z = false).

(** The record with an explicitly empty tag list turned into an
    unspecified one. *)
Definition unset_empty_tags (hc : HardwareCharacteristics) : HardwareCharacteristics :=
  with_Tags hc (match Tags hc with
                | Some [] => None
                | tags => tags
                end).


(** A record that can be rendered and read back: its fields are as a
    successful call leaves them, its rendering neither starts nor ends
    with white space, and its sizes are float64 values. *)
Definition renderable {imports : Imports} (hc : HardwareCharacteristics) : Prop :=
  parsed hc /\
  GoStrings.TrimSpace (hcString hc) = hcString hc /\
  (forall n, Mem hc = Some n -> exact_uint64 n) /\
  (forall n, RootDisk hc = Some n -> exact_uint64 n).

(** ** Facts about strings *)

Section StringFacts.

Lemma sapp_cons (c : ascii) (s t : string) : String c s +:+ t = String c (s +:+ t).
Proof. reflexivity. Qed.

Lemma sapp_nil_r (s : string) : s +:+ "" = s.
Proof. induction s as [|c s IH]; [done|]. by rewrite sapp_cons, IH. Qed.

Lemma sapp_assoc (s t u : string) : (s +:+ t) +:+ u = s +:+ (t +:+ u).
Proof. induction s as [|c s IH]; [done|]. by rewrite !sapp_cons, IH. Qed.

Lemma sapp_length (s t : string) :
  String.length (s +:+ t) = (String.length s + String.length t)%nat.
Proof. induction s as [|c s IH]; [done|]. rewrite sapp_cons. simpl. by rewrite IH. Qed.

Lemma has_byte_app (c : ascii) (s t : string) :
  has_byte c (s +:+ t) = has_byte c s || has_byte c t.
Proof.
  induction s as [|c' s IH]; [done|].
  rewrite sapp_cons. simpl. rewrite IH. by rewrite orb_assoc.
Qed.

Lemma has_byte_drop (c : ascii) (n : nat) (s : string) :
  has_byte c s = false -> has_byte c (GoStrings.drop n s) = false.
Proof.
  revert s. induction n as [|n IH]; intros [|c' s] H; simpl in *; try done.
  apply orb_false_iff in H as [_ H]. by apply IH.
Qed.

Lemma take_app (s t : string) : GoStrings.take (String.length s) (s +:+ t) = s.
Proof. induction s as [|c s IH]; simpl; [by destruct t|]. by rewrite IH. Qed.

Lemma drop_app (s t : string) : GoStrings.drop (String.length s) (s +:+ t) = t.
Proof. induction s as [|c s IH]; simpl; [by destruct t|]. by rewrite IH. Qed.

(** *** [Split] and [Join] *)

Lemma Split_not_nil (s : string) (sep : ascii) : GoStrings.Split s sep <> [].
Proof.
  destruct s as [|c s]; simpl; [done|].
  destruct (Ascii.eqb c sep); [done|]. by destruct (GoStrings.Split s sep).
Qed.

Lemma Split_no_sep (s : string) (sep : ascii) :
  has_byte sep s = false -> GoStrings.Split s sep = [s].
Proof.
  induction s as [|c s IH]; simpl; [done|]. intros H.
  apply orb_false_iff in H as [-> H]. by rewrite IH.
Qed.

Lemma Split_app_sep (s t : string) (sep : ascii) :
  has_byte sep s = false ->
  GoStrings.Split (s +:+ String sep t) sep = s :: GoStrings.Split t sep.
Proof.
  induction s as [|c s IH]; intros H.
  - change (GoStrings.Split (String sep t) sep = "" :: GoStrings.Split t sep).
    simpl. by rewrite Ascii.eqb_refl.
  - simpl in H. apply orb_false_iff in H as [Hc H].
    rewrite sapp_cons. simpl. rewrite Hc, IH by done. done.
Qed.

Lemma Split_pieces (s : string) (sep : ascii) :
  Forall (fun p => has_byte sep p = false) (GoStrings.Split s sep).
Proof.
  induction s as [|c s IH]; simpl; [by repeat constructor|].
  destruct (Ascii.eqb c sep) eqn:Hc; [by constructor|].
  destruct (GoStrings.Split s sep) as [|p ps]; [by repeat constructor; simpl; rewrite Hc|].
  inversion IH; subst. constructor; [|done]. simpl. by rewrite Hc.
Qed.

Lemma Join_cons (e : string) (rest : list string) (sep : string) :
  rest <> [] -> GoStrings.Join (e :: rest) sep = e +:+ sep +:+ GoStrings.Join rest sep.
Proof. by destruct rest. Qed.

Lemma Join_Split (s : string) (sep : ascii) :
  GoStrings.Join (GoStrings.Split s sep) (String sep "") = s.
Proof.
  induction s as [|c s IH]; simpl; [done|].
  destruct (Ascii.eqb c sep) eqn:Hc.
  - apply Ascii.eqb_eq in Hc as ->.
    rewrite Join_cons by apply Split_not_nil. by rewrite IH.
  - pose proof (Split_not_nil s sep) as Hne.
    destruct (GoStrings.Split s sep) as [|p ps]; [done|].
    destruct ps as [|p' ps]; simpl in *; [by rewrite IH|].
    rewrite sapp_cons. by rewrite IH.
Qed.

Lemma Split_Join (l : list string) (sep : ascii) :
  l <> [] ->
  Forall (fun p => has_byte sep p = false) l ->
  GoStrings.Split (GoStrings.Join l (String sep "")) sep = l.
Proof.
  induction l as [|e l IH]; [done|]. intros _ Hall.
  inversion Hall as [|? ? He Hl]; subst.
  destruct l as [|e' l]; [simpl; by apply Split_no_sep|].
  rewrite Join_cons by done.
  change (e +:+ String sep "" +:+ GoStrings.Join (e' :: l) (String sep ""))
    with (e +:+ String sep (GoStrings.Join (e' :: l) (String sep ""))).
  rewrite Split_app_sep by done. by rewrite IH.
Qed.

Lemma has_byte_Join (c : ascii) (l : list string) (sep : string) :
  has_byte c sep = false ->
  Forall (fun p => has_byte c p = false) l ->
  has_byte c (GoStrings.Join l sep) = false.
Proof.
  intros Hsep. induction l as [|e l IH]; [done|]. intros Hall.
  inversion Hall; subst. destruct l as [|e' l]; [done|].
  rewrite Join_cons by done. rewrite !has_byte_app, Hsep, IH by done.
  by rewrite H1.
Qed.

(** *** [Index] and the cut at the first [=] *)

Lemma prefix_eq_cons (c : ascii) (s : string) :
  String.prefix "=" (String c s) = Ascii.eqb c "=".
Proof.
  cbn [String.prefix]. destruct (ascii_dec "=" c) as [<-|Hne].
  - rewrite Ascii.eqb_refl. by destruct s.
  - symmetry. apply Ascii.eqb_neq. congruence.
Qed.

Lemma index_from_no_byte (i : Z) (s : string) :
  has_byte "=" s = false -> GoStrings.index_from i s "=" = -1.
Proof.
  revert i. induction s as [|c s IH]; intros i H; [done|].
  simpl in H. apply orb_false_iff in H as [Hc H].
  unfold GoStrings.index_from; fold GoStrings.index_from.
  rewrite prefix_eq_cons, Hc. by apply IH.
Qed.

Lemma index_from_cut (i : Z) (k v : string) :
  has_byte "=" k = false ->
  GoStrings.index_from i (k +:+ String "=" v) "=" = i + GoStrings.len k.
Proof.
  revert i. induction k as [|c k IH]; intros i H.
  - change ("" +:+ String "=" v) with (String "=" v).
    unfold GoStrings.index_from; fold GoStrings.index_from.
    rewrite prefix_eq_cons. simpl. unfold GoStrings.len. simpl. lia.
  - simpl in H. apply orb_false_iff in H as [Hc H].
    rewrite sapp_cons.
    unfold GoStrings.index_from; fold GoStrings.index_from.
    rewrite prefix_eq_cons, Hc, IH by done.
    unfold GoStrings.len. simpl. lia.
Qed.

Lemma Index_cut (k v : string) :
  has_byte "=" k = false ->
  GoStrings.Index (k +:+ "=" +:+ v) "=" = GoStrings.len k.
Proof.
  intros H. unfold GoStrings.Index.
  change (k +:+ "=" +:+ v) with (k +:+ String "=" v).
  by rewrite (index_from_cut 0 k v H).
Qed.

Lemma slice_to_cut (k v : string) :
  GoStrings.slice_to (k +:+ "=" +:+ v) (GoStrings.len k) = k.
Proof. unfold GoStrings.slice_to, GoStrings.len. rewrite Nat2Z.id. apply take_app. Qed.

Lemma slice_from_cut (k v : string) :
  GoStrings.slice_from (k +:+ "=" +:+ v) (GoStrings.len k + 1) = v.
Proof.
  unfold GoStrings.slice_from, GoStrings.len.
  replace (Z.to_nat (Z.of_nat (String.length k) + 1)) with (String.length (k +:+ "=")).
  - rewrite <- sapp_assoc. apply drop_app.
  - rewrite sapp_length. simpl. lia.
Qed.

(** Every string either has no [=], or is cut at its first [=] into a
    key without [=] and a value. *)
Lemma cut_cases (raw : string) :
  has_byte "=" raw = false \/
  exists k v, raw = k +:+ "=" +:+ v /\ has_byte "=" k = false.
Proof.
  induction raw as [|c raw IH]; [by left|].
  destruct (Ascii.eqb c "=") eqn:Hc.
  - right. apply Ascii.eqb_eq in Hc as ->. by exists "", raw.
  - destruct IH as [IH|(k & v & -> & Hk)].
    + left. simpl. by rewrite Hc.
    + right. exists (String c k), v. split; [done|]. simpl. by rewrite Hc.
Qed.

End StringFacts.

(** ** Decimal numerals: [%d] and [ParseUint] *)

Section Numerals.

Lemma digit_range (c : ascii) (d : Z) : GoStrconv.digit c = Some d -> 0 <= d < 10.
Proof.
  unfold GoStrconv.digit. case_match eqn:H; [|done]. intros [= <-].
  apply andb_true_iff in H as [?%Z.leb_le ?%Z.leb_le]. lia.
Qed.

Lemma digit_digitChar (d : Z) : 0 <= d < 10 -> GoStrconv.digit (GoStrconv.digitChar d) = Some d.
Proof.
  intros H.
  assert (d = 0 \/ d = 1 \/ d = 2 \/ d = 3 \/ d = 4 \/ d = 5 \/ d = 6 \/ d = 7 \/ d = 8 \/ d = 9)
    as Hd by lia.
  repeat (destruct Hd as [->|Hd]; [reflexivity|]). by subst.
Qed.

Lemma all_digits_no_byte (c : ascii) (s : string) :
  GoStrconv.digit c = None -> all_digits s = true -> has_byte c s = false.
Proof.
  intros Hc. induction s as [|c' s IH]; [done|]. simpl.
  intros [Hd Hs]%andb_true_iff. rewrite IH by done.
  apply bool_decide_eq_true in Hd.
  destruct (Ascii.eqb c' c) eqn:E; [|done]. apply Ascii.eqb_eq in E. congruence.
Qed.

Lemma dec_value_ge (acc : Z) (s : string) : 0 <= acc -> acc <= dec_value acc s.
Proof.
  revert acc. induction s as [|c s IH]; intros acc Hacc; simpl; [lia|].
  assert (0 <= default 0 (GoStrconv.digit c)) as Hd.
  { destruct (GoStrconv.digit c) eqn:E; simpl; [|lia]. apply digit_range in E. lia. }
  specialize (IH (acc * 10 + default 0 (GoStrconv.digit c))). lia.
Qed.

Lemma formatBits_value (room : nat) (u : Z) (a : string) :
  0 <= u < 10 ^ Z.of_nat room ->
  dec_value 0 (GoStrconv.formatBits room u a) = dec_value u a.
Proof.
  revert u a. induction room as [|room IH]; intros u a Hu.
  - simpl in Hu. assert (u = 0) as -> by lia. done.
  - simpl. destruct (Z.ltb_spec u 10) as [Hlt|Hge].
    + simpl. rewrite digit_digitChar by lia. done.
    + rewrite IH.
      * simpl. rewrite digit_digitChar by (apply Z.mod_pos_bound; lia). simpl.
        f_equal. pose proof (Z.div_mod u 10). lia.
      * rewrite Nat2Z.inj_succ, Z.pow_succ_r in Hu by lia.
        split; [apply Z.div_pos; lia|]. apply Z.div_lt_upper_bound; lia.
Qed.

Lemma formatBits_digits (room : nat) (u : Z) (a : string) :
  0 <= u -> all_digits a = true -> all_digits (GoStrconv.formatBits room u a) = true.
Proof.
  revert u a. induction room as [|room IH]; intros u a Hu Ha; [done|].
  simpl. destruct (Z.ltb_spec u 10) as [Hlt|Hge].
  - simpl. rewrite digit_digitChar by lia. by rewrite Ha.
  - apply IH; [apply Z.div_pos; lia|]. simpl.
    rewrite digit_digitChar by (apply Z.mod_pos_bound; lia). by rewrite Ha.
Qed.

Lemma formatBits_not_empty (room : nat) (u : Z) (a : string) :
  (room <> 0%nat \/ a <> "") -> GoStrconv.formatBits room u a <> "".
Proof.
  revert u a. induction room as [|room IH]; intros u a H; simpl.
  - by destruct H.
  - destruct (u <? 10); [done|]. apply IH. by right.
Qed.

Lemma FormatUint_spec (u : Z) :
  0 <= u <= GoStrconv.maxUint64 ->
  GoStrconv.FormatUint u <> "" /\
  all_digits (GoStrconv.FormatUint u) = true /\
  dec_value 0 (GoStrconv.FormatUint u) = u.
Proof.
  intros Hu. unfold GoStrconv.FormatUint. split; [|split].
  - apply formatBits_not_empty. by left.
  - apply formatBits_digits; [lia|done].
  - rewrite formatBits_value; [done|].
    unfold GoStrconv.maxUint64 in Hu. change (Z.of_nat 20) with 20. lia.
Qed.

Lemma parseUintLoop_spec (n : Z) (s : string) :
  0 <= n <= GoStrconv.maxUint64 ->
  GoStrconv.parseUintLoop n s =
    if all_digits s && (dec_value n s <=? GoStrconv.maxUint64)
    then Some (dec_value n s) else None.
Proof.
  revert n. induction s as [|c s IH]; intros n Hn; simpl.
  - destruct (Z.leb_spec n GoStrconv.maxUint64); [done|lia].
  - destruct (GoStrconv.digit c) as [d|] eqn:Hd; simpl; [|done].
    pose proof (digit_range _ _ Hd).
    destruct (Z.ltb_spec GoStrconv.maxUint64 (n * 10 + d)) as [Hov|Hok].
    + pose proof (dec_value_ge (n * 10 + d) s).
      destruct (Z.leb_spec (dec_value (n * 10 + d) s) GoStrconv.maxUint64); [lia|].
      by rewrite andb_false_r.
    + apply IH. lia.
Qed.

Lemma ParseUint_spec (s : string) :
  GoStrconv.ParseUint s =
    if negb (String.eqb s "") && all_digits s && (dec_value 0 s <=? GoStrconv.maxUint64)
    then Some (dec_value 0 s) else None.
Proof.
  destruct s as [|c s]; [done|]. unfold GoStrconv.ParseUint.
  rewrite parseUintLoop_spec by (unfold GoStrconv.maxUint64; lia). done.
Qed.

Lemma ParseUint_FormatUint (u : Z) :
  0 <= u <= GoStrconv.maxUint64 -> GoStrconv.ParseUint (GoStrconv.FormatUint u) = Some u.
Proof.
  intros Hu. destruct (FormatUint_spec u Hu) as (Hne & Hd & Hv).
  rewrite ParseUint_spec, Hd, Hv.
  apply String.eqb_neq in Hne. rewrite Hne. simpl.
  destruct (Z.leb_spec u GoStrconv.maxUint64); [done|lia].
Qed.

Lemma ParseUint_range (s : string) (n : Z) :
  GoStrconv.ParseUint s = Some n -> 0 <= n <= GoStrconv.maxUint64.
Proof.
  rewrite ParseUint_spec. case_match eqn:H; [|done]. intros [= <-].
  apply andb_true_iff in H as [_ ?%Z.leb_le].
  pose proof (dec_value_ge 0 s). lia.
Qed.

End Numerals.

(** ** Facts about [float64] values *)

Section FloatFacts.

Lemma unit_pos : 0 < Float64.unit.
Proof. unfold Float64.unit. apply Z.pow_pos_nonneg; lia. Qed.

Lemma top_unit : Float64.top = Float64.unit * 2 ^ 1024.
Proof. unfold Float64.top, Float64.unit. rewrite <- Z.pow_add_r by lia. done. Qed.

Lemma grid_pos (k : Z) : 0 < Float64.grid k.
Proof. unfold Float64.grid. apply Z.pow_pos_nonneg; lia. Qed.

Lemma grid_0 : Float64.grid 0 = 1.
Proof. reflexivity. Qed.

(** A number whose binary logarithm is [l] is below [2^53] times the
    spacing at it. *)
Lemma below_grid (k : Z) : 0 <= k -> k < 2 ^ 53 * Float64.grid k.
Proof.
  intros Hk. unfold Float64.grid.
  destruct (Z.eq_dec k 0) as [->|Hne]; [simpl; lia|].
  pose proof (Z.log2_spec k ltac:(lia)) as [_ Hlt].
  pose proof (Z.log2_nonneg k).
  rewrite <- Z.pow_add_r by lia.
  eapply Z.lt_le_trans; [exact Hlt|]. apply Z.pow_le_mono_r; lia.
Qed.

Lemma pow2_divides (a e q : Z) : 0 <= a <= e -> (q * 2 ^ e) mod 2 ^ a = 0.
Proof.
  intros H. replace e with ((e - a) + a) by lia.
  rewrite Z.pow_add_r by lia. rewrite Z.mul_assoc.
  apply Z.mod_mul. apply Z.pow_nonzero; lia.
Qed.

(** Rounding leaves a number on the grid where it is. *)
Lemma round_exact (neg : bool) (n d k : Z) :
  0 < d -> Float64.on_grid k = true -> n * Float64.unit = k * d ->
  Float64.round neg n d = if k <? Float64.top then Float64.Fin neg k else Float64.Inf neg.
Proof.
  intros Hd Hk HN. unfold Float64.round. rewrite HN.
  apply andb_true_iff in Hk as [Hk0%Z.leb_le Hmod%Z.eqb_eq].
  pose proof (grid_pos k) as Hg.
  rewrite Z.div_mul by lia.
  set (g := Float64.grid k) in *.
  assert (k = k / g * g) as Hkg.
  { pose proof (Z.div_mod k g ltac:(lia)). lia. }
  assert (k * d / (d * g) = k / g) as ->.
  { rewrite (Z.mul_comm k d). rewrite Z.div_mul_cancel_l by lia. done. }
  assert ((k * d) mod (d * g) = 0) as ->.
  { rewrite (Z.mul_comm k d). rewrite Z.mul_mod_distr_l by lia. rewrite Hmod. lia. }
  assert ((2 * 0 ?= d * g) = Lt) as -> by (apply Z.compare_lt_iff; nia).
  by rewrite <- Hkg.
Qed.

(** Rounding yields binary64 values. *)
Lemma round_valid (neg : bool) (n d : Z) :
  0 <= n -> 0 < d -> Float64.valid (Float64.round neg n d) = true.
Proof.
  intros Hn Hd. unfold Float64.round.
  pose proof unit_pos as HU.
  set (N := n * Float64.unit). assert (0 <= N) as HN by (unfold N; nia).
  set (Y := N / d). assert (0 <= Y) as HY by (apply Z.div_pos; lia).
  pose proof (grid_pos Y) as Hg. pose proof (below_grid Y HY) as Hbelow.
  set (g := Float64.grid Y) in *.
  assert (N / (d * g) = Y / g) as Hq by (unfold Y; by rewrite Z.div_div by lia).
  rewrite Hq.
  assert (0 <= Y / g < 2 ^ 53) as Hqr.
  { split; [apply Z.div_pos; lia|]. apply Z.div_lt_upper_bound; lia. }
  set (q' := match 2 * (N mod (d * g)) ?= d * g with
             | Eq => if Z.even (Y / g) then Y / g else Y / g + 1
             | Lt => Y / g
             | Gt => Y / g + 1
             end).
  assert (0 <= q' <= 2 ^ 53) as Hq'.
  { unfold q'. destruct (_ ?= _); [destruct (Z.even _)| |]; lia. }
  destruct (Z.ltb_spec (q' * g) Float64.top) as [Htop|Htop]; [|done].
  simpl. unfold Float64.representable. apply andb_true_iff. split; [|by apply Z.ltb_lt].
  unfold Float64.on_grid. apply andb_true_iff. split; [apply Z.leb_le; nia|].
  apply Z.eqb_eq.
  destruct (Z.eq_dec q' 0) as [->|Hne]; [done|].
  assert (exists e, 0 <= e /\ g = 2 ^ e) as (e & He & ->).
  { exists (Z.max 0 (Z.log2 Y - 52)). split; [lia|done]. }
  unfold Float64.grid. rewrite Z.log2_mul_pow2 by lia.
  destruct (Z.eq_dec q' (2 ^ 53)) as [->|Hne2].
  - rewrite Z.log2_pow2 by lia. rewrite <- Z.pow_add_r by lia.
    replace (Z.max 0 (e + 53 - 52)) with (e + 1) by lia.
    pose proof (pow2_divides (e + 1) (53 + e) 1 ltac:(lia)) as Hp.
    by rewrite Z.mul_1_l in Hp.
  - assert (Z.log2 q' < 53) by (apply Z.log2_lt_pow2; lia).
    apply pow2_divides. lia.
Qed.

Lemma on_grid_shift (k j : Z) :
  Float64.on_grid k = true -> 0 <= j -> Float64.on_grid (k * 2 ^ j) = true.
Proof.
  intros Hk Hj. apply andb_true_iff in Hk as [Hk0%Z.leb_le Hmod%Z.eqb_eq].
  unfold Float64.on_grid. apply andb_true_iff.
  assert (0 < 2 ^ j) by (apply Z.pow_pos_nonneg; lia).
  split; [apply Z.leb_le; nia|]. apply Z.eqb_eq.
  destruct (Z.eq_dec k 0) as [->|Hne]; [done|].
  pose proof (grid_pos k) as Hg.
  assert (k = k / Float64.grid k * Float64.grid k) as Hkg.
  { pose proof (Z.div_mod k (Float64.grid k) ltac:(lia)). lia. }
  pose proof (Z.log2_nonneg k).
  unfold Float64.grid in *. rewrite Z.log2_mul_pow2 by lia.
  rewrite Hkg at 1. rewrite <- Z.mul_assoc, <- Z.pow_add_r by lia.
  apply pow2_divides. lia.
Qed.

(** The multiplication by a power of two is exact. *)
Lemma mul_pow2 (neg : bool) (k j : Z) :
  Float64.on_grid k = true -> 0 <= j ->
  Float64.mul (Float64.Fin neg k) (Float64.Fin false (Float64.unit * 2 ^ j)) =
    if k * 2 ^ j <? Float64.top then Float64.Fin neg (k * 2 ^ j) else Float64.Inf neg.
Proof.
  intros Hk Hj. unfold Float64.mul. rewrite xorb_false_r.
  pose proof unit_pos.
  apply round_exact; [nia|by apply on_grid_shift|ring].
Qed.

Lemma of_Z_0 : Float64.of_Z 0 = Float64.Fin false 0.
Proof. reflexivity. Qed.

Lemma of_Z_exact (n : Z) :
  0 <= n -> Float64.on_grid (n * Float64.unit) = true -> n * Float64.unit < Float64.top ->
  Float64.of_Z n = Float64.Fin false (n * Float64.unit).
Proof.
  intros Hn Hg Htop. unfold Float64.of_Z.
  rewrite Z.abs_eq by lia.
  destruct (Z.ltb_spec n 0); [lia|].
  rewrite (round_exact false n 1 (n * Float64.unit)) by (done || lia).
  destruct (Z.ltb_spec (n * Float64.unit) Float64.top); [done|lia].
Qed.

Lemma on_grid_pow2 (j : Z) : 0 <= j -> Float64.on_grid (2 ^ j) = true.
Proof.
  intros Hj. unfold Float64.on_grid. apply andb_true_iff.
  split; [apply Z.leb_le; apply Z.pow_nonneg; lia|]. apply Z.eqb_eq.
  unfold Float64.grid. rewrite Z.log2_pow2 by lia.
  pose proof (pow2_divides (Z.max 0 (j - 52)) j 1 ltac:(lia)) as Hp.
  by rewrite Z.mul_1_l in Hp.
Qed.

Lemma of_Z_pow2 (j : Z) :
  0 <= j < 1024 -> Float64.of_Z (2 ^ j) = Float64.Fin false (Float64.unit * 2 ^ j).
Proof.
  intros Hj. rewrite (Z.mul_comm Float64.unit).
  assert (0 < 2 ^ j) by (apply Z.pow_pos_nonneg; lia).
  apply of_Z_exact; [lia| |].
  - unfold Float64.unit. rewrite <- Z.pow_add_r by lia. apply on_grid_pow2. lia.
  - unfold Float64.unit, Float64.top. rewrite <- Z.pow_add_r by lia.
    apply Z.pow_lt_mono_r; lia.
Qed.

Lemma ltb_zero (neg : bool) (k : Z) :
  0 <= k -> Float64.ltb (Float64.Fin neg k) (Float64.of_Z 0) = neg && (0 <? k).
Proof.
  intros Hk. rewrite of_Z_0. simpl. destruct neg; simpl.
  - destruct (Z.ltb_spec (- k) 0), (Z.ltb_spec 0 k); lia || done.
  - destruct (Z.ltb_spec k 0); [lia|done].
Qed.

Lemma ceiling_spec (a b : Z) : 0 < b -> (a + b - 1) / b = ceiling a b.
Proof.
  intros Hb. unfold ceiling.
  pose proof (Z.div_mod (- a) b ltac:(lia)) as Hdm.
  pose proof (Z.mod_pos_bound (- a) b Hb) as Hr.
  symmetry. apply (Z.div_unique _ _ _ (b - 1 - (- a) mod b)); lia.
Qed.

Lemma ceiling_bounds (a b : Z) : 0 < b -> a <= ceiling a b * b < a + b.
Proof.
  intros Hb. unfold ceiling.
  pose proof (Z.div_mod (- a) b ltac:(lia)) as Hdm.
  pose proof (Z.mod_pos_bound (- a) b Hb) as Hr. lia.
Qed.

Lemma ceiling_mul (n b : Z) : 0 < b -> ceiling (n * b) b = n.
Proof.
  intros Hb. unfold ceiling. rewrite <- Z.mul_opp_l, Z.div_mul by lia. lia.
Qed.

(** [uint64(math.Ceil(x))] for a finite [x] that is not below zero. *)
Lemma trunc_Ceil (k : Z) :
  0 <= k ->
  Float64.trunc (Float64.Ceil (Float64.Fin false k)) = Some (ceiling k Float64.unit).
Proof.
  intros Hk. pose proof unit_pos. simpl.
  rewrite Z.div_mul by lia. by rewrite ceiling_spec.
Qed.

End FloatFacts.

(** ** Facts about decimal floating-point literals *)

Section DecimalFacts.

Lemma digit_inv (c : ascii) (d : Z) : GoStrconv.digit c = Some d -> c = GoStrconv.digitChar d.
Proof.
  unfold GoStrconv.digit, GoStrconv.digitChar. case_match eqn:H; [|done]. intros [= <-].
  apply andb_true_iff in H as [?%Z.leb_le ?%Z.leb_le].
  replace (48 + (Z.of_N (N_of_ascii c) - 48)) with (Z.of_N (N_of_ascii c)) by lia.
  rewrite N2Z.id. by rewrite ascii_N_embedding.
Qed.

Lemma digit_neq (c x : ascii) :
  GoStrconv.digit x = None -> GoStrconv.digit c <> None -> Ascii.eqb c x = false.
Proof. intros Hx Hc. apply Ascii.eqb_neq. congruence. Qed.

Lemma special_digit (c : ascii) (s : string) :
  GoStrconv.digit c <> None -> GoStrconv.special (String c s) = None.
Proof.
  intros Hc. destruct (GoStrconv.digit c) as [d|] eqn:Hd; [|done].
  pose proof (digit_range _ _ Hd) as Hr. apply digit_inv in Hd as ->.
  assert (d = 0 \/ d = 1 \/ d = 2 \/ d = 3 \/ d = 4 \/ d = 5 \/ d = 6 \/ d = 7 \/ d = 8 \/ d = 9)
    as Hcases by lia.
  repeat (destruct Hcases as [->|Hcases]; [reflexivity|]). by subst.
Qed.

Lemma readMantissa_digits (s : string) (mant : Z) (sawdigits : bool) :
  all_digits s = true ->
  GoStrconv.readMantissa s mant 0 false sawdigits =
    Some (dec_value mant s, 0, sawdigits || negb (String.eqb s ""), "").
Proof.
  revert mant sawdigits. induction s as [|c s IH]; intros mant sd; simpl.
  - intros _. by rewrite orb_false_r.
  - intros [Hc%bool_decide_eq_true Hs]%andb_true_iff.
    rewrite (digit_neq c "." eq_refl Hc).
    destruct (GoStrconv.digit c) as [d|] eqn:Hd; [|done]. simpl.
    rewrite IH by done. by rewrite orb_true_r.
Qed.

Lemma readMantissa_nonneg (s : string) (mant nfrac : Z) (sawdot sawdigits : bool) r :
  0 <= mant -> GoStrconv.readMantissa s mant nfrac sawdot sawdigits = Some r -> 0 <= r.1.1.1.
Proof.
  revert mant nfrac sawdot sawdigits.
  induction s as [|c s IH]; intros mant nfrac sawdot sd Hm; simpl.
  - by intros [= <-].
  - destruct (Ascii.eqb c ".").
    + destruct sawdot; [done|]. by apply IH.
    + destruct (GoStrconv.digit c) as [d|] eqn:Hd; [|by intros [= <-]].
      apply IH. apply digit_range in Hd. lia.
Qed.

Lemma readFloat_nonneg (s : string) (neg : bool) (mant exp : Z) :
  GoStrconv.readFloat s = Some (neg, mant, exp) -> 0 <= mant.
Proof.
  unfold GoStrconv.readFloat. destruct s as [|c s]; [done|].
  destruct (if Ascii.eqb c "+" then _ else _) as [neg' s1].
  destruct (GoStrconv.readMantissa s1 0 0 false false) as [[[[m nf] sd] s2]|] eqn:Hm; [|done].
  apply readMantissa_nonneg in Hm; [|lia]. simpl in Hm.
  destruct sd; [|done]. destruct (GoStrconv.readExponent s2) as [[e [|]]|]; try done.
  by intros [= _ <- _].
Qed.

Lemma readFloat_digits (s : string) :
  s <> "" -> all_digits s = true -> GoStrconv.readFloat s = Some (false, dec_value 0 s, 0).
Proof.
  intros Hne Hs. destruct s as [|c s]; [done|].
  pose proof Hs as Hs'. simpl in Hs'.
  apply andb_true_iff in Hs' as [Hc%bool_decide_eq_true _].
  unfold GoStrconv.readFloat.
  rewrite (digit_neq c "+" eq_refl Hc), (digit_neq c "-" eq_refl Hc).
  rewrite readMantissa_digits by done. done.
Qed.

(** A decimal literal is parsed to a binary64 value. *)
Lemma ParseDecimal_valid (s : string) (f : Float64.t) :
  GoStrconv.ParseDecimal s = Some f -> Float64.valid f = true.
Proof.
  unfold GoStrconv.ParseDecimal. destruct (GoStrconv.special s) as [f'|] eqn:Hsp.
  - intros [= <-]. unfold GoStrconv.special in Hsp.
    repeat case_match; by simplify_eq.
  - destruct (GoStrconv.readFloat s) as [[[neg mant] exp]|] eqn:Hrf; [|done].
    apply readFloat_nonneg in Hrf.
    assert (0 < 10 ^ Z.max 0 exp) by (apply Z.pow_pos_nonneg; lia).
    assert (0 < 10 ^ Z.max 0 (- exp)) by (apply Z.pow_pos_nonneg; lia).
    pose proof (round_valid neg (mant * 10 ^ Z.max 0 exp) (10 ^ Z.max 0 (- exp))
                  ltac:(nia) ltac:(lia)) as Hv.
    destruct (Float64.round _ _ _); [|done|]; by intros [= <-].
Qed.

(** A string of decimal digits is parsed to the binary64 value nearest
    to the integer it denotes. *)
Lemma ParseDecimal_digits (s : string) :
  s <> "" -> all_digits s = true ->
  GoStrconv.ParseDecimal s =
    match Float64.round false (dec_value 0 s) 1 with
    | Float64.Inf _ => None
    | f => Some f
    end.
Proof.
  intros Hne Hs. unfold GoStrconv.ParseDecimal.
  rewrite readFloat_digits by done.
  destruct s as [|c s]; [done|]. rewrite special_digit.
  - change (Z.max 0 0) with 0. change (Z.max 0 (- 0)) with 0.
    change (10 ^ 0) with 1. by rewrite Z.mul_1_r.
  - simpl in Hs. by apply andb_true_iff in Hs as [Hc%bool_decide_eq_true _].
Qed.

Lemma uint64_below_top (n : Z) :
  0 <= n <= GoStrconv.maxUint64 -> n * Float64.unit < Float64.top.
Proof.
  intros Hn. rewrite top_unit. pose proof unit_pos.
  unfold GoStrconv.maxUint64 in Hn.
  assert (2 ^ 64 < 2 ^ 1024) by (apply Z.pow_lt_mono_r; lia). nia.
Qed.

Lemma ParseDecimal_FormatUint (n : Z) :
  0 <= n <= GoStrconv.maxUint64 -> Float64.on_grid (n * Float64.unit) = true ->
  GoStrconv.ParseDecimal (GoStrconv.FormatUint n) = Some (Float64.Fin false (n * Float64.unit)).
Proof.
  intros Hn Hg. destruct (FormatUint_spec n Hn) as (Hne & Hd & Hv).
  rewrite ParseDecimal_digits, Hv by done.
  rewrite (round_exact false n 1 (n * Float64.unit)) by (done || lia).
  pose proof (uint64_below_top n Hn).
  destruct (Z.ltb_spec (n * Float64.unit) Float64.top); [done|lia].
Qed.

End DecimalFacts.

(** ** Facts about the codec *)

Section CodecFacts.
Context {imports : Imports}.

Lemma with_None_id (hc : HardwareCharacteristics) :
  (Arch hc = None -> with_Arch hc None = hc) /\
  (Mem hc = None -> with_Mem hc None = hc) /\
  (RootDisk hc = None -> with_RootDisk hc None = hc) /\
  (CpuCores hc = None -> with_CpuCores hc None = hc) /\
  (CpuPower hc = None -> with_CpuPower hc None = hc) /\
  (Tags hc = None -> with_Tags hc None = hc) /\
  (AvailabilityZone hc = None -> with_AvailabilityZone hc None = hc).
Proof. destruct hc; simpl. repeat split; by intros ->. Qed.

(** *** [setRaw] *)

Lemma setRaw_no_eq (hc : HardwareCharacteristics) (raw : string) :
  has_byte "=" raw = false -> setRaw hc raw = (hc, Some (malformed_characteristic raw)).
Proof.
  intros H. unfold setRaw, GoStrings.Index. by rewrite index_from_no_byte.
Qed.

Lemma setRaw_empty_key (hc : HardwareCharacteristics) (v : string) :
  setRaw hc ("=" +:+ v) = (hc, Some (malformed_characteristic ("=" +:+ v))).
Proof.
  change ("=" +:+ v) with (String "=" v). unfold setRaw, GoStrings.Index.
  unfold GoStrings.index_from. by rewrite prefix_eq_cons.
Qed.

Lemma setRaw_cut (hc : HardwareCharacteristics) (k v : string) :
  k <> "" -> has_byte "=" k = false ->
  setRaw hc (k +:+ "=" +:+ v) =
    match setter k with
    | Some set => characteristic k (set hc v)
    | None => (hc, Some (unknown_characteristic k))
    end.
Proof.
  intros Hne Hk. unfold setRaw. rewrite Index_cut by done.
  destruct (Z.leb_spec (GoStrings.len k) 0) as [Hle|_].
  { destruct k; [done|]. unfold GoStrings.len in Hle. simpl in Hle. lia. }
  rewrite slice_to_cut, slice_from_cut. unfold setter, characteristic.
  repeat (destruct (String.eqb k _); [reflexivity|]). reflexivity.
Qed.

Ltac destruct_keys k :=
  destruct (String.eqb_spec k "arch") as [->|?];
  [|destruct (String.eqb_spec k "cores") as [->|?];
    [|destruct (String.eqb_spec k "cpu-power") as [->|?];
      [|destruct (String.eqb_spec k "mem") as [->|?];
        [|destruct (String.eqb_spec k "root-disk") as [->|?];
          [|destruct (String.eqb_spec k "tags") as [->|?];
            [|destruct (String.eqb_spec k "availability-zone") as [->|?]]]]]]].

Lemma setter_keys (k : string) : k ∈ keys <-> setter k <> None.
Proof.
  unfold keys, setter. rewrite !elem_of_cons, elem_of_nil. split.
  - intros H. repeat (destruct H as [->|H]; [by simpl|]). done.
  - destruct_keys k; tauto || congruence.
Qed.

Lemma keys_no_eq (k : string) : k ∈ keys -> k <> "" /\ has_byte "=" k = false.
Proof.
  unfold keys. rewrite !elem_of_cons, elem_of_nil.
  intros H. repeat (destruct H as [->|H]; [done|]). done.
Qed.

(** *** The loops *)

Lemma setRaws_cons (hc : HardwareCharacteristics) (raw : string) (raws : list string) :
  raw <> "" ->
  setRaws hc (raw :: raws) =
    match setRaw hc raw with
    | (hc', Some err) => (hc', Some err)
    | (hc', None) => setRaws hc' raws
    end.
Proof. intros Hne%String.eqb_neq. simpl. by rewrite Hne. Qed.

Lemma setRaws_app (hc : HardwareCharacteristics) (l1 l2 : list string) :
  setRaws hc (l1 ++ l2) =
    match setRaws hc l1 with
    | (hc', Some err) => (hc', Some err)
    | (hc', None) => setRaws hc' l2
    end.
Proof.
  revert hc. induction l1 as [|raw l1 IH]; intros hc; simpl; [done|].
  destruct (String.eqb raw ""); [done|].
  destruct (setRaw hc raw) as [hc' [err|]]; done.
Qed.

Lemma setRaws_filter (hc : HardwareCharacteristics) (l : list string) :
  setRaws hc (filter (fun raw => raw <> "") l) = setRaws hc l.
Proof.
  revert hc. induction l as [|raw l IH]; intros hc; [done|].
  rewrite filter_cons. destruct (decide (raw <> "")) as [Hne|Heq].
  - rewrite !setRaws_cons by done. destruct (setRaw hc raw) as [hc' [err|]]; done.
  - assert (raw = "") as -> by (by destruct (decide (raw = ""))). simpl. apply IH.
Qed.

Lemma parseArgs_pieces (hc : HardwareCharacteristics) (args : list string) :
  parseArgs hc args = setRaws hc (concat (pieces <$> args)).
Proof.
  revert hc. induction args as [|arg args IH]; intros hc; simpl; [done|].
  rewrite setRaws_app. fold (pieces arg).
  destruct (setRaws hc (pieces arg)) as [hc' [err|]]; done.
Qed.

Lemma parseArgs_tokens (hc : HardwareCharacteristics) (args : list string) :
  parseArgs hc args = setRaws hc (tokens args).
Proof. unfold tokens. by rewrite setRaws_filter, parseArgs_pieces. Qed.

Lemma ParseHardware_tokens (args : list string) :
  ParseHardware args =
    match setRaws zeroHC (tokens args) with
    | (_, Some err) => (zeroHC, Some err)
    | (hc, None) => (hc, None)
    end.
Proof. unfold ParseHardware. by rewrite parseArgs_tokens. Qed.

Lemma tokens_not_empty (args : list string) : Forall (fun raw => raw <> "") (tokens args).
Proof. unfold tokens. apply Forall_forall. by intros raw [? _]%list_elem_of_filter. Qed.

Lemma tokens_no_space (args : list string) :
  Forall (fun raw => has_byte " " raw = false) (tokens args).
Proof.
  unfold tokens. apply Forall_forall. intros raw [_ Hin]%list_elem_of_filter.
  apply list_elem_of_In, in_concat in Hin as (l & Hl & Hraw).
  apply list_elem_of_In, list_elem_of_fmap in Hl as (arg & -> & _).
  apply list_elem_of_In in Hraw.
  pose proof (Split_pieces (GoStrings.TrimSpace arg) " ") as Hall.
  rewrite Forall_forall in Hall. by apply Hall.
Qed.

Lemma tokens_app (a b : list string) : tokens (a ++ b) = tokens a ++ tokens b.
Proof. unfold tokens. by rewrite fmap_app, concat_app, filter_app. Qed.

Lemma is_token_spec (t : string) :
  is_token t = true <->
  t <> "" /\ has_byte " " t = false /\ GoStrings.trimLeft t = t /\ GoStrings.trimRight t = t.
Proof.
  unfold is_token. rewrite !andb_true_iff, !negb_true_iff, !String.eqb_eq, String.eqb_neq.
  tauto.
Qed.

Lemma tokens_token (t : string) : is_token t = true -> tokens [t] = [t].
Proof.
  intros (Hne & Hsp & Hl & Hr)%is_token_spec.
  unfold tokens, pieces, GoStrings.TrimSpace. simpl. rewrite Hl, Hr, List.app_nil_r.
  rewrite Split_no_sep by done. rewrite filter_cons. by destruct (decide (t <> "")).
Qed.

Lemma tokens_of_tokens (toks : list string) :
  Forall (fun t => is_token t = true) toks -> tokens toks = toks.
Proof.
  induction 1 as [|t toks Ht _ IH]; [done|].
  change (t :: toks) with ([t] ++ toks). by rewrite tokens_app, tokens_token, IH.
Qed.

(** The first token whose setter fails decides the result. *)
Lemma setRaws_first_failure (hc hc1 hc2 : HardwareCharacteristics)
    (pre post : list string) (raw : string) (e : error) :
  raw <> "" ->
  setRaws hc pre = (hc1, None) -> setRaw hc1 raw = (hc2, Some e) ->
  setRaws hc (pre ++ raw :: post) = (hc2, Some e).
Proof.
  intros Hne Hpre Hraw. rewrite setRaws_app, Hpre, setRaws_cons by done. by rewrite Hraw.
Qed.

Lemma setRaws_failure_inv (hc hc2 : HardwareCharacteristics) (l : list string) (e : error) :
  setRaws hc l = (hc2, Some e) ->
  exists pre raw post hc1,
    l = pre ++ raw :: post /\ raw <> "" /\
    setRaws hc pre = (hc1, None) /\ setRaw hc1 raw = (hc2, Some e).
Proof.
  revert hc. induction l as [|raw l IH]; intros hc; simpl; [done|].
  destruct (String.eqb_spec raw "") as [->|Hne].
  - intros (pre & raw & post & hc1 & -> & ? & ? & ?)%IH.
    exists ("" :: pre), raw, post, hc1. by repeat split.
  - destruct (setRaw hc raw) as [hc' [err|]] eqn:Hraw.
    + intros [= <- <-]. by exists [], raw, l, hc.
    + intros (pre & raw' & post & hc1 & -> & ? & ? & ?)%IH.
      exists (raw :: pre), raw', post, hc1. repeat split; try done.
      rewrite setRaws_cons by done. by rewrite Hraw.
Qed.

End CodecFacts.

(** ** The setters: what a successful call assigns and what it keeps *)

Section SetterFacts.
Context {imports : Imports}.

Ltac destruct_keys k :=
  destruct (String.eqb_spec k "arch") as [->|?];
  [|destruct (String.eqb_spec k "cores") as [->|?];
    [|destruct (String.eqb_spec k "cpu-power") as [->|?];
      [|destruct (String.eqb_spec k "mem") as [->|?];
        [|destruct (String.eqb_spec k "root-disk") as [->|?];
          [|destruct (String.eqb_spec k "tags") as [->|?];
            [|destruct (String.eqb_spec k "availability-zone") as [->|?]]]]]]].

Ltac setter_cases k Hset :=
  unfold setter in Hset; destruct_keys k; simpl in Hset; simplify_eq;
  unfold setArch, setCpuCores, setCpuPower, setMem, setRootDisk, setTags,
    setAvailabilityZone in *.

Local Arguments parseSize : simpl never.
Local Arguments parseUint64 : simpl never.
Local Arguments parseTags : simpl never.

Lemma parseUint64_shape (str : string) :
  (exists n, parseUint64 str = (Some n, None)) \/ (exists e, parseUint64 str = (None, Some e)).
Proof. unfold parseUint64. repeat case_match; eauto. Qed.

Lemma parseSize_shape (str : string) :
  (exists n, parseSize str = (Some n, None)) \/ (exists e, parseSize str = (None, Some e)).
Proof. unfold parseSize. repeat case_match; eauto. Qed.

Lemma parseTags_shape (str : string) : exists l, parseTags str = Some l.
Proof. unfold parseTags. case_match; eauto. Qed.

Ltac shapes v :=
  try (destruct (parseUint64_shape v) as [[? Hshape]|[? Hshape]]; rewrite Hshape in * );
  try (destruct (parseSize_shape v) as [[? Hshape]|[? Hshape]]; rewrite Hshape in * );
  try (destruct (parseTags_shape v) as [? Hshape]; rewrite Hshape in * ).

Lemma keeps_refl (hc : HardwareCharacteristics) : keeps hc hc.
Proof. by repeat split. Qed.

Lemma keeps_trans (a b c : HardwareCharacteristics) : keeps a b -> keeps b c -> keeps a c.
Proof. unfold keeps. intros (?&?&?&?&?&?&?) (?&?&?&?&?&?&?). repeat split; eauto. Qed.

Lemma keeps_is_set (hc hc' : HardwareCharacteristics) (k : string) :
  keeps hc hc' -> is_set k hc = true -> is_set k hc' = true.
Proof.
  intros (Ha & Hm & Hr & Hc & Hp & Ht & Hz). unfold is_set.
  repeat case_match; try done; intros Hs%bool_decide_eq_true; apply bool_decide_eq_true.
  - destruct (Arch hc) eqn:E; [|done]. by rewrite (Ha _ eq_refl).
  - destruct (CpuCores hc) eqn:E; [|done]. by rewrite (Hc _ eq_refl).
  - destruct (CpuPower hc) eqn:E; [|done]. by rewrite (Hp _ eq_refl).
  - destruct (Mem hc) eqn:E; [|done]. by rewrite (Hm _ eq_refl).
  - destruct (RootDisk hc) eqn:E; [|done]. by rewrite (Hr _ eq_refl).
  - destruct (Tags hc) eqn:E; [|done]. by rewrite (Ht _ eq_refl).
  - destruct (AvailabilityZone hc) eqn:E; [|done]. by rewrite (Hz _ eq_refl).
Qed.

Lemma setter_keeps (k v : string) set (hc hc' : HardwareCharacteristics) :
  setter k = Some set -> set hc v = (hc', None) -> keeps hc hc'.
Proof.
  intros Hset Hrun. setter_cases k Hset; destruct hc as [a m r c p t z]; simpl in *.
  all: shapes v.
  all: repeat case_match; simplify_eq.
  all: match goal with H : bool_decide _ = false |- _ => apply bool_decide_eq_false in H end.
  all: unfold keeps; simpl; repeat split; try done; intros y ->.
  all: match goal with H : ~ _ |- _ => by destruct H end.
Qed.

Lemma setter_sets (k v : string) set (hc hc' : HardwareCharacteristics) :
  setter k = Some set -> set hc v = (hc', None) ->
  k <> "availability-zone" \/ v <> "" ->
  is_set k hc' = true.
Proof.
  intros Hset Hrun Hv. setter_cases k Hset; destruct hc as [a m r c p t z]; simpl in *.
  all: shapes v.
  all: repeat case_match; simplify_eq; try done.
  destruct Hv as [?|Hv]; [done|]. apply String.eqb_neq in Hv.
  match goal with H : negb _ = false |- _ => apply negb_false_iff in H end. congruence.
Qed.

Lemma setter_already_set (k v : string) set (hc : HardwareCharacteristics) :
  setter k = Some set -> is_set k hc = true -> set hc v = (hc, Some already_set).
Proof.
  intros Hset Hk. setter_cases k Hset; unfold is_set in Hk; simpl in Hk; by rewrite Hk.
Qed.

(** A failing setter leaves the record as it was. *)
Lemma setter_failure (k v : string) set (hc hc' : HardwareCharacteristics) (e : cause) :
  setter k = Some set -> set hc v = (hc', Some e) -> hc' = hc.
Proof.
  intros Hset Hrun. setter_cases k Hset; destruct hc as [a m r c p t z]; simpl in *.
  all: shapes v.
  all: repeat case_match; simplify_eq; try done.
  all: match goal with H : bool_decide _ = false |- _ => apply bool_decide_eq_false in H end.
  all: unfold with_CpuCores, with_CpuPower, with_Mem, with_RootDisk; simpl; f_equal.
  all: match goal with H : ~ ?x <> None |- None = ?x => destruct x; [by destruct H|done] end.
Qed.

Lemma setRaw_success (hc hc' : HardwareCharacteristics) (raw : string) :
  setRaw hc raw = (hc', None) ->
  exists k v set, raw = k +:+ "=" +:+ v /\ k ∈ keys /\
                  setter k = Some set /\ set hc v = (hc', None).
Proof.
  intros Hraw. destruct (cut_cases raw) as [Hno|(k & v & -> & Hk)].
  { by rewrite setRaw_no_eq in Hraw. }
  destruct (decide (k = "")) as [->|Hne].
  { change ("" +:+ "=" +:+ v) with ("=" +:+ v) in Hraw. by rewrite setRaw_empty_key in Hraw. }
  rewrite setRaw_cut in Hraw by done.
  destruct (setter k) as [set|] eqn:Hset; [|done].
  exists k, v, set. repeat split; try done.
  - apply setter_keys. congruence.
  - unfold characteristic in Hraw. destruct (set hc v) as [? [?|]]; by simplify_eq.
Qed.

Lemma setRaw_keeps (hc hc' : HardwareCharacteristics) (raw : string) :
  setRaw hc raw = (hc', None) -> keeps hc hc'.
Proof. intros (k & v & set & _ & _ & Hset & Hrun)%setRaw_success. by eapply setter_keeps. Qed.

Lemma setRaw_failure (hc hc' : HardwareCharacteristics) (raw : string) (e : error) :
  setRaw hc raw = (hc', Some e) -> hc' = hc.
Proof.
  intros Hraw. destruct (cut_cases raw) as [Hno|(k & v & -> & Hk)].
  { rewrite setRaw_no_eq in Hraw by done. by simplify_eq. }
  destruct (decide (k = "")) as [->|Hne].
  { change ("" +:+ "=" +:+ v) with ("=" +:+ v) in Hraw.
    rewrite setRaw_empty_key in Hraw. by simplify_eq. }
  rewrite setRaw_cut in Hraw by done.
  destruct (setter k) as [set|] eqn:Hset; [|by simplify_eq].
  unfold characteristic in Hraw. destruct (set hc v) as [hc2 [err|]] eqn:Hrun; simplify_eq.
  by eapply setter_failure.
Qed.

Lemma setRaws_keeps (hc hc' : HardwareCharacteristics) (raws : list string) :
  setRaws hc raws = (hc', None) -> keeps hc hc'.
Proof.
  revert hc. induction raws as [|raw raws IH]; intros hc; simpl.
  - intros [= ->]. apply keeps_refl.
  - destruct (String.eqb raw ""); [apply IH|].
    destruct (setRaw hc raw) as [hc1 [err|]] eqn:Hraw; [done|].
    intros Hrest. eapply keeps_trans; [by eapply setRaw_keeps|by apply IH].
Qed.

(** A token of a key whose field is assigned fails with "already set". *)
Lemma setRaw_already_set (hc : HardwareCharacteristics) (k v : string) :
  k ∈ keys -> is_set k hc = true ->
  setRaw hc (k +:+ "=" +:+ v) = (hc, Some (bad_characteristic k already_set)).
Proof.
  intros Hk Hs. destruct (keys_no_eq k Hk) as [Hne Hno].
  rewrite setRaw_cut by done. apply setter_keys in Hk.
  destruct (setter k) as [set|] eqn:Hset; [|done].
  by rewrite (setter_already_set k v set hc Hset Hs).
Qed.

(** A successful token of a key assigns its field, unless it is an
    availability zone with an empty value. *)
Lemma setRaw_sets (hc hc' : HardwareCharacteristics) (k v : string) :
  k ∈ keys -> k <> "availability-zone" \/ v <> "" ->
  setRaw hc (k +:+ "=" +:+ v) = (hc', None) -> is_set k hc' = true.
Proof.
  intros Hk Hv Hraw. destruct (keys_no_eq k Hk) as [Hne Hno].
  rewrite setRaw_cut in Hraw by done.
  destruct (setter k) as [set|] eqn:Hset; [|done].
  unfold characteristic in Hraw. destruct (set hc v) as [hc2 [err|]] eqn:Hrun; simplify_eq.
  by eapply setter_sets.
Qed.

End SetterFacts.

(** ** Errors: first failure, malformed and unknown tokens, second
       assignments *)

Section Failures.
Context {imports : Imports}.

Lemma setRaws_app_success (hc hc' : HardwareCharacteristics) (a b : list string) :
  setRaws hc (a ++ b) = (hc', None) ->
  exists hc1, setRaws hc a = (hc1, None) /\ setRaws hc1 b = (hc', None).
Proof.
  rewrite setRaws_app. destruct (setRaws hc a) as [hc1 [err|]]; [done|]. by exists hc1.
Qed.

Lemma ParseHardware_failure (args pre post : list string) (raw : string)
    (hc1 hc2 : HardwareCharacteristics) (e : error) :
  tokens args = pre ++ raw :: post ->
  setRaws zeroHC pre = (hc1, None) -> setRaw hc1 raw = (hc2, Some e) ->
  ParseHardware args = (zeroHC, Some e).
Proof.
  intros Htok Hpre Hraw. rewrite ParseHardware_tokens, Htok.
  assert (raw <> "") as Hne.
  { pose proof (tokens_not_empty args) as Hall. rewrite Htok in Hall.
    apply Forall_app in Hall as [_ Hall]. by inversion Hall. }
  by rewrite (setRaws_first_failure _ _ _ _ _ _ _ Hne Hpre Hraw).
Qed.

Lemma ParseHardware_success (args : list string) (hc : HardwareCharacteristics) :
  setRaws zeroHC (tokens args) = (hc, None) -> ParseHardware args = (hc, None).
Proof. intros H. by rewrite ParseHardware_tokens, H. Qed.

(** C8: a parse call fails exactly when one of its tokens fails after
    all tokens before it were processed without error; the call then
    returns the error of that token, whatever follows it, together
    with the zero record, which carries no field of an earlier token. *)
Theorem first_failure_aborts (args : list string) (hc : HardwareCharacteristics) (e : error) :
  ParseHardware args = (hc, Some e) <->
  hc = zeroHC /\
  exists pre raw post hc1,
    tokens args = pre ++ raw :: post /\
    setRaws zeroHC pre = (hc1, None) /\ setRaw hc1 raw = (hc1, Some e).
Proof.
  split.
  - rewrite ParseHardware_tokens.
    destruct (setRaws zeroHC (tokens args)) as [hc' [err|]] eqn:Hrun; [|done].
    intros [= <- ->]. split; [done|].
    apply setRaws_failure_inv in Hrun as (pre & raw & post & hc1 & Htok & _ & Hpre & Hraw).
    exists pre, raw, post, hc1. repeat split; try done.
    by rewrite <- (setRaw_failure _ _ _ _ Hraw) at 2.
  - intros (-> & pre & raw & post & hc1 & Htok & Hpre & Hraw).
    by eapply ParseHardware_failure.
Qed.

(** C7: a token reached by the parser is cut at its first [=].  With no
    [=], or with nothing before it, the call fails with the malformed
    token; with a key outside the seven recognized ones it fails with
    the unknown key; with a recognized key the value, later [=]
    included, goes to the setter of the key. *)
Theorem malformed_and_unknown_tokens (args pre post : list string) (raw : string)
    (hc : HardwareCharacteristics) :
  tokens args = pre ++ raw :: post ->
  setRaws zeroHC pre = (hc, None) ->
  ((has_byte "=" raw = false \/ exists v, raw = "=" +:+ v) ->
     setRaw hc raw = (hc, Some (malformed_characteristic raw)) /\
     ParseHardware args = (zeroHC, Some (malformed_characteristic raw)) /\
     kind (malformed_characteristic raw) = MalformedToken) /\
  (forall k v, raw = k +:+ "=" +:+ v -> k <> "" -> has_byte "=" k = false ->
     (k ∉ keys ->
        setRaw hc raw = (hc, Some (unknown_characteristic k)) /\
        ParseHardware args = (zeroHC, Some (unknown_characteristic k)) /\
        kind (unknown_characteristic k) = UnknownCharacteristic) /\
     (k ∈ keys ->
        exists set, setter k = Some set /\ setRaw hc raw = characteristic k (set hc v))).
Proof.
  intros Htok Hpre. split.
  - intros Hbad.
    assert (setRaw hc raw = (hc, Some (malformed_characteristic raw))) as Hraw.
    { destruct Hbad as [Hno|[v ->]]; [by apply setRaw_no_eq|apply setRaw_empty_key]. }
    split; [done|]. split; [|done]. by eapply ParseHardware_failure.
  - intros k v -> Hne Hk. rewrite setRaw_cut by done. split.
    + intros Hnot.
      assert (setter k = None) as Hset.
      { destruct (setter k) eqn:E; [|done]. destruct Hnot. apply setter_keys. congruence. }
      rewrite Hset. split; [done|]. split; [|done].
      eapply ParseHardware_failure; [done..|]. by rewrite setRaw_cut, Hset.
    + intros Hin%setter_keys. destruct (setter k) as [set|]; [|done]. by exists set.
Qed.

(** C9: a [mem] or [root-disk] token with an empty value succeeds and
    assigns the value 0 to the field. *)
Theorem empty_size_is_zero :
  ParseHardware ["mem="] = (with_Mem zeroHC (Some 0), None) /\
  ParseHardware ["root-disk="] = (with_RootDisk zeroHC (Some 0), None) /\
  forall hc,
    (Mem hc = None -> setRaw hc "mem=" = (with_Mem hc (Some 0), None)) /\
    (RootDisk hc = None -> setRaw hc "root-disk=" = (with_RootDisk hc (Some 0), None)).
Proof.
  split; [reflexivity|]. split; [reflexivity|]. intros hc. split; intros Hnone.
  - change "mem=" with ("mem" +:+ "=" +:+ ""). rewrite setRaw_cut by done.
    simpl. unfold setMem. by rewrite Hnone.
  - change "root-disk=" with ("root-disk" +:+ "=" +:+ ""). rewrite setRaw_cut by done.
    simpl. unfold setRootDisk. by rewrite Hnone.
Qed.

Lemma setRaw_zone_empty (hc : HardwareCharacteristics) :
  AvailabilityZone hc = None -> setRaw hc "availability-zone=" = (hc, None).
Proof.
  intros Hnone. change "availability-zone=" with ("availability-zone" +:+ "=" +:+ "").
  rewrite setRaw_cut by done. simpl. unfold setAvailabilityZone. by rewrite Hnone.
Qed.

Lemma setRaw_zone (hc : HardwareCharacteristics) (z : string) :
  AvailabilityZone hc = None -> z <> "" ->
  setRaw hc ("availability-zone=" +:+ z) = (with_AvailabilityZone hc (Some z), None).
Proof.
  intros Hnone Hz%String.eqb_neq.
  change ("availability-zone=" +:+ z) with ("availability-zone" +:+ "=" +:+ z).
  rewrite setRaw_cut by done. simpl. unfold setAvailabilityZone. by rewrite Hnone, Hz.
Qed.

(** C10: an availability-zone token with an empty value leaves the
    record as it is, so that a later token with a value assigns the
    zone; once the zone is assigned, any further availability-zone
    token fails with "already set". *)
Theorem empty_zone_not_assigned :
  (forall hc, AvailabilityZone hc = None ->
     setRaw hc "availability-zone=" = (hc, None)) /\
  (forall hc z, AvailabilityZone hc = None -> z <> "" ->
     setRaw hc ("availability-zone=" +:+ z) = (with_AvailabilityZone hc (Some z), None)) /\
  (forall hc v, AvailabilityZone hc <> None ->
     setRaw hc ("availability-zone=" +:+ v) =
       (hc, Some (bad_characteristic "availability-zone" already_set))) /\
  (forall args pre mid post z hc1 hc2,
     z <> "" ->
     tokens args = pre ++ "availability-zone=" :: mid ++ ("availability-zone=" +:+ z) :: post ->
     setRaws zeroHC (pre ++ mid) = (hc1, None) -> AvailabilityZone hc1 = None ->
     setRaws (with_AvailabilityZone hc1 (Some z)) post = (hc2, None) ->
     ParseHardware args = (hc2, None) /\ AvailabilityZone hc2 = Some z) /\
  (forall args pre mid post z v hc1,
     z <> "" ->
     tokens args = pre ++ ("availability-zone=" +:+ z) :: mid ++ ("availability-zone=" +:+ v) :: post ->
     setRaws zeroHC (pre ++ ("availability-zone=" +:+ z) :: mid) = (hc1, None) ->
     ParseHardware args = (zeroHC, Some (bad_characteristic "availability-zone" already_set))).
Proof.
  split; [exact setRaw_zone_empty|]. split; [exact setRaw_zone|]. split; [|split].
  - intros hc v Hset.
    change ("availability-zone=" +:+ v) with ("availability-zone" +:+ "=" +:+ v).
    apply setRaw_already_set; [by compute; repeat constructor|].
    unfold is_set. simpl. by apply bool_decide_eq_true.
  - intros args pre mid post z hc1 hc2 Hz Htok Hrun Hnone Hpost.
    apply setRaws_app_success in Hrun as (hcp & Hpre & Hmid).
    assert (AvailabilityZone hcp = None) as Hnonep.
    { destruct (AvailabilityZone hcp) as [x|] eqn:E; [|done].
      apply setRaws_keeps in Hmid as (_&_&_&_&_&_&Hk). rewrite (Hk x E) in Hnone. done. }
    split.
    + apply ParseHardware_success. rewrite Htok.
      rewrite setRaws_app, Hpre, setRaws_cons, (setRaw_zone_empty hcp Hnonep) by done.
      rewrite setRaws_app, Hmid, setRaws_cons by (by destruct z).
      by rewrite (setRaw_zone hc1 z Hnone Hz).
    + apply setRaws_keeps in Hpost as (_&_&_&_&_&_&Hk). by apply Hk.
  - intros args pre mid post z v hc1 Hz Htok Hrun.
    eapply (ParseHardware_failure args (pre ++ ("availability-zone=" +:+ z) :: mid) post _ hc1 hc1).
    + rewrite Htok. by rewrite <- List.app_assoc.
    + exact Hrun.
    + change ("availability-zone=" +:+ v) with ("availability-zone" +:+ "=" +:+ v).
      apply setRaw_already_set; [by compute; repeat constructor|].
      apply setRaws_app_success in Hrun as (hcp & Hpre & Hrest).
      rewrite setRaws_cons in Hrest by (by destruct z).
      destruct (setRaw hcp ("availability-zone=" +:+ z)) as [hcz [err|]] eqn:Hz1; [done|].
      eapply keeps_is_set; [by eapply setRaws_keeps|].
      change ("availability-zone=" +:+ z) with ("availability-zone" +:+ "=" +:+ z) in Hz1.
      eapply setRaw_sets; [|by right|exact Hz1]. by compute; repeat constructor.
Qed.

(** C3, amended: when a recognized key appears in two tokens of one
    call, within one argument or across several, the call fails: with
    "already set" for that key at the second of the two tokens when
    every token before it was processed without error, and with the
    error of an earlier token otherwise.  The exception is the
    availability zone: a first token with an empty value does not
    assign it. *)
Theorem second_assignment_fails (args pre mid post : list string) (k v1 v2 : string) :
  k ∈ keys ->
  k <> "availability-zone" \/ v1 <> "" ->
  tokens args = pre ++ (k +:+ "=" +:+ v1) :: mid ++ (k +:+ "=" +:+ v2) :: post ->
  exists e,
    ParseHardware args = (zeroHC, Some e) /\
    (forall hc, setRaws zeroHC (pre ++ (k +:+ "=" +:+ v1) :: mid) = (hc, None) ->
                e = bad_characteristic k already_set /\ kind e = AlreadySet).
Proof.
  intros Hk Hv Htok.
  assert (tokens args = (pre ++ (k +:+ "=" +:+ v1) :: mid) ++ (k +:+ "=" +:+ v2) :: post) as Htok'.
  { rewrite Htok. by rewrite <- List.app_assoc. }
  destruct (setRaws zeroHC (pre ++ (k +:+ "=" +:+ v1) :: mid)) as [hc [err|]] eqn:Hrun.
  - exists err. split; [|done].
    rewrite ParseHardware_tokens, Htok', setRaws_app, Hrun. done.
  - exists (bad_characteristic k already_set). split; [|done].
    eapply (ParseHardware_failure args _ post _ hc hc); [exact Htok'|exact Hrun|].
    apply setRaw_already_set; [done|].
    apply setRaws_app_success in Hrun as (hcp & Hpre & Hrest).
    assert (k +:+ "=" +:+ v1 <> "") as Hne.
    { destruct (keys_no_eq k Hk) as [Hkne _]. by destruct k. }
    rewrite setRaws_cons in Hrest by done.
    destruct (setRaw hcp (k +:+ "=" +:+ v1)) as [hc1 [err|]] eqn:H1; [done|].
    eapply keeps_is_set; [by eapply setRaws_keeps|]. by eapply setRaw_sets.
Qed.

End Failures.

(** ** Rendering, and the plain-integer fields *)

Section Rendering.
Context {imports : Imports}.

(** C5: rendering is a total function; its result is the tokens of
    the assigned fields joined by single spaces, in the fixed order,
    with [mem] and [root-disk] written as a decimal numeral followed by
    [M], [cores] and [cpu-power] as a decimal numeral, and tags and
    availability zone left out when empty.  The numeral of a [uint64]
    is a non-empty string of decimal digits that denotes it. *)
Theorem format_fixed_order (hc : HardwareCharacteristics) :
  hcString hc = GoStrings.Join (fieldTokens hc) " " /\
  forall n, 0 <= n <= GoStrconv.maxUint64 ->
    GoStrconv.FormatUint n <> "" /\
    all_digits (GoStrconv.FormatUint n) = true /\
    dec_value 0 (GoStrconv.FormatUint n) = n.
Proof.
  split; [|apply FormatUint_spec].
  destruct hc as [[a|] [m|] [r|] [c|] [p|] [[|t ts]|] [[|zc z]|]]; reflexivity.
Qed.

Lemma ParseHardware_single (t : string) :
  is_token t = true ->
  ParseHardware [t] =
    match setRaw zeroHC t with
    | (_, Some err) => (zeroHC, Some err)
    | (hc, None) => (hc, None)
    end.
Proof.
  intros Ht. rewrite ParseHardware_tokens, tokens_token by done.
  assert (t <> "") as Hne.
  { by apply is_token_spec in Ht as [? _]. }
  rewrite setRaws_cons by done. by destruct (setRaw zeroHC t) as [hc [err|]].
Qed.

Lemma parseUint64_spec (v : string) :
  parseUint64 v =
    match plain_integer v with
    | Some n => (Some n, None)
    | None => (None, Some must_be_non_negative_integer)
    end.
Proof.
  unfold parseUint64, plain_integer. rewrite ParseUint_spec.
  destruct (String.eqb v ""); simpl; [done|].
  by destruct (all_digits v && (dec_value 0 v <=? GoStrconv.maxUint64)).
Qed.

Lemma setRaw_cores (hc : HardwareCharacteristics) (v : string) :
  CpuCores hc = None ->
  setRaw hc ("cores=" +:+ v) =
    match plain_integer v with
    | Some n => (with_CpuCores hc (Some n), None)
    | None => (hc, Some (bad_characteristic "cores" must_be_non_negative_integer))
    end.
Proof.
  intros Hnone. change ("cores=" +:+ v) with ("cores" +:+ "=" +:+ v).
  rewrite setRaw_cut by done. simpl. unfold setCpuCores.
  rewrite Hnone, parseUint64_spec. simpl.
  destruct (plain_integer v); simpl; [done|].
  destruct (with_None_id hc) as (_&_&_&Hid&_). by rewrite Hid.
Qed.

Lemma setRaw_cpu_power (hc : HardwareCharacteristics) (v : string) :
  CpuPower hc = None ->
  setRaw hc ("cpu-power=" +:+ v) =
    match plain_integer v with
    | Some n => (with_CpuPower hc (Some n), None)
    | None => (hc, Some (bad_characteristic "cpu-power" must_be_non_negative_integer))
    end.
Proof.
  intros Hnone. change ("cpu-power=" +:+ v) with ("cpu-power" +:+ "=" +:+ v).
  rewrite setRaw_cut by done. simpl. unfold setCpuPower.
  rewrite Hnone, parseUint64_spec. simpl.
  destruct (plain_integer v); simpl; [done|].
  destruct (with_None_id hc) as (_&_&_&_&Hid&_). by rewrite Hid.
Qed.

(** C6, amended: the value string of a [cores] or [cpu-power] token is
    accepted exactly when it is empty, which yields 0, or a non-empty
    string of decimal digits, without sign or suffix, that denotes a
    number of at most [2^64-1], which yields that number; every other
    string, a numeral of [2^64] or more included, fails with "must be a
    non-negative integer". *)
Theorem plain_integer_values (v : string) :
  (forall hc, CpuCores hc = None ->
     setRaw hc ("cores=" +:+ v) =
       match plain_integer v with
       | Some n => (with_CpuCores hc (Some n), None)
       | None => (hc, Some (bad_characteristic "cores" must_be_non_negative_integer))
       end) /\
  (forall hc, CpuPower hc = None ->
     setRaw hc ("cpu-power=" +:+ v) =
       match plain_integer v with
       | Some n => (with_CpuPower hc (Some n), None)
       | None => (hc, Some (bad_characteristic "cpu-power" must_be_non_negative_integer))
       end) /\
  (is_token ("cores=" +:+ v) = true ->
     ParseHardware ["cores=" +:+ v] =
       match plain_integer v with
       | Some n => (with_CpuCores zeroHC (Some n), None)
       | None => (zeroHC, Some (bad_characteristic "cores" must_be_non_negative_integer))
       end) /\
  (is_token ("cpu-power=" +:+ v) = true ->
     ParseHardware ["cpu-power=" +:+ v] =
       match plain_integer v with
       | Some n => (with_CpuPower zeroHC (Some n), None)
       | None => (zeroHC, Some (bad_characteristic "cpu-power" must_be_non_negative_integer))
       end) /\
  kind (bad_characteristic "cores" must_be_non_negative_integer) = InvalidNumber /\
  kind (bad_characteristic "cpu-power" must_be_non_negative_integer) = InvalidNumber.
Proof.
  split; [intros hc; apply setRaw_cores|]. split; [intros hc; apply setRaw_cpu_power|].
  split; [|split; [|done]].
  - intros Ht. rewrite ParseHardware_single, setRaw_cores by done.
    by destruct (plain_integer v).
  - intros Ht. rewrite ParseHardware_single, setRaw_cpu_power by done.
    by destruct (plain_integer v).
Qed.

End Rendering.

(** ** Sizes with a unit suffix *)

Section Sizes.
Context {imports : Imports}.

Local Arguments Float64.of_Z : simpl never.
Local Arguments Float64.mul : simpl never.
Local Arguments Float64.Ceil : simpl never.
Local Arguments Float64.ltb : simpl never.
Local Arguments parseSize : simpl never.

Lemma mbSuffixes_lookup (s : string) :
  mbSuffixes !! s =
    if decide (s = "M") then Some (Float64.of_Z 1)
    else if decide (s = "G") then Some (Float64.of_Z 1024)
    else if decide (s = "T") then Some (Float64.of_Z (1024 * 1024))
    else if decide (s = "P") then Some (Float64.of_Z (1024 * 1024 * 1024))
    else None.
Proof.
  unfold mbSuffixes. rewrite !lookup_insert, lookup_singleton.
  repeat (case_decide; simplify_eq; try done).
Qed.

Lemma mult_values :
  Float64.of_Z 1 = Float64.Fin false (Float64.unit * 2 ^ 0) /\
  Float64.of_Z 1024 = Float64.Fin false (Float64.unit * 2 ^ 10) /\
  Float64.of_Z (1024 * 1024) = Float64.Fin false (Float64.unit * 2 ^ 20) /\
  Float64.of_Z (1024 * 1024 * 1024) = Float64.Fin false (Float64.unit * 2 ^ 30).
Proof.
  change 1 with (2 ^ 0) at 1. change 1024 with (2 ^ 10) at 1.
  change (1024 * 1024) with (2 ^ 20) at 1. change (1024 * 1024 * 1024) with (2 ^ 30).
  rewrite !of_Z_pow2 by lia. done.
Qed.

Lemma unit_suffix_range (v : string) : 0 <= (unit_suffix v).2 <= 30.
Proof.
  induction v as [|c v IH]; [simpl; lia|].
  destruct v as [|c' v'].
  - simpl. repeat (destruct (Ascii.eqb c _); [simpl; lia|]). simpl; lia.
  - change (unit_suffix (String c (String c' v')))
      with (let '(pre, j) := unit_suffix (String c' v') in (String c pre, j)).
    by destruct (unit_suffix (String c' v')).
Qed.

(** The suffix the code finds by slicing and looking up [mbSuffixes]
    is the one [unit_suffix] describes. *)
Lemma suffix_lookup (v : string) :
  v <> "" ->
  match mbSuffixes !! GoStrings.slice_from v (GoStrings.len v - 1) with
  | Some m => (GoStrings.slice_to v (GoStrings.len v - 1), m)
  | None => (v, Float64.of_Z 1)
  end = ((unit_suffix v).1, Float64.Fin false (Float64.unit * 2 ^ (unit_suffix v).2)).
Proof.
  destruct mult_values as (H1 & H2 & H3 & H4).
  induction v as [|c v IH]; intros Hne; [congruence|clear Hne].
  destruct v as [|c' v'].
  - change (GoStrings.slice_from (String c "") (GoStrings.len (String c "") - 1))
      with (String c "").
    change (GoStrings.slice_to (String c "") (GoStrings.len (String c "") - 1)) with "".
    rewrite mbSuffixes_lookup. cbn [unit_suffix].
    destruct (Ascii.eqb_spec c "M") as [->|?]; [rewrite H1; reflexivity|].
    destruct (Ascii.eqb_spec c "G") as [->|?]; [rewrite H2; reflexivity|].
    destruct (Ascii.eqb_spec c "T") as [->|?]; [rewrite H3; reflexivity|].
    destruct (Ascii.eqb_spec c "P") as [->|?]; [rewrite H4; reflexivity|].
    repeat (case_decide; [congruence|]). rewrite H1. reflexivity.
  - specialize (IH ltac:(discriminate)).
    assert (GoStrings.slice_from (String c (String c' v')) (GoStrings.len (String c (String c' v')) - 1)
            = GoStrings.slice_from (String c' v') (GoStrings.len (String c' v') - 1)) as ->.
    { unfold GoStrings.slice_from, GoStrings.len. simpl String.length.
      replace (Z.to_nat (Z.of_nat (S (S (String.length v'))) - 1))
        with (S (Z.to_nat (Z.of_nat (S (String.length v')) - 1))) by lia. reflexivity. }
    assert (GoStrings.slice_to (String c (String c' v')) (GoStrings.len (String c (String c' v')) - 1)
            = String c (GoStrings.slice_to (String c' v') (GoStrings.len (String c' v') - 1))) as ->.
    { unfold GoStrings.slice_to, GoStrings.len. simpl String.length.
      replace (Z.to_nat (Z.of_nat (S (S (String.length v'))) - 1))
        with (S (Z.to_nat (Z.of_nat (S (String.length v')) - 1))) by lia. reflexivity. }
    change (unit_suffix (String c (String c' v')))
      with (let '(pre, j) := unit_suffix (String c' v') in (String c pre, j)).
    destruct (unit_suffix (String c' v')) as [pre j]. cbn [fst snd] in *.
    destruct (mbSuffixes !! _) as [m|];
      apply (f_equal (fun p : string * Float64.t => (String c p.1, p.2))) in IH; exact IH.
Qed.

Lemma uint64_of_float_in_range (f : Float64.t) (z : Z) :
  Float64.trunc f = Some z -> 0 <= z <= GoStrconv.maxUint64 -> uint64_of_float f = z.
Proof.
  intros Hf Hz. unfold uint64_of_float. rewrite Hf.
  destruct (Z.leb_spec 0 z), (Z.leb_spec z GoStrconv.maxUint64); simpl; lia || done.
Qed.

(** The integer stored for a finite value that is not below zero and a
    multiplier [2^j]: the ceiling of the product, when it fits. *)
Lemma stored_ceiling (neg : bool) (k j : Z) :
  Float64.valid (Float64.Fin neg k) = true -> 0 <= j ->
  Float64.ltb (Float64.Fin neg k) (Float64.of_Z 0) = false ->
  ceiling (k * 2 ^ j) Float64.unit <= GoStrconv.maxUint64 ->
  uint64_of_float (Float64.Ceil (Float64.mul (Float64.Fin neg k)
                                   (Float64.Fin false (Float64.unit * 2 ^ j))))
    = ceiling (k * 2 ^ j) Float64.unit.
Proof.
  intros Hv Hj Hlt Hfit. simpl in Hv.
  apply andb_true_iff in Hv as [Hg Htop%Z.ltb_lt].
  pose proof Hg as Hg'. apply andb_true_iff in Hg' as [Hk%Z.leb_le _].
  pose proof unit_pos as HU.
  assert (0 < 2 ^ j) as Hp by (apply Z.pow_pos_nonneg; lia).
  pose proof (ceiling_bounds (k * 2 ^ j) Float64.unit HU) as Hc.
  assert (k * 2 ^ j < Float64.top) as Hlt_top.
  { rewrite top_unit. unfold GoStrconv.maxUint64 in Hfit.
    assert (2 ^ 64 < 2 ^ 1024) by (apply Z.pow_lt_mono_r; lia). nia. }
  rewrite mul_pow2 by done.
  destruct (Z.ltb_spec (k * 2 ^ j) Float64.top); [|lia].
  rewrite ltb_zero in Hlt by done.
  destruct neg.
  - simpl in Hlt. assert (k = 0) as -> by (destruct (Z.ltb_spec 0 k); [done|lia]).
    rewrite Z.mul_0_l.
    assert (ceiling 0 Float64.unit = 0) as ->.
    { unfold ceiling. change (- 0) with 0. rewrite Z.div_0_l by lia. reflexivity. }
    apply uint64_of_float_in_range; [|unfold GoStrconv.maxUint64; lia].
    unfold Float64.Ceil, Float64.trunc. cbv beta iota.
    rewrite (Z.div_0_l Float64.unit) by lia. change (0 * Float64.unit) with 0.
    rewrite (Z.div_0_l Float64.unit) by lia. reflexivity.
  - apply uint64_of_float_in_range; [|nia].
    apply trunc_Ceil. nia.
Qed.

Lemma parseSize_spec (v : string) :
  v <> "" ->
  parseSize v =
    match ParseFloat (unit_suffix v).1 with
    | None => (None, Some must_be_non_negative_float)
    | Some f =>
        if Float64.ltb f (Float64.of_Z 0) then (None, Some must_be_non_negative_float)
        else (Some (uint64_of_float
                      (Float64.Ceil (Float64.mul f
                         (Float64.Fin false (Float64.unit * 2 ^ (unit_suffix v).2))))), None)
    end.
Proof.
  intros Hne. unfold parseSize.
  pose proof (suffix_lookup v Hne) as Hs.
  apply String.eqb_neq in Hne. rewrite Hne. cbn [negb]. cbv zeta.
  rewrite Hs. reflexivity.
Qed.

End Sizes.

Section SizeClaims.
Context {imports : Imports}.

Local Arguments Float64.of_Z : simpl never.
Local Arguments Float64.mul : simpl never.
Local Arguments Float64.Ceil : simpl never.
Local Arguments Float64.ltb : simpl never.
Local Arguments parseSize : simpl never.

Lemma setRaw_mem (hc : HardwareCharacteristics) (v : string) :
  Mem hc = None ->
  setRaw hc ("mem=" +:+ v) =
    match parseSize v with
    | (_, Some err) => (hc, Some (bad_characteristic "mem" err))
    | (n, None) => (with_Mem hc n, None)
    end.
Proof.
  intros Hnone. change ("mem=" +:+ v) with ("mem" +:+ "=" +:+ v).
  rewrite setRaw_cut by done. simpl. unfold setMem. rewrite Hnone. simpl.
  destruct (with_None_id hc) as (_&Hid&_).
  destruct (parseSize_shape v) as [[n ->]|[e ->]]; simpl; [reflexivity|].
  by rewrite Hid.
Qed.

Lemma setRaw_root_disk (hc : HardwareCharacteristics) (v : string) :
  RootDisk hc = None ->
  setRaw hc ("root-disk=" +:+ v) =
    match parseSize v with
    | (_, Some err) => (hc, Some (bad_characteristic "root-disk" err))
    | (n, None) => (with_RootDisk hc n, None)
    end.
Proof.
  intros Hnone. change ("root-disk=" +:+ v) with ("root-disk" +:+ "=" +:+ v).
  rewrite setRaw_cut by done. simpl. unfold setRootDisk. rewrite Hnone. simpl.
  destruct (with_None_id hc) as (_&_&Hid&_).
  destruct (parseSize_shape v) as [[n ->]|[e ->]]; simpl; [reflexivity|].
  by rewrite Hid.
Qed.

Lemma parseSize_ceiling (v : string) :
  (forall s f, ParseFloat s = Some f -> Float64.valid f = true) ->
  v <> "" ->
  match ParseFloat (unit_suffix v).1 with
  | None => parseSize v = (None, Some must_be_non_negative_float)
  | Some f =>
      if Float64.ltb f (Float64.of_Z 0)
      then parseSize v = (None, Some must_be_non_negative_float)
      else exists n, parseSize v = (Some n, None) /\
             forall neg k, f = Float64.Fin neg k ->
               ceiling (k * 2 ^ (unit_suffix v).2) Float64.unit <= GoStrconv.maxUint64 ->
               n = ceiling (k * 2 ^ (unit_suffix v).2) Float64.unit
  end.
Proof.
  intros Hvalid Hne. rewrite parseSize_spec by exact Hne.
  destruct (ParseFloat (unit_suffix v).1) as [f|] eqn:Hf; [|reflexivity].
  destruct (Float64.ltb f (Float64.of_Z 0)) eqn:Hlt; [reflexivity|].
  eexists. split; [reflexivity|]. intros neg k -> Hfit.
  apply stored_ceiling; [by eapply Hvalid|apply unit_suffix_range|exact Hlt|exact Hfit].
Qed.

(** A decimal literal with a unit, when the ceiling of the product fits. *)
Lemma parseSize_decimal (v pre : string) (j k n : Z) :
  ParseFloat_conforms ->
  v <> "" -> unit_suffix v = (pre, j) ->
  GoStrconv.ParseDecimal pre = Some (Float64.Fin false k) ->
  ceiling (k * 2 ^ j) Float64.unit = n -> n <= GoStrconv.maxUint64 ->
  parseSize v = (Some n, None).
Proof.
  intros [Hvalid Hdec] Hne Hsuf Hpre Hn Hfit.
  pose proof (parseSize_ceiling v Hvalid Hne) as Hspec.
  rewrite Hsuf in Hspec. cbn [fst snd] in Hspec.
  rewrite (Hdec _ _ Hpre) in Hspec.
  pose proof (ParseDecimal_valid _ _ Hpre) as Hv. simpl in Hv.
  apply andb_true_iff in Hv as [Hg _]. apply andb_true_iff in Hg as [Hk%Z.leb_le _].
  rewrite ltb_zero in Hspec by exact Hk. cbn [andb] in Hspec.
  destruct Hspec as (n' & -> & Hn'). f_equal. f_equal.
  rewrite <- Hn. apply (Hn' false k eq_refl). by rewrite Hn.
Qed.

Lemma parseSize_negative (v pre : string) (j k : Z) :
  ParseFloat_conforms ->
  v <> "" -> unit_suffix v = (pre, j) ->
  GoStrconv.ParseDecimal pre = Some (Float64.Fin true k) -> 0 < k ->
  parseSize v = (None, Some must_be_non_negative_float).
Proof.
  intros [Hvalid Hdec] Hne Hsuf Hpre Hk.
  pose proof (parseSize_ceiling v Hvalid Hne) as Hspec.
  rewrite Hsuf in Hspec. cbn [fst snd] in Hspec.
  rewrite (Hdec _ _ Hpre) in Hspec.
  rewrite ltb_zero in Hspec by lia. cbn [andb] in Hspec.
  destruct (Z.ltb_spec 0 k); [exact Hspec|lia].
Qed.

(** C1, amended: for a value string of the [mem] or [root-disk] key
    that is not empty, the parser takes a final [M], [G], [T] or [P]
    off (multiplier 1, 1024, 1024^2, 1024^3), has the rest parsed as a
    float64, and fails with "must be a non-negative float ..." when
    that fails or yields a value below zero; otherwise the field is
    assigned, and its value is the ceiling of the product of the parsed
    number and the multiplier whenever that ceiling is at most
    [2^64-1] (the conversion of anything else is left to the platform).
    In particular [mem=1G] yields 1024, [mem=1.5G] yields 1536 and
    [root-disk=2T] yields 2097152.  An empty value string is not an
    error: it yields 0. *)
Theorem size_values :
  ParseFloat_conforms ->
  (forall v, v <> "" ->
     match ParseFloat (unit_suffix v).1 with
     | None => parseSize v = (None, Some must_be_non_negative_float)
     | Some f =>
         if Float64.ltb f (Float64.of_Z 0)
         then parseSize v = (None, Some must_be_non_negative_float)
         else exists n, parseSize v = (Some n, None) /\
                forall neg k, f = Float64.Fin neg k ->
                  ceiling (k * 2 ^ (unit_suffix v).2) Float64.unit <= GoStrconv.maxUint64 ->
                  n = ceiling (k * 2 ^ (unit_suffix v).2) Float64.unit
     end) /\
  parseSize "" = (Some 0, None) /\
  (forall hc v, Mem hc = None ->
     setRaw hc ("mem=" +:+ v) =
       match parseSize v with
       | (_, Some err) => (hc, Some (bad_characteristic "mem" err))
       | (n, None) => (with_Mem hc n, None)
       end) /\
  (forall hc v, RootDisk hc = None ->
     setRaw hc ("root-disk=" +:+ v) =
       match parseSize v with
       | (_, Some err) => (hc, Some (bad_characteristic "root-disk" err))
       | (n, None) => (with_RootDisk hc n, None)
       end) /\
  (forall name, kind (bad_characteristic name must_be_non_negative_float) = InvalidNumber) /\
  ParseHardware ["mem=1G"] = (with_Mem zeroHC (Some 1024), None) /\
  ParseHardware ["mem=1.5G"] = (with_Mem zeroHC (Some 1536), None) /\
  ParseHardware ["root-disk=2T"] = (with_RootDisk zeroHC (Some 2097152), None) /\
  ParseHardware ["mem=-5"] =
    (zeroHC, Some (bad_characteristic "mem" must_be_non_negative_float)).
Proof.
  intros Hconf. pose proof Hconf as [Hvalid Hdec].
  split; [intros v; by apply parseSize_ceiling|].
  split; [reflexivity|].
  split; [exact setRaw_mem|]. split; [exact setRaw_root_disk|].
  split; [reflexivity|].
  assert (parseSize "1G" = (Some 1024, None)) as H1.
  { apply (parseSize_decimal "1G" "1" 10 Float64.unit); try done; by vm_compute. }
  assert (parseSize "1.5G" = (Some 1536, None)) as H2.
  { apply (parseSize_decimal "1.5G" "1.5" 10 (3 * 2 ^ 1073)); try done; by vm_compute. }
  assert (parseSize "2T" = (Some 2097152, None)) as H3.
  { apply (parseSize_decimal "2T" "2" 20 (2 ^ 1075)); try done; by vm_compute. }
  assert (parseSize "-5" = (None, Some must_be_non_negative_float)) as H4.
  { apply (parseSize_negative "-5" "-5" 0 (5 * 2 ^ 1074)); try done; by vm_compute. }
  repeat split.
  - rewrite ParseHardware_single by reflexivity.
    change "mem=1G" with ("mem=" +:+ "1G").
    rewrite (setRaw_mem zeroHC "1G") by reflexivity. by rewrite H1.
  - rewrite ParseHardware_single by reflexivity.
    change "mem=1.5G" with ("mem=" +:+ "1.5G").
    rewrite (setRaw_mem zeroHC "1.5G") by reflexivity. by rewrite H2.
  - rewrite ParseHardware_single by reflexivity.
    change "root-disk=2T" with ("root-disk=" +:+ "2T").
    rewrite (setRaw_root_disk zeroHC "2T") by reflexivity. by rewrite H3.
  - rewrite ParseHardware_single by reflexivity.
    change "mem=-5" with ("mem=" +:+ "-5").
    rewrite (setRaw_mem zeroHC "-5") by reflexivity. by rewrite H4.
Qed.

End SizeClaims.

Lemma sampleImports_conforms : @ParseFloat_conforms sampleImports.
Proof. split; [exact ParseDecimal_valid|done]. Qed.

Lemma size_values_witness :
  @ParseFloat_conforms sampleImports /\
  @ParseHardware sampleImports ["mem=1.5G"] = (with_Mem zeroHC (Some 1536), None).
Proof.
  split; [exact sampleImports_conforms|].
  exact (proj1 (proj2 (proj2 (proj2 (proj2 (proj2 (proj2
           (@size_values sampleImports sampleImports_conforms)))))))).
Defined.

(** The empty value string is no float literal, and yet accepted: the
    first clause of C1 fails there. *)
Lemma empty_size_accepted :
  unit_suffix "" = ("", 0) /\
  @ParseFloat sampleImports "" = None /\
  @ParseHardware sampleImports ["mem="] = (with_Mem zeroHC (Some 0), None).
Proof. repeat split. Qed.

(** ** Trimming and joining *)

Section TrimFacts.

Lemma rev_app_spec (s acc : string) : String.rev_app s acc = String.rev s +:+ acc.
Proof.
  unfold String.rev. revert acc. induction s as [|c s IH]; intros acc; [done|].
  simpl. rewrite IH, (IH (String c "")). by rewrite sapp_assoc.
Qed.

Lemma rev_cons (c : ascii) (s : string) : String.rev (String c s) = String.rev s +:+ String c "".
Proof. unfold String.rev at 1. simpl. apply rev_app_spec. Qed.

Lemma rev_sapp (a b : string) : String.rev (a +:+ b) = String.rev b +:+ String.rev a.
Proof.
  induction a as [|c a IH]; [by rewrite sapp_nil_r|].
  rewrite sapp_cons, !rev_cons, IH. by rewrite sapp_assoc.
Qed.

Lemma rev_involutive (s : string) : String.rev (String.rev s) = s.
Proof. induction s as [|c s IH]; [done|]. by rewrite rev_cons, rev_sapp, IH. Qed.

Lemma rev_empty (s : string) : String.rev s = "" -> s = "".
Proof. intros H. by rewrite <- (rev_involutive s), H. Qed.

Section Front.
Variables (sp2 : ascii -> ascii -> bool) (sp3 : ascii -> ascii -> ascii -> bool).
Hypothesis sp2_space : forall c, sp2 c " " = false.
Hypothesis sp3_space_2 : forall c c', sp3 c " " c' = false.
Hypothesis sp3_space_3 : forall c c', sp3 c c' " " = false.

Lemma trimFront_length_le (n : nat) (s : string) :
  (String.length s <= n)%nat ->
  (String.length (GoStrings.trimFront sp2 sp3 s) <= String.length s)%nat.
Proof.
  revert s. induction n as [|n IH]; intros s Hn.
  { destruct s; simpl in *; lia. }
  destruct s as [|c1 [|c2 [|c3 s]]]; simpl in *; try lia.
  - destruct (GoStrings.isSpace1 c1); simpl; lia.
  - destruct (GoStrings.isSpace1 c1).
    + specialize (IH (String c2 "") ltac:(simpl; lia)). simpl in IH. lia.
    + destruct (sp2 c1 c2); simpl; lia.
  - destruct (GoStrings.isSpace1 c1).
    + specialize (IH (String c2 (String c3 s)) ltac:(simpl; lia)). simpl in IH. lia.
    + destruct (sp2 c1 c2).
      * specialize (IH (String c3 s) ltac:(simpl; lia)). simpl in IH. lia.
      * destruct (sp3 c1 c2 c3); [|simpl; lia].
        specialize (IH s ltac:(lia)). lia.
Qed.

Lemma trimFront_length (s : string) :
  (String.length (GoStrings.trimFront sp2 sp3 s) <= String.length s)%nat.
Proof. by apply (trimFront_length_le (String.length s)). Qed.

Lemma trimFront_3 (c1 c2 c3 : ascii) (s : string) :
  GoStrings.trimFront sp2 sp3 (String c1 (String c2 (String c3 s))) =
    if GoStrings.isSpace1 c1 then GoStrings.trimFront sp2 sp3 (String c2 (String c3 s))
    else if sp2 c1 c2 then GoStrings.trimFront sp2 sp3 (String c3 s)
    else if sp3 c1 c2 c3 then GoStrings.trimFront sp2 sp3 s
    else String c1 (String c2 (String c3 s)).
Proof. reflexivity. Qed.

(** A string that the scan leaves as it is, is left as it is when a
    space follows it. *)
Lemma trimFront_app (t s : string) :
  t <> "" -> GoStrings.trimFront sp2 sp3 t = t ->
  (s = "" \/ exists s', s = String " " s') ->
  GoStrings.trimFront sp2 sp3 (t +:+ s) = t +:+ s.
Proof.
  intros Hne Ht Hs.
  destruct t as [|c1 [|c2 [|c3 t]]]; [done| | |].
  - simpl in Ht. destruct (GoStrings.isSpace1 c1) eqn:E1; [done|].
    destruct Hs as [->|[s' ->]]; [by simpl; rewrite E1|].
    change (String c1 "" +:+ String " " s') with (String c1 (String " " s')).
    simpl. rewrite E1, sp2_space. destruct s'; [done|]. by rewrite sp3_space_2.
  - simpl in Ht. destruct (GoStrings.isSpace1 c1) eqn:E1.
    { by destruct (GoStrings.isSpace1 c2). }
    destruct (sp2 c1 c2) eqn:E2; [done|].
    destruct Hs as [->|[s' ->]]; [by simpl; rewrite E1, E2|].
    change (String c1 (String c2 "") +:+ String " " s')
      with (String c1 (String c2 (String " " s'))).
    simpl. by rewrite E1, E2, sp3_space_3.
  - rewrite !sapp_cons. rewrite trimFront_3 in Ht |- *.
    destruct (GoStrings.isSpace1 c1) eqn:E1.
    { pose proof (trimFront_length (String c2 (String c3 t))) as Hl.
      rewrite Ht in Hl. simpl in Hl. lia. }
    destruct (sp2 c1 c2) eqn:E2.
    { pose proof (trimFront_length (String c3 t)) as Hl.
      rewrite Ht in Hl. simpl in Hl. lia. }
    destruct (sp3 c1 c2 c3) eqn:E3; [|done].
    pose proof (trimFront_length t) as Hl. rewrite Ht in Hl. simpl in Hl. lia.
Qed.
End Front.

Lemma isSpace2_space_r (c : ascii) : GoStrings.isSpace2 c " " = false.
Proof. unfold GoStrings.isSpace2. simpl. by rewrite andb_false_r. Qed.

Lemma isSpace2_space_l (c : ascii) : GoStrings.isSpace2 " " c = false.
Proof. reflexivity. Qed.

Lemma isSpace3_space_1 (c c' : ascii) : GoStrings.isSpace3 " " c c' = false.
Proof. reflexivity. Qed.

Lemma isSpace3_space_2 (c c' : ascii) : GoStrings.isSpace3 c " " c' = false.
Proof.
  unfold GoStrings.isSpace3. cbv zeta. change (N_of_ascii " ") with 32%N.
  change (32 =? 154)%N with false. change (32 =? 128)%N with false.
  change (32 =? 129)%N with false.
  by rewrite !andb_false_r.
Qed.

Lemma isSpace3_space_3 (c c' : ascii) : GoStrings.isSpace3 c c' " " = false.
Proof.
  unfold GoStrings.isSpace3. cbv zeta. change (N_of_ascii " ") with 32%N.
  change (32 =? 128)%N with false. change (32 =? 159)%N with false.
  change (128 <=? 32)%N with false. change (32 =? 168)%N with false.
  change (32 =? 169)%N with false. change (32 =? 175)%N with false.
  simpl. by rewrite !andb_false_r.
Qed.

Lemma trimLeft_app (t s : string) :
  t <> "" -> GoStrings.trimLeft t = t -> (s = "" \/ exists s', s = String " " s') ->
  GoStrings.trimLeft (t +:+ s) = t +:+ s.
Proof.
  apply trimFront_app;
    [exact isSpace2_space_r|exact isSpace3_space_2|exact isSpace3_space_3].
Qed.

Lemma trimRight_app (s t : string) :
  t <> "" -> GoStrings.trimRight t = t -> (s = "" \/ exists s', s = s' +:+ " ") ->
  GoStrings.trimRight (s +:+ t) = s +:+ t.
Proof.
  unfold GoStrings.trimRight. intros Hne Ht Hs.
  rewrite rev_sapp, trimFront_app.
  - by rewrite <- rev_sapp, rev_involutive.
  - intros c. apply isSpace2_space_l.
  - intros c c'. apply isSpace3_space_2.
  - intros c c'. apply isSpace3_space_1.
  - intros H%rev_empty. done.
  - apply (f_equal String.rev) in Ht. by rewrite rev_involutive in Ht.
  - destruct Hs as [->|[s' ->]]; [by left|right].
    exists (String.rev s'). by rewrite rev_sapp.
Qed.

Lemma Join_snoc (init : list string) (tl sep : string) :
  init <> [] -> GoStrings.Join (init ++ [tl]) sep = GoStrings.Join init sep +:+ sep +:+ tl.
Proof.
  induction init as [|e init IH]; [done|]. intros _.
  destruct init as [|e' init]; [done|].
  change ((e :: e' :: init) ++ [tl]) with (e :: ((e' :: init) ++ [tl])).
  rewrite Join_cons by done. rewrite IH by done.
  rewrite (Join_cons e (e' :: init)) by done. by rewrite !sapp_assoc.
Qed.

(** Tokens joined by single spaces are cut into the same tokens. *)
Lemma TrimSpace_Join (toks : list string) :
  Forall (fun t => is_token t = true) toks ->
  GoStrings.TrimSpace (GoStrings.Join toks " ") = GoStrings.Join toks " ".
Proof.
  intros Hall. unfold GoStrings.TrimSpace.
  assert (GoStrings.trimLeft (GoStrings.Join toks " ") = GoStrings.Join toks " ") as ->.
  { destruct Hall as [|t rest Ht Hrest]; [done|].
    apply is_token_spec in Ht as (Hne & _ & Hl & _).
    destruct rest as [|t' rest]; [done|].
    rewrite Join_cons by done. apply trimLeft_app; [done..|]. right. by eexists. }
  destruct toks as [|tl init _] using rev_ind; [done|].
  apply Forall_app in Hall as [Hinit Hlast]. inversion Hlast as [|? ? Ht _]; subst.
  apply is_token_spec in Ht as (Hne & _ & _ & Hr).
  destruct init as [|t1 init]; [by simpl|].
  rewrite Join_snoc by done. rewrite <- sapp_assoc.
  apply trimRight_app; [done..|]. right. by eexists.
Qed.

End TrimFacts.

Section OneOrMany.
Context {imports : Imports}.

Lemma tokens_Join (toks : list string) :
  Forall (fun t => is_token t = true) toks -> tokens [GoStrings.Join toks " "] = toks.
Proof.
  intros Hall. unfold tokens, pieces. simpl. rewrite TrimSpace_Join, List.app_nil_r by done.
  assert (Forall (fun t => t <> "" /\ has_byte " " t = false) toks) as Hall'.
  { eapply Forall_impl; [exact Hall|]. intros t Ht. apply is_token_spec in Ht. tauto. }
  destruct toks as [|t toks]; [done|].
  rewrite (Split_Join (t :: toks) " ");
    [|done|eapply Forall_impl; [exact Hall'|]; by intros ? [_ ?]].
  clear Hall. induction Hall' as [|x l [Hx _] _ IH]; [done|].
  rewrite filter_cons. destruct (decide (x <> "")); [|done]. by rewrite IH.
Qed.

(** C4, amended: for tokens that are free of white space, a call with
    one argument holding the tokens separated by single spaces, and
    more generally any call whose arguments are cut into these tokens,
    returns what the call with one argument per token returns, record
    or error. *)
Theorem one_string_or_many (toks : list string) :
  Forall (fun t => is_token t = true) toks ->
  ParseHardware [GoStrings.Join toks " "] = ParseHardware toks /\
  forall args, tokens args = toks -> ParseHardware args = ParseHardware toks.
Proof.
  intros Hall.
  assert (forall args, tokens args = toks -> ParseHardware args = ParseHardware toks) as Hgen.
  { intros args Hargs. by rewrite !ParseHardware_tokens, Hargs, tokens_of_tokens. }
  split; [|exact Hgen]. apply Hgen. by apply tokens_Join.
Qed.

End OneOrMany.

Lemma one_string_or_many_witness :
  Forall (fun t => is_token t = true) ["mem=4G"; "cpu-power=250"; "tags=a,b"] /\
  @ParseHardware sampleImports ["mem=4G cpu-power=250 tags=a,b"]
    = @ParseHardware sampleImports ["mem=4G"; "cpu-power=250"; "tags=a,b"].
Proof.
  assert (Forall (fun t => is_token t = true) ["mem=4G"; "cpu-power=250"; "tags=a,b"]) as H
    by (repeat constructor).
  split; [exact H|].
  exact (proj1 (@one_string_or_many sampleImports ["mem=4G"; "cpu-power=250"; "tags=a,b"] H)).
Defined.

(** Tokens separated by a tab are one token for the parser: the claim
    C4 fails for white space other than the space. *)
Lemma tab_separated_differs :
  @ParseHardware sampleImports ["cores=1" +:+ TAB +:+ "tags=a"]
    = (zeroHC, Some (bad_characteristic "cores" must_be_non_negative_integer)) /\
  @ParseHardware sampleImports ["cores=1"; "tags=a"]
    = (mkHardwareCharacteristics None None None (Some 1) None (Some ["a"]) None, None).
Proof. split; reflexivity. Qed.

(** ** Rendering and parsing again *)

Section RoundTrip.
Context {imports : Imports}.

Local Arguments parseSize : simpl never.
Local Arguments parseUint64 : simpl never.
Local Arguments GoStrconv.FormatUint : simpl never.

Ltac destruct_keys k :=
  destruct (String.eqb_spec k "arch") as [->|?];
  [|destruct (String.eqb_spec k "cores") as [->|?];
    [|destruct (String.eqb_spec k "cpu-power") as [->|?];
      [|destruct (String.eqb_spec k "mem") as [->|?];
        [|destruct (String.eqb_spec k "root-disk") as [->|?];
          [|destruct (String.eqb_spec k "tags") as [->|?];
            [|destruct (String.eqb_spec k "availability-zone") as [->|?]]]]]]].

Lemma hcString_fieldTokens (hc : HardwareCharacteristics) :
  hcString hc = GoStrings.Join (fieldTokens hc) " ".
Proof. destruct hc as [[a|] [m|] [r|] [c|] [p|] [[|t ts]|] [[|zc z]|]]; reflexivity. Qed.

(** *** The invariant of parsed records *)

Lemma parsed_zero : parsed zeroHC.
Proof. unfold parsed. simpl. by repeat split. Qed.

Lemma parseUint64_range (v : string) (n : Z) :
  parseUint64 v = (Some n, None) -> 0 <= n <= GoStrconv.maxUint64.
Proof.
  unfold parseUint64. destruct (String.eqb v ""); simpl.
  - intros [= <-]. unfold GoStrconv.maxUint64. lia.
  - destruct (GoStrconv.ParseUint v) eqn:E; [|done]. intros [= <-].
    by apply ParseUint_range in E.
Qed.

Lemma setter_parsed (k v : string) set (hc hc' : HardwareCharacteristics) :
  setter k = Some set -> has_byte " " v = false -> parsed hc ->
  set hc v = (hc', None) -> parsed hc'.
Proof.
  intros Hset Hv (Ha & Hc & Hp & Ht & Hz) Hrun.
  unfold setter in Hset. destruct_keys k; simpl in Hset; simplify_eq.
  - unfold setArch in Hrun. repeat case_match; simplify_eq.
    unfold parsed; simpl; split_and!; try done.
    intros ? [= <-]. split; [done|].
    match goal with H : _ && _ = false |- _ => apply andb_false_iff in H as [Hx|Hx] end.
    + left. apply negb_false_iff in Hx. by apply String.eqb_eq.
    + right. by apply negb_false_iff in Hx.
  - unfold setCpuCores in Hrun. case_match; [done|].
    destruct (parseUint64 v) as [val err] eqn:E. simplify_eq.
    unfold parsed; simpl; split_and!; try done.
    intros ? ->. by apply parseUint64_range in E.
  - unfold setCpuPower in Hrun. case_match; [done|].
    destruct (parseUint64 v) as [val err] eqn:E. simplify_eq.
    unfold parsed; simpl; split_and!; try done.
    intros ? ->. by apply parseUint64_range in E.
  - unfold setMem in Hrun. case_match; [done|].
    destruct (parseSize v) as [val err] eqn:E. simplify_eq.
    unfold parsed; simpl; by split_and!.
  - unfold setRootDisk in Hrun. case_match; [done|].
    destruct (parseSize v) as [val err] eqn:E. simplify_eq.
    unfold parsed; simpl; by split_and!.
  - unfold setTags in Hrun. case_match; [done|]. simplify_eq.
    unfold parsed; simpl; split_and!; try done.
    intros l. unfold parseTags. destruct (String.eqb_spec v "") as [->|Hne].
    + intros [= <-]. by left.
    + intros [= <-]. right. by exists v.
  - unfold setAvailabilityZone in Hrun. case_match; [done|].
    destruct (String.eqb_spec v "") as [->|Hne]; simpl in Hrun; simplify_eq;
      [unfold parsed; by split_and!|].
    unfold parsed; simpl; split_and!; try done. by intros ? [= <-].
Qed.

Lemma setRaw_parsed (hc hc' : HardwareCharacteristics) (raw : string) :
  has_byte " " raw = false -> parsed hc -> setRaw hc raw = (hc', None) -> parsed hc'.
Proof.
  intros Hsp Hp (k & v & set & -> & _ & Hset & Hrun)%setRaw_success.
  rewrite !has_byte_app in Hsp. apply orb_false_iff in Hsp as [_ [_ Hv]%orb_false_iff].
  by eapply setter_parsed.
Qed.

Lemma setRaws_parsed (hc hc' : HardwareCharacteristics) (raws : list string) :
  Forall (fun raw => has_byte " " raw = false) raws ->
  parsed hc -> setRaws hc raws = (hc', None) -> parsed hc'.
Proof.
  intros Hall. revert hc. induction Hall as [|raw raws Hraw _ IH]; intros hc Hp; simpl.
  - by intros [= <-].
  - destruct (String.eqb raw ""); [by apply IH|].
    destruct (setRaw hc raw) as [hc1 [err|]] eqn:E; [done|].
    apply IH. by eapply setRaw_parsed.
Qed.

Lemma ParseHardware_parsed (args : list string) (hc : HardwareCharacteristics) :
  ParseHardware args = (hc, None) -> parsed hc.
Proof.
  rewrite ParseHardware_tokens.
  destruct (setRaws zeroHC (tokens args)) as [hc' [err|]] eqn:E; [done|]. intros [= <-].
  eapply setRaws_parsed; [apply tokens_no_space|apply parsed_zero|exact E].
Qed.

(** *** Parsing the tokens of a record, field by field *)

Lemma setRaws_one (hc : HardwareCharacteristics) (k v : string) :
  k <> "" ->
  setRaws hc [k +:+ "=" +:+ v] =
    match setRaw hc (k +:+ "=" +:+ v) with
    | (hc', Some err) => (hc', Some err)
    | (hc', None) => (hc', None)
    end.
Proof. intros Hk. rewrite setRaws_cons; [done|]. by destruct k. Qed.

Lemma run_arch (hc0 : HardwareCharacteristics) (a : option string) :
  Arch hc0 = None ->
  (forall x, a = Some x -> x = "" \/ IsSupportedArch x = true) ->
  setRaws hc0 (rendered "arch" a) = (with_Arch hc0 a, None).
Proof.
  intros Hnone Ha. destruct (with_None_id hc0) as (Hid&_).
  destruct a as [x|]; [|simpl; by rewrite Hid].
  change (rendered "arch" (Some x)) with ["arch" +:+ "=" +:+ x].
  rewrite setRaws_one, setRaw_cut by done. simpl. unfold setArch. rewrite Hnone. simpl.
  destruct (Ha x eq_refl) as [->|Hx]; [done|]. rewrite Hx. simpl.
  by rewrite andb_false_r.
Qed.

Lemma plain_integer_FormatUint (n : Z) :
  0 <= n <= GoStrconv.maxUint64 -> plain_integer (GoStrconv.FormatUint n) = Some n.
Proof.
  intros Hn. destruct (FormatUint_spec n Hn) as (Hne & Hd & Hv).
  unfold plain_integer. apply String.eqb_neq in Hne. rewrite Hne, Hd, Hv. simpl.
  destruct (Z.leb_spec n GoStrconv.maxUint64); [done|lia].
Qed.

Lemma run_cores (hc0 : HardwareCharacteristics) (c : option Z) :
  CpuCores hc0 = None ->
  (forall n, c = Some n -> 0 <= n <= GoStrconv.maxUint64) ->
  setRaws hc0 (rendered "cores" (GoStrconv.FormatUint <$> c)) = (with_CpuCores hc0 c, None).
Proof.
  intros Hnone Hc. destruct (with_None_id hc0) as (_&_&_&Hid&_).
  destruct c as [n|]; [|simpl; by rewrite Hid].
  change (rendered "cores" (GoStrconv.FormatUint <$> Some n))
    with ["cores" +:+ "=" +:+ GoStrconv.FormatUint n].
  rewrite setRaws_one by done.
  change ("cores" +:+ "=" +:+ GoStrconv.FormatUint n) with ("cores=" +:+ GoStrconv.FormatUint n).
  rewrite setRaw_cores, plain_integer_FormatUint by auto. done.
Qed.

Lemma run_cpu_power (hc0 : HardwareCharacteristics) (c : option Z) :
  CpuPower hc0 = None ->
  (forall n, c = Some n -> 0 <= n <= GoStrconv.maxUint64) ->
  setRaws hc0 (rendered "cpu-power" (GoStrconv.FormatUint <$> c)) = (with_CpuPower hc0 c, None).
Proof.
  intros Hnone Hc. destruct (with_None_id hc0) as (_&_&_&_&Hid&_).
  destruct c as [n|]; [|simpl; by rewrite Hid].
  change (rendered "cpu-power" (GoStrconv.FormatUint <$> Some n))
    with ["cpu-power" +:+ "=" +:+ GoStrconv.FormatUint n].
  rewrite setRaws_one by done.
  change ("cpu-power" +:+ "=" +:+ GoStrconv.FormatUint n)
    with ("cpu-power=" +:+ GoStrconv.FormatUint n).
  rewrite setRaw_cpu_power, plain_integer_FormatUint by auto. done.
Qed.

Lemma unit_suffix_M (d : string) : unit_suffix (d +:+ "M") = (d, 0).
Proof.
  induction d as [|c d IH]; [done|].
  rewrite sapp_cons.
  destruct (d +:+ "M") as [|c' d'] eqn:E; [by destruct d|].
  change (unit_suffix (String c (String c' d')))
    with (let '(pre, j) := unit_suffix (String c' d') in (String c pre, j)).
  by rewrite IH.
Qed.

(** The size rendered for a [uint64] that is a float64 value is parsed
    back to it. *)
Lemma parseSize_FormatUint (n : Z) :
  ParseFloat_conforms -> exact_uint64 n ->
  parseSize (GoStrconv.FormatUint n +:+ "M") = (Some n, None).
Proof.
  intros Hconf [Hn Hg].
  apply (parseSize_decimal _ (GoStrconv.FormatUint n) 0 (n * Float64.unit)); try done.
  - by destruct (GoStrconv.FormatUint n).
  - apply unit_suffix_M.
  - by apply ParseDecimal_FormatUint.
  - change (2 ^ 0) with 1. rewrite Z.mul_1_r. apply ceiling_mul, unit_pos.
  - lia.
Qed.

Lemma run_mem (hc0 : HardwareCharacteristics) (m : option Z) :
  ParseFloat_conforms -> Mem hc0 = None ->
  (forall n, m = Some n -> exact_uint64 n) ->
  setRaws hc0 (rendered "mem" ((fun n => GoStrconv.FormatUint n +:+ "M") <$> m))
    = (with_Mem hc0 m, None).
Proof.
  intros Hconf Hnone Hm. destruct (with_None_id hc0) as (_&Hid&_).
  destruct m as [n|]; [|simpl; by rewrite Hid].
  change (rendered "mem" ((fun n => GoStrconv.FormatUint n +:+ "M") <$> Some n))
    with ["mem" +:+ "=" +:+ GoStrconv.FormatUint n +:+ "M"].
  rewrite setRaws_one by done.
  change ("mem" +:+ "=" +:+ GoStrconv.FormatUint n +:+ "M")
    with ("mem=" +:+ GoStrconv.FormatUint n +:+ "M").
  rewrite setRaw_mem, parseSize_FormatUint by auto. done.
Qed.

Lemma run_root_disk (hc0 : HardwareCharacteristics) (m : option Z) :
  ParseFloat_conforms -> RootDisk hc0 = None ->
  (forall n, m = Some n -> exact_uint64 n) ->
  setRaws hc0 (rendered "root-disk" ((fun n => GoStrconv.FormatUint n +:+ "M") <$> m))
    = (with_RootDisk hc0 m, None).
Proof.
  intros Hconf Hnone Hm. destruct (with_None_id hc0) as (_&_&Hid&_).
  destruct m as [n|]; [|simpl; by rewrite Hid].
  change (rendered "root-disk" ((fun n => GoStrconv.FormatUint n +:+ "M") <$> Some n))
    with ["root-disk" +:+ "=" +:+ GoStrconv.FormatUint n +:+ "M"].
  rewrite setRaws_one by done.
  change ("root-disk" +:+ "=" +:+ GoStrconv.FormatUint n +:+ "M")
    with ("root-disk=" +:+ GoStrconv.FormatUint n +:+ "M").
  rewrite setRaw_root_disk, parseSize_FormatUint by auto. done.
Qed.

Lemma run_tags (hc0 : HardwareCharacteristics) (t : option (list string)) :
  Tags hc0 = None ->
  (forall l, t = Some l -> l = [] \/ exists s, s <> "" /\ l = GoStrings.Split s ",") ->
  setRaws hc0 (rendered "tags" (match t with
                                | Some (x :: xs) => Some (GoStrings.Join (x :: xs) ",")
                                | _ => None
                                end))
    = (with_Tags hc0 (match t with Some [] => None | tags => tags end), None).
Proof.
  intros Hnone Ht. destruct (with_None_id hc0) as (_&_&_&_&_&Hid&_).
  destruct t as [[|x xs]|]; [simpl; by rewrite Hid| |simpl; by rewrite Hid].
  destruct (Ht _ eq_refl) as [?|(s & Hs & Hl)]; [done|].
  change (rendered "tags" (Some (GoStrings.Join (x :: xs) ",")))
    with ["tags" +:+ "=" +:+ GoStrings.Join (x :: xs) ","].
  rewrite Hl, Join_Split.
  rewrite setRaws_one, setRaw_cut by done. simpl. unfold setTags. rewrite Hnone. simpl.
  unfold parseTags. apply String.eqb_neq in Hs. by rewrite Hs.
Qed.

Lemma run_zone (hc0 : HardwareCharacteristics) (zz : option string) :
  AvailabilityZone hc0 = None ->
  (forall z, zz = Some z -> z <> "") ->
  setRaws hc0 (rendered "availability-zone" (match zz with
                                             | Some (String c z) => Some (String c z)
                                             | _ => None
                                             end))
    = (with_AvailabilityZone hc0 zz, None).
Proof.
  intros Hnone Hz. destruct (with_None_id hc0) as (_&_&_&_&_&_&Hid).
  destruct zz as [[|c z]|]; [by destruct (Hz "" eq_refl)| |simpl; by rewrite Hid].
  change (rendered "availability-zone" (Some (String c z)))
    with ["availability-zone" +:+ "=" +:+ String c z].
  rewrite setRaws_one by done.
  change ("availability-zone" +:+ "=" +:+ String c z)
    with ("availability-zone=" +:+ String c z).
  by rewrite setRaw_zone.
Qed.

Lemma run_fieldTokens (hc : HardwareCharacteristics) :
  ParseFloat_conforms -> parsed hc ->
  (forall n, Mem hc = Some n -> exact_uint64 n) ->
  (forall n, RootDisk hc = Some n -> exact_uint64 n) ->
  setRaws zeroHC (fieldTokens hc) = (unset_empty_tags hc, None).
Proof.
  intros Hconf (Ha & Hc & Hp & Ht & Hz) Hm Hr. unfold fieldTokens.
  rewrite setRaws_app, run_arch; [|done|intros x Hx; by destruct (Ha x Hx)].
  rewrite setRaws_app, run_cores by done.
  rewrite setRaws_app, run_cpu_power by done.
  rewrite setRaws_app, run_mem by done.
  rewrite setRaws_app, run_root_disk by done.
  rewrite setRaws_app, run_tags;
    [|done|intros l Hl; destruct (Ht l Hl) as [?|(s & ? & _ & ?)]; eauto].
  rewrite run_zone; [|done|intros z Hzz; by destruct (Hz z Hzz)].
  by destruct hc as [a m r c p [[|x xs]|] z].
Qed.

(** *** The tokens of the rendered text *)

Lemma no_space_FormatUint (n : Z) : 0 <= n -> has_byte " " (GoStrconv.FormatUint n) = false.
Proof.
  intros Hn. apply all_digits_no_byte; [done|].
  unfold GoStrconv.FormatUint. by apply formatBits_digits.
Qed.

Lemma fieldTokens_clean (hc : HardwareCharacteristics) :
  parsed hc ->
  (forall n, Mem hc = Some n -> 0 <= n) -> (forall n, RootDisk hc = Some n -> 0 <= n) ->
  Forall (fun t => t <> "" /\ has_byte " " t = false) (fieldTokens hc).
Proof.
  intros (Ha & Hc & Hp & Ht & Hz) Hm Hr. unfold fieldTokens.
  repeat apply Forall_app_2.
  - destruct (Arch hc) as [a|]; simpl; [|done]. repeat constructor; [done|].
    change ("arch" +:+ "=" +:+ a) with ("arch=" +:+ a).
    rewrite has_byte_app. by destruct (Ha a eq_refl) as [-> _].
  - destruct (CpuCores hc) as [n|]; simpl; [|done]. repeat constructor; [done|].
    change ("cores" +:+ "=" +:+ GoStrconv.FormatUint n) with ("cores=" +:+ GoStrconv.FormatUint n).
    rewrite has_byte_app, no_space_FormatUint; [done|]. by destruct (Hc n eq_refl).
  - destruct (CpuPower hc) as [n|]; simpl; [|done]. repeat constructor; [done|].
    change ("cpu-power" +:+ "=" +:+ GoStrconv.FormatUint n)
      with ("cpu-power=" +:+ GoStrconv.FormatUint n).
    rewrite has_byte_app, no_space_FormatUint; [done|]. by destruct (Hp n eq_refl).
  - destruct (Mem hc) as [n|]; simpl; [|done]. repeat constructor; [done|].
    change ("mem" +:+ "=" +:+ GoStrconv.FormatUint n +:+ "M")
      with ("mem=" +:+ GoStrconv.FormatUint n +:+ "M").
    rewrite !has_byte_app, no_space_FormatUint; [done|]. by apply Hm.
  - destruct (RootDisk hc) as [n|]; simpl; [|done]. repeat constructor; [done|].
    change ("root-disk" +:+ "=" +:+ GoStrconv.FormatUint n +:+ "M")
      with ("root-disk=" +:+ GoStrconv.FormatUint n +:+ "M").
    rewrite !has_byte_app, no_space_FormatUint; [done|]. by apply Hr.
  - destruct (Tags hc) as [[|x xs]|]; [by constructor| |by constructor].
    destruct (Ht _ eq_refl) as [?|(s & Hs & Hsp & Hl)]; [done|].
    unfold rendered. rewrite Hl, Join_Split. repeat constructor; [done|].
    change ("tags" +:+ "=" +:+ s) with ("tags=" +:+ s). by rewrite has_byte_app, Hsp.
  - destruct (AvailabilityZone hc) as [[|c z]|] eqn:E; simpl; [done| |done].
    repeat constructor; [done|].
    change ("availability-zone" +:+ "=" +:+ String c z)
      with ("availability-zone=" +:+ String c z).
    rewrite has_byte_app. by destruct (Hz _ eq_refl) as [_ ->].
Qed.

Lemma tokens_joined (toks : list string) :
  Forall (fun t => t <> "" /\ has_byte " " t = false) toks ->
  GoStrings.TrimSpace (GoStrings.Join toks " ") = GoStrings.Join toks " " ->
  tokens [GoStrings.Join toks " "] = toks.
Proof.
  intros Hall Htrim. unfold tokens, pieces. simpl. rewrite Htrim, List.app_nil_r.
  destruct toks as [|t toks]; [done|].
  rewrite (Split_Join (t :: toks) " ");
    [|done|eapply Forall_impl; [exact Hall|]; by intros ? [_ ?]].
  clear Htrim. induction Hall as [|x l [Hx _] _ IH]; [done|].
  rewrite filter_cons. destruct (decide (x <> "")); [|done]. by rewrite IH.
Qed.

(** C2, amended: a record returned by a successful parse, rendered
    and parsed again, comes back with every field as it was, except
    that an explicitly empty tag list comes back unspecified; provided
    that the rendered text does not end in white space (the parser
    would trim it off the last value) and that the [mem] and
    [root-disk] values are integers of at most [2^64-1] that are
    float64 values (which is what an in-range conversion stores). *)
Theorem format_parse_round_trip (args : list string) (hc : HardwareCharacteristics) :
  ParseFloat_conforms ->
  ParseHardware args = (hc, None) ->
  GoStrings.TrimSpace (hcString hc) = hcString hc ->
  (forall n, Mem hc = Some n -> exact_uint64 n) ->
  (forall n, RootDisk hc = Some n -> exact_uint64 n) ->
  ParseHardware [hcString hc] = (unset_empty_tags hc, None).
Proof.
  intros Hconf Hparse Htrim Hm Hr.
  pose proof (ParseHardware_parsed args hc Hparse) as Hp.
  rewrite hcString_fieldTokens in *.
  apply ParseHardware_success. rewrite tokens_joined; [|apply fieldTokens_clean|done].
  - by apply run_fieldTokens.
  - done.
  - intros n Hn. by destruct (Hm n Hn) as [[? _] _].
  - intros n Hn. by destruct (Hr n Hn) as [[? _] _].
Qed.

End RoundTrip.

(** ** The statements at concrete inputs *)

(** A record that goes through the renderer and back. *)
Lemma format_parse_round_trip_witness :
  let hc := mkHardwareCharacteristics (Some "amd64") (Some 2048) None (Some 4) None
              (Some ["foo"; "bar"]) (Some "az1") in
  @ParseHardware sampleImports ["arch=amd64 cores=4"; "mem=2G tags=foo,bar availability-zone=az1"]
    = (hc, None) /\
  hcString hc = "arch=amd64 cores=4 mem=2048M tags=foo,bar availability-zone=az1" /\
  @ParseHardware sampleImports [hcString hc] = (unset_empty_tags hc, None).
Proof.
  intros hc.
  assert (@ParseHardware sampleImports
            ["arch=amd64 cores=4"; "mem=2G tags=foo,bar availability-zone=az1"] = (hc, None)) as Hparse
    by (vm_compute; reflexivity).
  split; [exact Hparse|]. split; [vm_compute; reflexivity|].
  apply (@format_parse_round_trip sampleImports _ hc sampleImports_conforms Hparse).
  - vm_compute; reflexivity.
  - intros n [= <-]. split; [unfold GoStrconv.maxUint64; lia|vm_compute; reflexivity].
  - intros n [=].
Defined.

(** A tag that ends in a tab is a value the parser returns and the
    renderer prints, and reading the rendering back trims the tab away:
    the round trip of C2 fails for it. *)
Lemma trailing_tab_not_round_trip :
  let hc := mkHardwareCharacteristics None None None (Some 1) None (Some ["a" +:+ TAB]) None in
  @ParseHardware sampleImports ["tags=a" +:+ TAB +:+ " cores=1"] = (hc, None) /\
  hcString hc = "cores=1 tags=a" +:+ TAB /\
  @ParseHardware sampleImports [hcString hc]
    = (mkHardwareCharacteristics None None None (Some 1) None (Some ["a"]) None, None).
Proof. repeat split. Qed.

(** The key [mem] in two tokens of different arguments. *)
Lemma second_assignment_fails_witness :
  exists e,
    @ParseHardware sampleImports ["mem=1G"; "cores=2 mem=2G"] = (zeroHC, Some e) /\
    (forall hc,
       @setRaws sampleImports zeroHC ([] ++ ("mem" +:+ "=" +:+ "1G") :: ["cores=2"]) = (hc, None) ->
       e = bad_characteristic "mem" already_set /\ kind e = AlreadySet).
Proof.
  apply (@second_assignment_fails sampleImports ["mem=1G"; "cores=2 mem=2G"]
           [] ["cores=2"] [] "mem" "1G" "2G").
  - repeat constructor.
  - left. discriminate.
  - reflexivity.
Defined.

(** The availability zone in two tokens, the first with an empty value:
    the call succeeds, so C3 fails for it. *)
Lemma zone_twice_accepted :
  @ParseHardware sampleImports ["availability-zone= availability-zone=z1"]
    = (with_AvailabilityZone zeroHC (Some "z1"), None).
Proof. reflexivity. Qed.

(** The value [4] of the key [cores]. *)
Lemma plain_integer_values_witness :
  is_token "cores=4" = true /\
  @ParseHardware sampleImports ["cores=4"] = (with_CpuCores zeroHC (Some 4), None).
Proof.
  split; [reflexivity|].
  exact (proj1 (proj2 (proj2 (@plain_integer_values sampleImports "4"))) eq_refl).
Defined.

(** The numeral of [2^64] is a non-negative base-10 integer without a
    suffix, and is rejected: C6 fails for it. *)
Lemma cores_overflow_rejected :
  all_digits "18446744073709551616" = true /\
  dec_value 0 "18446744073709551616" = 2 ^ 64 /\
  @ParseHardware sampleImports ["cores=18446744073709551616"]
    = (zeroHC, Some (bad_characteristic "cores" must_be_non_negative_integer)).
Proof. repeat split. Qed.

(** A token with an unknown key after a token that is accepted. *)
Lemma malformed_and_unknown_tokens_witness :
  tokens ["arch=amd64 bogus=1 mem=1G"] = ["arch=amd64"] ++ ("bogus" +:+ "=" +:+ "1") :: ["mem=1G"] /\
  @setRaws sampleImports zeroHC ["arch=amd64"] = (with_Arch zeroHC (Some "amd64"), None) /\
  @ParseHardware sampleImports ["arch=amd64 bogus=1 mem=1G"]
    = (zeroHC, Some (unknown_characteristic "bogus")).
Proof.
  assert (tokens ["arch=amd64 bogus=1 mem=1G"]
          = ["arch=amd64"] ++ ("bogus" +:+ "=" +:+ "1") :: ["mem=1G"]) as Htok by reflexivity.
  assert (@setRaws sampleImports zeroHC ["arch=amd64"] = (with_Arch zeroHC (Some "amd64"), None))
    as Hpre by reflexivity.
  split; [exact Htok|]. split; [exact Hpre|].
  destruct (@malformed_and_unknown_tokens sampleImports _ _ _ _ _ Htok Hpre) as [_ Hcut].
  destruct (Hcut "bogus" "1" eq_refl ltac:(discriminate) eq_refl) as [Hunknown _].
  apply Hunknown. intros Hin.
  repeat (apply elem_of_cons in Hin as [Hin|Hin]; [discriminate Hin|]).
  by apply elem_of_nil in Hin.
Defined.

(** An empty zone followed by a zone, and a zone followed by an empty
    zone. *)
Lemma empty_zone_not_assigned_witness :
  @ParseHardware sampleImports ["availability-zone="; "cores=2 availability-zone=z1"]
    = (mkHardwareCharacteristics None None None (Some 2) None None (Some "z1"), None) /\
  @ParseHardware sampleImports ["availability-zone=z1"; "availability-zone="]
    = (zeroHC, Some (bad_characteristic "availability-zone" already_set)).
Proof.
  destruct (@empty_zone_not_assigned sampleImports) as (_ & _ & _ & Hlater & Htwice).
  split.
  - apply (Hlater ["availability-zone="; "cores=2 availability-zone=z1"]
             [] ["cores=2"] [] "z1" (with_CpuCores zeroHC (Some 2))).
    + discriminate.
    + reflexivity.
    + reflexivity.
    + reflexivity.
    + reflexivity.
  - apply (Htwice ["availability-zone=z1"; "availability-zone="] [] [] [] "z1" ""
             (with_AvailabilityZone zeroHC (Some "z1"))).
    + discriminate.
    + reflexivity.
    + reflexivity.
Defined.

(** ** What a token changes *)

Section TokenEffects.
Context {imports : Imports}.

Ltac destruct_keys k :=
  destruct (String.eqb_spec k "arch") as [->|?];
  [|destruct (String.eqb_spec k "cores") as [->|?];
    [|destruct (String.eqb_spec k "cpu-power") as [->|?];
      [|destruct (String.eqb_spec k "mem") as [->|?];
        [|destruct (String.eqb_spec k "root-disk") as [->|?];
          [|destruct (String.eqb_spec k "tags") as [->|?];
            [|destruct (String.eqb_spec k "availability-zone") as [->|?]]]]]]].

Ltac setter_cases k Hset :=
  unfold setter in Hset; destruct_keys k; simpl in Hset; simplify_eq;
  unfold setArch, setCpuCores, setCpuPower, setMem, setRootDisk, setTags,
    setAvailabilityZone in *.

Local Arguments parseSize : simpl never.
Local Arguments parseUint64 : simpl never.
Local Arguments parseTags : simpl never.

Ltac shapes v :=
  try (destruct (parseUint64_shape v) as [[? Hshape]|[? Hshape]]; rewrite Hshape in * );
  try (destruct (parseSize_shape v) as [[? Hshape]|[? Hshape]]; rewrite Hshape in * );
  try (destruct (parseTags_shape v) as [? Hshape]; rewrite Hshape in * ).

Lemma setRaws_keeps_all (hc : HardwareCharacteristics) (raws : list string) :
  keeps hc (setRaws hc raws).1.
Proof.
  destruct (setRaws hc raws) as [hc' [e|]] eqn:Hrun; simpl.
  - apply setRaws_failure_inv in Hrun as (pre & raw & post & hc1 & _ & _ & Hpre & Hraw).
    apply setRaw_failure in Hraw as ->. by eapply setRaws_keeps.
  - by eapply setRaws_keeps.
Qed.

(** X1: a token never changes a field that is assigned, and a token that
    fails changes nothing, although the numeric setters store the result
    of the failed number parser in the field; the same holds of a run of
    tokens, up to the one it stops at. *)
Theorem tokens_never_overwrite (hc : HardwareCharacteristics) :
  (forall raw,
     match setRaw hc raw with
     | (hc', Some _) => hc' = hc
     | (hc', None) => keeps hc hc'
     end) /\
  (forall raws, keeps hc (setRaws hc raws).1).
Proof.
  split.
  - intros raw. destruct (setRaw hc raw) as [hc' [e|]] eqn:Hraw.
    + by eapply setRaw_failure.
    + by eapply setRaw_keeps.
  - apply setRaws_keeps_all.
Qed.

Lemma setter_frame (k v : string) set (hc : HardwareCharacteristics) :
  setter k = Some set ->
  (k <> "arch" -> Arch (set hc v).1 = Arch hc) /\
  (k <> "cores" -> CpuCores (set hc v).1 = CpuCores hc) /\
  (k <> "cpu-power" -> CpuPower (set hc v).1 = CpuPower hc) /\
  (k <> "mem" -> Mem (set hc v).1 = Mem hc) /\
  (k <> "root-disk" -> RootDisk (set hc v).1 = RootDisk hc) /\
  (k <> "tags" -> Tags (set hc v).1 = Tags hc) /\
  (k <> "availability-zone" -> AvailabilityZone (set hc v).1 = AvailabilityZone hc).
Proof.
  intros Hset. setter_cases k Hset; destruct hc as [a m r c p t z]; simpl.
  all: shapes v.
  all: repeat case_match; simpl; by repeat split.
Qed.

(** X2: a token changes no field other than the one its key names: the
    key is the part before the first [=], and a token without a
    recognized key changes nothing. *)
Theorem token_assigns_only_its_field (hc : HardwareCharacteristics) (k v : string) :
  has_byte "=" k = false ->
  let hc' := (setRaw hc (k +:+ "=" +:+ v)).1 in
  (k <> "arch" -> Arch hc' = Arch hc) /\
  (k <> "cores" -> CpuCores hc' = CpuCores hc) /\
  (k <> "cpu-power" -> CpuPower hc' = CpuPower hc) /\
  (k <> "mem" -> Mem hc' = Mem hc) /\
  (k <> "root-disk" -> RootDisk hc' = RootDisk hc) /\
  (k <> "tags" -> Tags hc' = Tags hc) /\
  (k <> "availability-zone" -> AvailabilityZone hc' = AvailabilityZone hc) /\
  (k ∉ keys -> hc' = hc).
Proof.
  intros Hk hc'. subst hc'.
  destruct (decide (k = "")) as [->|Hne].
  { change ("" +:+ "=" +:+ v) with ("=" +:+ v). rewrite setRaw_empty_key. by repeat split. }
  rewrite setRaw_cut by done.
  destruct (setter k) as [set|] eqn:Hset; [|by repeat split].
  assert ((characteristic k (set hc v)).1 = (set hc v).1) as ->.
  { unfold characteristic. by destruct (set hc v) as [? [?|]]. }
  destruct (setter_frame k v set hc Hset) as (?&?&?&?&?&?&?).
  repeat split; try done.
  intros Hnot. destruct Hnot. apply setter_keys. congruence.
Qed.

End TokenEffects.

(** ** The errors of a token *)

Section TokenErrors.
Context {imports : Imports}.

Ltac destruct_keys k :=
  destruct (String.eqb_spec k "arch") as [->|?];
  [|destruct (String.eqb_spec k "cores") as [->|?];
    [|destruct (String.eqb_spec k "cpu-power") as [->|?];
      [|destruct (String.eqb_spec k "mem") as [->|?];
        [|destruct (String.eqb_spec k "root-disk") as [->|?];
          [|destruct (String.eqb_spec k "tags") as [->|?];
            [|destruct (String.eqb_spec k "availability-zone") as [->|?]]]]]]].

Ltac setter_cases k Hset :=
  unfold setter in Hset; destruct_keys k; simpl in Hset; simplify_eq;
  unfold setArch, setCpuCores, setCpuPower, setMem, setRootDisk, setTags,
    setAvailabilityZone in *.

Local Arguments parseSize : simpl never.
Local Arguments parseUint64 : simpl never.
Local Arguments parseTags : simpl never.
Local Arguments is_set : simpl never.

Lemma parseSize_empty : parseSize "" = (Some 0, None).
Proof. reflexivity. Qed.

Lemma setter_error (k v : string) set (hc hc' : HardwareCharacteristics) (c : cause) :
  setter k = Some set -> set hc v = (hc', Some c) ->
  match c with
  | already_set => is_set k hc = true
  | not_recognized s =>
      k = "arch" /\ s = v /\ v <> "" /\ IsSupportedArch v = false /\ is_set k hc = false
  | must_be_non_negative_integer =>
      (k = "cores" \/ k = "cpu-power") /\ plain_integer v = None /\ is_set k hc = false
  | must_be_non_negative_float =>
      (k = "mem" \/ k = "root-disk") /\ v <> "" /\ is_set k hc = false /\
      match ParseFloat (unit_suffix v).1 with
      | Some f => Float64.ltb f (Float64.of_Z 0) = true
      | None => True
      end
  end.
Proof.
  intros Hset Hrun. setter_cases k Hset.
  - (* arch *)
    unfold is_set; simpl. destruct (bool_decide (Arch hc <> None)); [by simplify_eq|].
    destruct (negb (v =? "")%string && negb (IsSupportedArch v)) eqn:E; simplify_eq.
    apply andb_true_iff in E as [Hv Hs]. apply negb_true_iff in Hv, Hs.
    apply String.eqb_neq in Hv. done.
  - (* cores *)
    unfold is_set; simpl. destruct (bool_decide (CpuCores hc <> None)); [by simplify_eq|].
    rewrite parseUint64_spec in Hrun. destruct (plain_integer v) eqn:E; simplify_eq. auto.
  - (* cpu-power *)
    unfold is_set; simpl. destruct (bool_decide (CpuPower hc <> None)); [by simplify_eq|].
    rewrite parseUint64_spec in Hrun. destruct (plain_integer v) eqn:E; simplify_eq. auto.
  - (* mem *)
    unfold is_set; simpl. destruct (bool_decide (Mem hc <> None)); [by simplify_eq|].
    destruct (decide (v = "")) as [->|Hv]; [rewrite parseSize_empty in Hrun; by simplify_eq|].
    rewrite parseSize_spec in Hrun by done.
    destruct (ParseFloat (unit_suffix v).1) as [f|]; [|simplify_eq; auto].
    destruct (Float64.ltb f (Float64.of_Z 0)); simplify_eq; auto.
  - (* root-disk *)
    unfold is_set; simpl. destruct (bool_decide (RootDisk hc <> None)); [by simplify_eq|].
    destruct (decide (v = "")) as [->|Hv]; [rewrite parseSize_empty in Hrun; by simplify_eq|].
    rewrite parseSize_spec in Hrun by done.
    destruct (ParseFloat (unit_suffix v).1) as [f|]; [|simplify_eq; auto].
    destruct (Float64.ltb f (Float64.of_Z 0)); simplify_eq; auto.
  - (* tags *)
    unfold is_set; simpl. destruct (bool_decide (Tags hc <> None)); by simplify_eq.
  - (* availability-zone *)
    unfold is_set; simpl. destruct (bool_decide (AvailabilityZone hc <> None)); [by simplify_eq|].
    destruct (negb (v =? "")%string); by simplify_eq.
Qed.

(** X3: every error of a token names what is at fault. A malformed token
    has no [=] or starts with it; an unknown key is the part before the
    first [=] and is none of the seven; an error of a recognized key is
    "already set" when the field is assigned, and otherwise
    "not recognized" only for a non-empty architecture off the allow-list,
    "must be a non-negative integer" only for [cores] and [cpu-power],
    "must be a non-negative float" only for a non-empty [mem] or
    [root-disk] value. A [tags] or [availability-zone] token fails only
    with "already set". *)
Theorem token_errors (hc hc' : HardwareCharacteristics) (raw : string) (e : error) :
  setRaw hc raw = (hc', Some e) ->
  match e with
  | malformed_characteristic r =>
      r = raw /\ (has_byte "=" raw = false \/ exists v, raw = "=" +:+ v)
  | unknown_characteristic k =>
      (k ∉ keys) /\ k <> "" /\ has_byte "=" k = false /\ exists v, raw = k +:+ "=" +:+ v
  | bad_characteristic k c =>
      k ∈ keys /\ exists v, raw = k +:+ "=" +:+ v /\
        match c with
        | already_set => is_set k hc = true
        | not_recognized s =>
            k = "arch" /\ s = v /\ v <> "" /\ IsSupportedArch v = false /\ is_set k hc = false
        | must_be_non_negative_integer =>
            (k = "cores" \/ k = "cpu-power") /\ plain_integer v = None /\ is_set k hc = false
        | must_be_non_negative_float =>
            (k = "mem" \/ k = "root-disk") /\ v <> "" /\ is_set k hc = false /\
            match ParseFloat (unit_suffix v).1 with
            | Some f => Float64.ltb f (Float64.of_Z 0) = true
            | None => True
            end
        end
  end.
Proof.
  intros Hraw. destruct (cut_cases raw) as [Hno|(k & v & -> & Hk)].
  { rewrite setRaw_no_eq in Hraw by done. simplify_eq. auto. }
  destruct (decide (k = "")) as [->|Hne].
  { change ("" +:+ "=" +:+ v) with ("=" +:+ v) in *.
    rewrite setRaw_empty_key in Hraw. simplify_eq. eauto. }
  rewrite setRaw_cut in Hraw by done.
  destruct (setter k) as [set|] eqn:Hset.
  - unfold characteristic in Hraw.
    destruct (set hc v) as [hc2 [c|]] eqn:Hrun; simplify_eq.
    split; [apply setter_keys; congruence|]. exists v. split; [done|].
    by eapply setter_error.
  - simplify_eq. split; [|eauto]. intros Hin%setter_keys. done.
Qed.

End TokenErrors.

(** ** The records of a successful call, and calls without tokens *)

Section Records.
Context {imports : Imports}.

Lemma has_byte_Split (c sep : ascii) (s : string) :
  has_byte c s = false -> Forall (fun p => has_byte c p = false) (GoStrings.Split s sep).
Proof.
  induction s as [|x s IH]; simpl; [by repeat constructor|].
  intros [Hx Hs]%orb_false_iff. specialize (IH Hs).
  destruct (Ascii.eqb x sep).
  - by constructor.
  - destruct (GoStrings.Split s sep) as [|p ps].
    + constructor; [|done]. simpl. by rewrite Hx.
    + apply Forall_cons in IH as [Hp Hps]. constructor; [|done]. simpl. by rewrite Hx, Hp.
Qed.

(** X4: what holds of every record a successful call returns: the
    availability zone is never the empty string; an architecture is
    empty or on the allow-list; cores and cpu-power are in the range of
    [uint64]; a tag holds no comma and no space; no string value holds a
    space. *)
Theorem successful_parse_invariant (args : list string) (hc : HardwareCharacteristics) :
  ParseHardware args = (hc, None) ->
  AvailabilityZone hc <> Some "" /\
  (forall a, Arch hc = Some a -> a = "" \/ IsSupportedArch a = true) /\
  (forall n, CpuCores hc = Some n \/ CpuPower hc = Some n -> 0 <= n <= GoStrconv.maxUint64) /\
  (forall l t, Tags hc = Some l -> t ∈ l -> has_byte "," t = false /\ has_byte " " t = false) /\
  (forall s, Arch hc = Some s \/ AvailabilityZone hc = Some s -> has_byte " " s = false).
Proof.
  intros Hparse. apply ParseHardware_parsed in Hparse as (Ha & Hc & Hp & Ht & Hz).
  split; [|split; [|split; [|split]]].
  - intros Hempty. by destruct (Hz _ Hempty).
  - intros a Harch. by destruct (Ha _ Harch).
  - intros n [Hn|Hn]; auto.
  - intros l t Hl Hin. destruct (Ht _ Hl) as [->|(s & Hs & Hsp & ->)].
    { by apply elem_of_nil in Hin. }
    split.
    + pose proof (Split_pieces s ",") as Hall. rewrite Forall_forall in Hall. auto.
    + pose proof (has_byte_Split " " "," s Hsp) as Hall. rewrite Forall_forall in Hall. auto.
  - intros s [Hs|Hs]; [by destruct (Ha _ Hs)|by destruct (Hz _ Hs)].
Qed.




End Records.

(** ** Parts of a call, and the order of tokens *)

Section Composition.
Context {imports : Imports}.

Ltac destruct_keys k :=
  destruct (String.eqb_spec k "arch") as [->|?];
  [|destruct (String.eqb_spec k "cores") as [->|?];
    [|destruct (String.eqb_spec k "cpu-power") as [->|?];
      [|destruct (String.eqb_spec k "mem") as [->|?];
        [|destruct (String.eqb_spec k "root-disk") as [->|?];
          [|destruct (String.eqb_spec k "tags") as [->|?];
            [|destruct (String.eqb_spec k "availability-zone") as [->|?]]]]]]].

Ltac setter_cases k Hset :=
  unfold setter in Hset; destruct_keys k; simpl in Hset; simplify_eq;
  unfold setArch, setCpuCores, setCpuPower, setMem, setRootDisk, setTags,
    setAvailabilityZone in *.

Local Arguments parseSize : simpl never.
Local Arguments parseUint64 : simpl never.
Local Arguments parseTags : simpl never.

Ltac shapes v :=
  try (destruct (parseUint64_shape v) as [[? Hshape]|[? Hshape]]; rewrite Hshape in * );
  try (destruct (parseSize_shape v) as [[? Hshape]|[? Hshape]]; rewrite Hshape in * );
  try (destruct (parseTags_shape v) as [? Hshape]; rewrite Hshape in * ).

Lemma keeps_unset (hc0 hc1 : HardwareCharacteristics) :
  keeps hc0 hc1 ->
  (Arch hc1 = None -> Arch hc0 = None) /\
  (Mem hc1 = None -> Mem hc0 = None) /\
  (RootDisk hc1 = None -> RootDisk hc0 = None) /\
  (CpuCores hc1 = None -> CpuCores hc0 = None) /\
  (CpuPower hc1 = None -> CpuPower hc0 = None) /\
  (Tags hc1 = None -> Tags hc0 = None) /\
  (AvailabilityZone hc1 = None -> AvailabilityZone hc0 = None).
Proof.
  intros (Ha & Hm & Hr & Hc & Hp & Ht & Hz).
  repeat split; intros Hnone.
  - destruct (Arch hc0) as [x|] eqn:E; [|done]. rewrite (Ha x eq_refl) in Hnone. done.
  - destruct (Mem hc0) as [x|] eqn:E; [|done]. rewrite (Hm x eq_refl) in Hnone. done.
  - destruct (RootDisk hc0) as [x|] eqn:E; [|done]. rewrite (Hr x eq_refl) in Hnone. done.
  - destruct (CpuCores hc0) as [x|] eqn:E; [|done]. rewrite (Hc x eq_refl) in Hnone. done.
  - destruct (CpuPower hc0) as [x|] eqn:E; [|done]. rewrite (Hp x eq_refl) in Hnone. done.
  - destruct (Tags hc0) as [x|] eqn:E; [|done]. rewrite (Ht x eq_refl) in Hnone. done.
  - destruct (AvailabilityZone hc0) as [x|] eqn:E; [|done]. rewrite (Hz x eq_refl) in Hnone. done.
Qed.

(** A setter that succeeds on a record succeeds on every record with
    fewer fields assigned. *)
Lemma setter_weaken (k v : string) set (hc0 hc1 hc1' : HardwareCharacteristics) :
  setter k = Some set -> keeps hc0 hc1 -> set hc1 v = (hc1', None) ->
  exists hc0', set hc0 v = (hc0', None) /\ keeps hc0' hc1'.
Proof.
  intros Hset Hkeeps Hrun.
  pose proof (keeps_unset _ _ Hkeeps) as (Ua & Um & Ur & Uc & Up & Ut & Uz).
  destruct Hkeeps as (Ha & Hm & Hr & Hc & Hp & Ht & Hz).
  setter_cases k Hset; shapes v.
  all: repeat match type of Hrun with
         | context [bool_decide ?P] => destruct (decide P) as [Hd|Hd];
             [rewrite (bool_decide_eq_true_2 _ Hd) in Hrun; simplify_eq
             |rewrite (bool_decide_eq_false_2 _ Hd) in Hrun]
         end.
  all: try done.
  all: match type of Hd with ~ ?x <> None => assert (x = None) as Hn
           by (destruct x; [destruct Hd; discriminate|reflexivity]) end.
  - rewrite bool_decide_eq_false_2 by (rewrite (Ua Hn); auto).
    destruct (negb (v =? "")%string && negb (IsSupportedArch v)); simplify_eq.
    eexists; split; [done|]. unfold keeps; simpl. repeat split; auto.
  - rewrite bool_decide_eq_false_2 by (rewrite (Uc Hn); auto). simplify_eq.
    eexists; split; [done|]. unfold keeps; simpl. repeat split; auto.
  - rewrite bool_decide_eq_false_2 by (rewrite (Up Hn); auto). simplify_eq.
    eexists; split; [done|]. unfold keeps; simpl. repeat split; auto.
  - rewrite bool_decide_eq_false_2 by (rewrite (Um Hn); auto). simplify_eq.
    eexists; split; [done|]. unfold keeps; simpl. repeat split; auto.
  - rewrite bool_decide_eq_false_2 by (rewrite (Ur Hn); auto). simplify_eq.
    eexists; split; [done|]. unfold keeps; simpl. repeat split; auto.
  - rewrite bool_decide_eq_false_2 by (rewrite (Ut Hn); auto). simplify_eq.
    eexists; split; [done|]. unfold keeps; simpl. repeat split; auto.
  - rewrite bool_decide_eq_false_2 by (rewrite (Uz Hn); auto).
    destruct (negb (v =? "")%string); simplify_eq.
    + eexists; split; [done|]. unfold keeps; simpl. repeat split; auto.
    + eexists; split; [done|]. unfold keeps; simpl. repeat split; auto.
Qed.

Lemma setRaw_weaken (raw : string) (hc0 hc1 hc1' : HardwareCharacteristics) :
  keeps hc0 hc1 -> setRaw hc1 raw = (hc1', None) ->
  exists hc0', setRaw hc0 raw = (hc0', None) /\ keeps hc0' hc1'.
Proof.
  intros Hkeeps Hraw.
  destruct (setRaw_success _ _ _ Hraw) as (k & v & set & -> & Hk & Hset & Hrun).
  destruct (keys_no_eq k Hk) as [Hne Hno].
  destruct (setter_weaken k v set hc0 hc1 hc1' Hset Hkeeps Hrun) as (hc0' & Hrun0 & Hk0).
  exists hc0'. split; [|done].
  rewrite setRaw_cut, Hset by done. unfold characteristic. by rewrite Hrun0.
Qed.

Lemma setRaws_weaken (raws : list string) (hc0 hc1 hc1' : HardwareCharacteristics) :
  keeps hc0 hc1 -> setRaws hc1 raws = (hc1', None) ->
  exists hc0', setRaws hc0 raws = (hc0', None) /\ keeps hc0' hc1'.
Proof.
  revert hc0 hc1. induction raws as [|raw raws IH]; intros hc0 hc1 Hkeeps; simpl.
  - intros [= <-]. eauto.
  - destruct (String.eqb raw ""); [by apply IH|].
    destruct (setRaw hc1 raw) as [hc2 [e|]] eqn:Hraw; [done|]. intros Hrest.
    destruct (setRaw_weaken raw hc0 hc1 hc2 Hkeeps Hraw) as (hc0' & -> & Hk0).
    by eapply IH.
Qed.

Lemma keeps_zero (hc : HardwareCharacteristics) : keeps zeroHC hc.
Proof. by repeat split. Qed.

(** X6: how a call relates to the calls on a part of its arguments: an
    error of the first part is the error of the whole; when the whole
    succeeds so does each part on its own, and every field a part
    assigns has the same value in the record of the whole. *)
Theorem parts_of_a_call (a b : list string) :
  (forall e, ParseHardware a = (zeroHC, Some e) -> ParseHardware (a ++ b) = (zeroHC, Some e)) /\
  (forall hc, ParseHardware (a ++ b) = (hc, None) ->
     exists ha hb,
       ParseHardware a = (ha, None) /\ ParseHardware b = (hb, None) /\
       keeps ha hc /\ keeps hb hc).
Proof.
  split.
  - intros e. rewrite !ParseHardware_tokens, tokens_app, setRaws_app.
    destruct (setRaws zeroHC (tokens a)) as [ha [e'|]]; [|done]. done.
  - intros hc. rewrite !ParseHardware_tokens, tokens_app.
    destruct (setRaws zeroHC (tokens a ++ tokens b)) as [hc' [e|]] eqn:Hrun; [done|].
    intros [= ->].
    apply setRaws_app_success in Hrun as (ha & Ha & Hb).
    destruct (setRaws_weaken _ zeroHC ha hc (keeps_zero ha) Hb) as (hb & Hb0 & Hkb).
    exists ha, hb. rewrite Ha, Hb0.
    split; [done|]. split; [done|]. split; [|done].
    by eapply setRaws_keeps.
Qed.

(** Two setters that succeed one after the other succeed in the other
    order, with the same record at the end, unless the first is an
    availability-zone setter given the empty value. *)
Lemma setter_commute (kx ky vx vy : string) setx sety (hc h1 h2 : HardwareCharacteristics) :
  setter kx = Some setx -> setter ky = Some sety ->
  ky <> "availability-zone" \/ vy <> "" ->
  sety hc vy = (h1, None) -> setx h1 vx = (h2, None) ->
  exists h1', setx hc vx = (h1', None) /\ sety h1' vy = (h2, None).
Proof.
  intros Hx Hy Hv Hrun1 Hrun2.
  destruct (decide (kx = ky)) as [->|Hneq].
  { assert (setx = sety) as -> by congruence.
    pose proof (setter_sets ky vy sety hc h1 Hy Hrun1 Hv) as Hset.
    rewrite (setter_already_set ky vx sety h1 Hy Hset) in Hrun2. done. }
  clear Hv.
  setter_cases kx Hx; setter_cases ky Hy; destruct hc as [a m r c p t z]; simpl in *.
  all: shapes vx; shapes vy.
  all: repeat (case_match; simplify_eq; simpl in * ); try done.
  all: try (eexists; split; [reflexivity|]; simpl;
            repeat match goal with H : ?b = _ |- context [?b] => rewrite H end;
            simpl; reflexivity).
Qed.

Lemma setRaw_commute (x y : string) (hc h1 h2 : HardwareCharacteristics) :
  y <> "availability-zone=" ->
  setRaw hc y = (h1, None) -> setRaw h1 x = (h2, None) ->
  exists h1', setRaw hc x = (h1', None) /\ setRaw h1' y = (h2, None).
Proof.
  intros Hy Hrun1 Hrun2.
  destruct (setRaw_success _ _ _ Hrun1) as (ky & vy & sety & -> & Hky & Hsety & Hy1).
  destruct (setRaw_success _ _ _ Hrun2) as (kx & vx & setx & -> & Hkx & Hsetx & Hx2).
  destruct (keys_no_eq kx Hkx) as [Hnex Hnox].
  destruct (keys_no_eq ky Hky) as [Hney Hnoy].
  assert (ky <> "availability-zone" \/ vy <> "") as Hv.
  { destruct (decide (ky = "availability-zone")) as [->|?]; [|by left].
    right. intros ->. by apply Hy. }
  destruct (setter_commute kx ky vx vy setx sety hc h1 h2 Hsetx Hsety Hv Hy1 Hx2)
    as (h1' & Hx1 & Hy2).
  exists h1'. rewrite !setRaw_cut, Hsetx, Hsety by done.
  unfold characteristic. by rewrite Hx1, Hy2.
Qed.

Lemma setRaws_permutation (l l' : list string) :
  l ≡ₚ l' ->
  forall hc hc', "availability-zone=" ∉ l ->
    setRaws hc l = (hc', None) -> setRaws hc l' = (hc', None).
Proof.
  induction 1 as [|x l l' Hperm IH|x y l|l l' l'' Hperm1 IH1 Hperm2 IH2]; intros hc hc' Hnot.
  - done.
  - apply not_elem_of_cons in Hnot as [_ Hnot]. simpl.
    destruct (String.eqb x ""); [by apply IH|].
    destruct (setRaw hc x) as [h1 [e|]]; [done|]. by apply IH.
  - apply not_elem_of_cons in Hnot as [Hy _]. simpl.
    destruct (String.eqb_spec y "") as [->|Hney]; [done|].
    destruct (setRaw hc y) as [h1 [e|]] eqn:Hrun1.
    { by destruct (String.eqb x ""). }
    destruct (String.eqb_spec x "") as [->|Hnex]; [done|].
    destruct (setRaw h1 x) as [h2 [e|]] eqn:Hrun2; [done|]. intros Hrest.
    destruct (setRaw_commute x y hc h1 h2 (not_eq_sym Hy) Hrun1 Hrun2) as (h1' & -> & ->).
    done.
  - intros Hrun. apply IH2; [by rewrite <- Hperm1|]. by apply IH1.
Qed.

(** X7: the order of the tokens of a call does not matter for its
    success nor for the record it returns, as long as no token is an
    availability-zone token with an empty value (which is accepted
    before a token that assigns the zone, and rejected after it). *)
Theorem token_order_is_irrelevant (args args' : list string) :
  tokens args ≡ₚ tokens args' ->
  "availability-zone=" ∉ tokens args ->
  forall hc, ParseHardware args = (hc, None) <-> ParseHardware args' = (hc, None).
Proof.
  intros Hperm Hnot hc.
  assert ("availability-zone=" ∉ tokens args') as Hnot' by (by rewrite <- Hperm).
  rewrite !ParseHardware_tokens. split.
  - destruct (setRaws zeroHC (tokens args)) as [h [e|]] eqn:Hrun; [done|].
    intros [= ->]. by rewrite (setRaws_permutation _ _ Hperm _ _ Hnot Hrun).
  - destruct (setRaws zeroHC (tokens args')) as [h [e|]] eqn:Hrun; [done|].
    intros [= ->]. symmetry in Hperm.
    by rewrite (setRaws_permutation _ _ Hperm _ _ Hnot' Hrun).
Qed.

End Composition.

(** ** Sizes and numbers that are rendered and read back *)

Section Numbers.
Context {imports : Imports}.

Local Arguments Float64.of_Z : simpl never.
Local Arguments Float64.mul : simpl never.
Local Arguments Float64.Ceil : simpl never.
Local Arguments Float64.ltb : simpl never.
Local Arguments parseSize : simpl never.
Local Arguments parseUint64 : simpl never.
Local Arguments GoStrconv.FormatUint : simpl never.

(** An integer below [2^53] is a float64 value. *)
Lemma on_grid_small (n : Z) : 0 <= n < 2 ^ 53 -> Float64.on_grid (n * Float64.unit) = true.
Proof.
  intros Hn. pose proof unit_pos as HU.
  unfold Float64.on_grid. apply andb_true_iff. split; [apply Z.leb_le; nia|].
  apply Z.eqb_eq. destruct (Z.eq_dec n 0) as [->|Hne]; [done|].
  unfold Float64.grid, Float64.unit. rewrite Z.log2_mul_pow2 by lia.
  assert (Z.log2 n < 53) by (apply Z.log2_lt_pow2; lia).
  pose proof (Z.log2_nonneg n).
  apply pow2_divides. lia.
Qed.

(** The float64 nearest to a natural number is an integer. *)
Lemma round_integer (n k : Z) :
  0 <= n -> Float64.round false n 1 = Float64.Fin false k ->
  0 <= k /\ k mod Float64.unit = 0.
Proof.
  intros Hn. unfold Float64.round.
  pose proof unit_pos as HU.
  set (N := n * Float64.unit). assert (0 <= N) as HN by (unfold N; nia).
  rewrite Z.div_1_r, !Z.mul_1_l.
  pose proof (grid_pos N) as Hg.
  set (a := Z.max 0 (Z.log2 N - 52)).
  assert (Float64.grid N = 2 ^ a) as Hga by done.
  set (g := Float64.grid N) in *.
  set (q' := match 2 * (N mod g) ?= g with
             | Eq => if Z.even (N / g) then N / g else N / g + 1
             | Lt => N / g
             | Gt => N / g + 1
             end).
  assert (0 <= N / g) as Hq by (apply Z.div_pos; lia).
  assert (0 <= q') as Hq'.
  { unfold q'. destruct (_ ?= _); [destruct (Z.even _)| |]; lia. }
  destruct (q' * g <? Float64.top); [|done]. intros [= <-].
  split; [nia|].
  destruct (Z.le_gt_cases a 1074) as [Ha|Ha].
  - assert (N mod g = 0) as Hmod.
    { rewrite Hga. unfold N, Float64.unit. apply pow2_divides. lia. }
    assert (q' = N / g) as ->.
    { unfold q'. rewrite Hmod. destruct (Z.compare_spec (2 * 0) g); lia. }
    assert (N / g * g = N) as ->.
    { pose proof (Z.div_mod N g ltac:(lia)). lia. }
    unfold N. apply Z.mod_mul. lia.
  - rewrite Hga. replace a with ((a - 1074) + 1074) by lia.
    rewrite Z.pow_add_r by lia. fold Float64.unit.
    rewrite Z.mul_assoc. apply Z.mod_mul. lia.
Qed.

Lemma of_Z_round (n : Z) : 0 <= n -> Float64.of_Z n = Float64.round false n 1.
Proof.
  intros Hn. unfold Float64.of_Z. rewrite Z.abs_eq by lia.
  by destruct (Z.ltb_spec n 0); [lia|].
Qed.

Lemma ceiling_exact (k b : Z) : 0 < b -> k mod b = 0 -> ceiling k b = k / b.
Proof.
  intros Hb Hmod. pose proof (Z.div_mod k b ltac:(lia)) as Hk.
  rewrite Hmod, Z.add_0_r in Hk. rewrite Hk at 1.
  rewrite (Z.mul_comm b). by apply ceiling_mul.
Qed.

(** What a rendered size is read back as: the conversion to [uint64]
    of the float64 nearest to it. *)
Lemma parseSize_rendered (n : Z) :
  ParseFloat_conforms -> 0 <= n <= GoStrconv.maxUint64 ->
  parseSize (GoStrconv.FormatUint n +:+ "M")
    = (Some (uint64_of_float (Float64.of_Z n)), None).
Proof.
  intros [Hvalid Hdec] Hn.
  destruct (FormatUint_spec n Hn) as (Hne & Hdig & Hval).
  pose proof (round_valid false n 1 ltac:(lia) ltac:(lia)) as Hv.
  pose proof (ParseDecimal_digits _ Hne Hdig) as Hparse. rewrite Hval in Hparse.
  rewrite of_Z_round by lia.
  destruct (Float64.round false n 1) as [|neg|neg k] eqn:Hround.
  - (* the nearest float64 of a number is a number *)
    unfold Float64.round in Hround. by destruct (_ <? _).
  - (* a uint64 is below the largest float64 *)
    exfalso. unfold Float64.round in Hround.
    destruct (_ <? _) eqn:Hlt; [done|]. apply Z.ltb_ge in Hlt.
    revert Hlt. rewrite Z.div_1_r, !Z.mul_1_l.
    pose proof unit_pos as HU.
    set (N := n * Float64.unit). assert (0 <= N) as HN by (unfold N; nia).
    pose proof (grid_pos N) as Hg. pose proof (below_grid N HN) as Hbelow.
    assert (Float64.grid N <= N \/ Float64.grid N = 1) as Hgn.
    { unfold Float64.grid. destruct (Z.le_gt_cases (Z.log2 N - 52) 0) as [Hl|Hl].
      - right. by rewrite Z.max_l by lia.
      - left. rewrite Z.max_r by lia.
        assert (0 < N) as HN0.
        { destruct (Z.eq_dec N 0) as [E|E]; [|lia]. rewrite E in Hl. simpl in Hl. lia. }
        pose proof (Z.log2_spec N HN0) as [Hlo _].
        etrans; [|exact Hlo]. apply Z.pow_le_mono_r; lia. }
    set (g := Float64.grid N) in *.
    set (q' := match 2 * (N mod g) ?= g with
               | Eq => if Z.even (N / g) then N / g else N / g + 1
               | Lt => N / g
               | Gt => N / g + 1
               end).
    assert (q' <= N / g + 1) as Hq'.
    { unfold q'. destruct (_ ?= _); [destruct (Z.even _)| |]; lia. }
    pose proof (Z.mul_div_le N g ltac:(lia)) as Hdiv.
    assert (q' * g <= 2 * N + 1) as Hle by nia.
    pose proof (uint64_below_top n Hn) as Htop. fold N in Htop.
    assert (N <= GoStrconv.maxUint64 * Float64.unit) as HNmax by (unfold N; nia).
    assert (2 * (GoStrconv.maxUint64 * Float64.unit) + 1 < Float64.top) as Hbig.
    { by vm_compute. }
    lia.
  - assert (neg = false) as ->.
    { unfold Float64.round in Hround. destruct (_ <? _); by simplify_eq. }
    destruct (round_integer n k ltac:(lia) Hround) as [Hk Hmod].
    pose proof unit_pos as HU.
    apply andb_true_iff in Hv as [Hgrid Htop%Z.ltb_lt].
    rewrite parseSize_spec by (by destruct (GoStrconv.FormatUint n)).
    rewrite unit_suffix_M. cbn [fst snd].
    rewrite (Hdec _ _ Hparse), ltb_zero by done. cbn [andb].
    rewrite mul_pow2 by done. change (2 ^ 0) with 1. rewrite Z.mul_1_r.
    destruct (Z.ltb_spec k Float64.top); [|lia].
    do 3 f_equal. unfold Float64.Ceil. f_equal.
    rewrite ceiling_spec, ceiling_exact by done.
    pose proof (Z.div_mod k Float64.unit ltac:(lia)). lia.
Qed.

(** X8: a size is rendered as a decimal numeral followed by [M], and
    read back through float64: what comes back is the conversion to
    [uint64] of the float64 nearest to the size, which is the size
    exactly when it is a float64 value (at most 53 significant bits). *)
Theorem rendered_size_read_back (n : Z) :
  ParseFloat_conforms -> 0 <= n <= GoStrconv.maxUint64 ->
  parseSize (GoStrconv.FormatUint n +:+ "M")
    = (Some (uint64_of_float (Float64.of_Z n)), None) /\
  (forall m, Float64.trunc (Float64.of_Z n) = Some m -> m <= GoStrconv.maxUint64 ->
     (uint64_of_float (Float64.of_Z n) = n <-> Float64.on_grid (n * Float64.unit) = true)).
Proof.
  intros Hconf Hn. split; [by apply parseSize_rendered|].
  intros m Htrunc Hm. pose proof unit_pos as HU.
  pose proof (round_valid false n 1 ltac:(lia) ltac:(lia)) as Hv.
  rewrite of_Z_round in * by lia.
  destruct (Float64.round false n 1) as [|neg|neg k] eqn:Hround; try done.
  assert (neg = false) as ->.
  { unfold Float64.round in Hround. destruct (_ <? _); by simplify_eq. }
  destruct (round_integer n k ltac:(lia) Hround) as [Hk Hmod].
  apply andb_true_iff in Hv as [Hgrid Htop].
  simpl in Htrunc. injection Htrunc as <-.
  assert (0 <= k / Float64.unit) by (apply Z.div_pos; lia).
  rewrite (uint64_of_float_in_range _ (k / Float64.unit)) by (done || lia).
  pose proof (Z.div_mod k Float64.unit ltac:(lia)) as Hdm.
  split.
  - intros Heq. replace (n * Float64.unit) with k by lia. done.
  - intros Hexact.
    pose proof (of_Z_exact n ltac:(lia) Hexact (uint64_below_top n Hn)) as Hof.
    rewrite of_Z_round, Hround in Hof by lia. injection Hof as ->.
    by rewrite Z.div_mul by lia.
Qed.

Lemma unit_suffix_last (d : string) (c : ascii) :
  unit_suffix (d +:+ String c "") =
    if Ascii.eqb c "M" then (d, 0)
    else if Ascii.eqb c "G" then (d, 10)
    else if Ascii.eqb c "T" then (d, 20)
    else if Ascii.eqb c "P" then (d, 30)
    else (d +:+ String c "", 0).
Proof.
  induction d as [|x d IH].
  - simpl. by repeat case_match.
  - rewrite sapp_cons.
    destruct (d +:+ String c "") as [|c' d'] eqn:E; [by destruct d|].
    change (unit_suffix (String x (String c' d')))
      with (let '(pre, j) := unit_suffix (String c' d') in (String x pre, j)).
    rewrite IH. by repeat case_match.
Qed.

Lemma unit_suffix_digits (d : string) : all_digits d = true -> unit_suffix d = (d, 0).
Proof.
  induction d as [|c d IH]; [done|].
  intros [Hc Hd]%andb_true_iff. apply bool_decide_eq_true in Hc.
  destruct d as [|c' d'].
  - simpl. rewrite !(digit_neq c) by done. done.
  - change (unit_suffix (String c (String c' d')))
      with (let '(pre, j) := unit_suffix (String c' d') in (String c pre, j)).
    by rewrite IH.
Qed.

(** X9: an integer size of at most 53 bits with a unit: the field is the
    integer times the multiplier of the unit, so that [1G] and [1024M]
    and [1024] are the same size. *)
Theorem integer_sizes (d u : string) (j : Z) :
  ParseFloat_conforms ->
  d <> "" -> all_digits d = true ->
  (u, j) ∈ [("", 0); ("M", 0); ("G", 10); ("T", 20); ("P", 30)] ->
  dec_value 0 d < 2 ^ 53 -> dec_value 0 d * 2 ^ j <= GoStrconv.maxUint64 ->
  parseSize (d +:+ u) = (Some (dec_value 0 d * 2 ^ j), None).
Proof.
  intros Hconf Hne Hdig Hu Hsmall Hmax.
  pose proof (dec_value_ge 0 d ltac:(lia)) as Hpos. pose proof unit_pos as HU.
  assert (0 <= j) as Hj.
  { repeat (apply elem_of_cons in Hu as [[= -> ->]|Hu]; [lia|]). by apply elem_of_nil in Hu. }
  assert (unit_suffix (d +:+ u) = (d, j)) as Hsuffix.
  { repeat (apply elem_of_cons in Hu as [[= -> ->]|Hu];
            [by (rewrite ?sapp_nil_r; (apply unit_suffix_last || by apply unit_suffix_digits))|]).
    by apply elem_of_nil in Hu. }
  pose proof (on_grid_small (dec_value 0 d) ltac:(lia)) as Hgrid.
  apply (parseSize_decimal _ d j (dec_value 0 d * Float64.unit)); try done.
  - destruct d; [done|]. by rewrite sapp_cons.
  - rewrite ParseDecimal_digits by done.
    rewrite (round_exact false _ 1 (dec_value 0 d * Float64.unit)) by (done || lia).
    assert (dec_value 0 d * Float64.unit < Float64.top) as Htop.
    { apply uint64_below_top. unfold GoStrconv.maxUint64. lia. }
    by destruct (Z.ltb_spec (dec_value 0 d * Float64.unit) Float64.top); [|lia].
  - replace (dec_value 0 d * Float64.unit * 2 ^ j)
      with (dec_value 0 d * 2 ^ j * Float64.unit) by lia.
    apply ceiling_mul. lia.
Qed.

End Numbers.

(** ** Rendering and reading back *)

Section ReadBack.
Context {imports : Imports}.

Local Arguments parseSize : simpl never.
Local Arguments parseUint64 : simpl never.
Local Arguments GoStrconv.FormatUint : simpl never.

Lemma renderable_run (hc : HardwareCharacteristics) :
  ParseFloat_conforms -> renderable hc ->
  ParseHardware [hcString hc] = (unset_empty_tags hc, None).
Proof.
  intros Hconf (Hp & Htrim & Hm & Hr).
  rewrite hcString_fieldTokens in *.
  apply ParseHardware_success. rewrite tokens_joined; [|apply fieldTokens_clean|done].
  - by apply run_fieldTokens.
  - done.
  - intros n Hn. by destruct (Hm n Hn) as [[? _] _].
  - intros n Hn. by destruct (Hr n Hn) as [[? _] _].
Qed.

(** X10: the rendering of a renderable record is read back without a
    panic, as the record itself (an empty tag list apart, which comes
    back unspecified); so two such records with the same rendering are
    the same. *)
Theorem rendering_is_read_back (hc : HardwareCharacteristics) :
  ParseFloat_conforms -> renderable hc ->
  MustParseHardware [hcString hc] = Returns (unset_empty_tags hc) /\
  (forall hc', renderable hc' -> hcString hc' = hcString hc ->
     unset_empty_tags hc' = unset_empty_tags hc).
Proof.
  intros Hconf Hhc. pose proof (renderable_run hc Hconf Hhc) as Hrun. split.
  - unfold MustParseHardware. by rewrite Hrun.
  - intros hc' Hhc' Heq. pose proof (renderable_run hc' Hconf Hhc') as Hrun'.
    rewrite Heq, Hrun in Hrun'. congruence.
Qed.

(** X11: the value of a [tags] token and the tag list are two readings
    of the same thing: a non-empty value is cut at its commas into a
    non-empty list whose rendering is the value, and a list of
    comma-free tags that is rendered is read back as it was. The empty
    value gives the empty list, which is not rendered. *)
Theorem tags_round_trip :
  (forall s, s <> "" ->
     exists l, parseTags s = Some l /\ l <> [] /\
       Forall (fun t => has_byte "," t = false) l /\
       GoStrings.Join l "," = s /\
       hcString (with_Tags zeroHC (Some l)) = "tags=" +:+ s) /\
  (forall l, Forall (fun t => has_byte "," t = false) l -> GoStrings.Join l "," <> "" ->
     parseTags (GoStrings.Join l ",") = Some l) /\
  parseTags "" = Some [] /\
  hcString (with_Tags zeroHC (Some [])) = "".
Proof.
  split; [|split; [|done]].
  - intros s Hs. exists (GoStrings.Split s ",").
    assert (parseTags s = Some (GoStrings.Split s ",")) as Hparse.
    { unfold parseTags. by destruct (String.eqb_spec s ""). }
    pose proof (Split_not_nil s ",") as Hnil.
    pose proof (Join_Split s ",") as Hjoin.
    split; [done|]. split; [done|]. split; [apply Split_pieces|]. split; [done|].
    unfold hcString. simpl.
    destruct (GoStrings.Split s ",") as [|t ts]; [done|].
    change (0 <? Z.of_nat (length (t :: ts))) with true. cbn iota.
    by rewrite Hjoin.
  - intros l Hall Hne. unfold parseTags.
    destruct (String.eqb_spec (GoStrings.Join l ",") ""); [done|].
    rewrite Split_Join; [done| |done]. by intros ->.
Qed.

End ReadBack.

(** ** The plain integers, rendered and read back *)

Section PlainIntegers.
Context {imports : Imports}.

Local Arguments parseSize : simpl never.
Local Arguments parseUint64 : simpl never.
Local Arguments GoStrconv.FormatUint : simpl never.

(** No encoding of a white-space rune ends in an ASCII byte other than
    the six one-byte runes. *)
Lemma isSpace2_ascii (c c' : ascii) : (N_of_ascii c < 128)%N -> GoStrings.isSpace2 c' c = false.
Proof.
  intros Hc. unfold GoStrings.isSpace2. cbv zeta.
  destruct (N.eqb_spec (N_of_ascii c) 133); [lia|].
  destruct (N.eqb_spec (N_of_ascii c) 160); [lia|].
  by rewrite andb_false_r.
Qed.

Lemma isSpace3_ascii (c c' c'' : ascii) :
  (N_of_ascii c < 128)%N -> GoStrings.isSpace3 c'' c' c = false.
Proof.
  intros Hc. unfold GoStrings.isSpace3. cbv zeta.
  destruct (N.eqb_spec (N_of_ascii c) 128); [lia|].
  destruct (N.eqb_spec (N_of_ascii c) 168); [lia|].
  destruct (N.eqb_spec (N_of_ascii c) 169); [lia|].
  destruct (N.eqb_spec (N_of_ascii c) 175); [lia|].
  destruct (N.eqb_spec (N_of_ascii c) 159); [lia|].
  destruct (N.leb_spec 128 (N_of_ascii c)); [lia|].
  by rewrite !andb_false_r.
Qed.

Lemma trimRight_last (s : string) (c : ascii) :
  (N_of_ascii c < 128)%N -> GoStrings.isSpace1 c = false ->
  GoStrings.trimRight (s +:+ String c "") = s +:+ String c "".
Proof.
  intros Hc Hsp. unfold GoStrings.trimRight.
  rewrite rev_sapp. change (String.rev (String c "")) with (String c "").
  rewrite sapp_cons. change ("" +:+ String.rev s) with (String.rev s).
  assert (GoStrings.trimFront (fun c1 c2 => GoStrings.isSpace2 c2 c1)
            (fun c1 c2 c3 => GoStrings.isSpace3 c3 c2 c1) (String c (String.rev s))
          = String c (String.rev s)) as ->.
  { destruct (String.rev s) as [|c2 [|c3 r]]; simpl; rewrite Hsp; try done.
    - by rewrite isSpace2_ascii.
    - by rewrite isSpace2_ascii, isSpace3_ascii. }
  by rewrite rev_cons, rev_involutive.
Qed.

Lemma digit_ascii (c : ascii) :
  GoStrconv.digit c <> None -> (N_of_ascii c < 128)%N /\ GoStrings.isSpace1 c = false.
Proof.
  unfold GoStrconv.digit. cbv zeta.
  destruct (Z.leb_spec 48 (Z.of_N (N_of_ascii c))); [|done].
  destruct (Z.leb_spec (Z.of_N (N_of_ascii c)) 57); [|done]. intros _.
  split; [lia|]. unfold GoStrings.isSpace1.
  destruct (N_of_ascii c) as [|p] eqn:E; [done|].
  assert (48 <= Z.pos p <= 57) as Hp by lia.
  repeat (destruct p as [p|p|]; try done; try lia).
Qed.

Lemma digits_last (s : string) :
  s <> "" -> all_digits s = true ->
  exists s' c, s = s' +:+ String c "" /\ GoStrconv.digit c <> None.
Proof.
  induction s as [|x s IH]; [done|]. intros _ [Hx Hs]%andb_true_iff.
  apply bool_decide_eq_true in Hx.
  destruct s as [|y s].
  - by exists "", x.
  - destruct (IH ltac:(done) Hs) as (s' & c & -> & Hc).
    exists (String x s'), c. by rewrite sapp_cons.
Qed.

(** A string that ends in the numeral of a [uint64] does not end in
    white space. *)
Lemma trimRight_FormatUint (pre : string) (n : Z) :
  0 <= n <= GoStrconv.maxUint64 ->
  GoStrings.trimRight (pre +:+ GoStrconv.FormatUint n) = pre +:+ GoStrconv.FormatUint n.
Proof.
  intros Hn. destruct (FormatUint_spec n Hn) as (Hne & Hdig & _).
  destruct (digits_last _ Hne Hdig) as (s' & c & -> & Hc).
  destruct (digit_ascii c Hc) as [Hlt Hsp].
  rewrite <- sapp_assoc. by apply trimRight_last.
Qed.

(** X12: the plain integers are rendered and read back without loss,
    over the whole range of [uint64] and whatever the imports are. *)
Theorem rendered_integers_read_back (c p : Z) :
  0 <= c <= GoStrconv.maxUint64 -> 0 <= p <= GoStrconv.maxUint64 ->
  let hc := mkHardwareCharacteristics None None None (Some c) (Some p) None None in
  hcString hc = "cores=" +:+ GoStrconv.FormatUint c +:+ " cpu-power=" +:+ GoStrconv.FormatUint p /\
  ParseHardware [hcString hc] = (hc, None) /\
  parseUint64 (GoStrconv.FormatUint c) = (Some c, None).
Proof.
  intros Hc Hp hc.
  assert (fieldTokens hc = ["cores=" +:+ GoStrconv.FormatUint c;
                            "cpu-power=" +:+ GoStrconv.FormatUint p]) as Htoks by done.
  assert (hcString hc = "cores=" +:+ GoStrconv.FormatUint c +:+ " cpu-power="
                          +:+ GoStrconv.FormatUint p) as Hstr.
  { rewrite hcString_fieldTokens, Htoks.
    change (GoStrings.Join ["cores=" +:+ GoStrconv.FormatUint c;
                            "cpu-power=" +:+ GoStrconv.FormatUint p] " ")
      with (("cores=" +:+ GoStrconv.FormatUint c) +:+ " " +:+ "cpu-power="
            +:+ GoStrconv.FormatUint p).
    by rewrite sapp_assoc. }
  split; [exact Hstr|]. split.
  - apply ParseHardware_success.
    assert (tokens [hcString hc] = fieldTokens hc) as ->.
    { rewrite hcString_fieldTokens. apply tokens_joined.
      - rewrite Htoks. repeat constructor; try done.
        + rewrite has_byte_app, no_space_FormatUint by lia. done.
        + rewrite has_byte_app, no_space_FormatUint by lia. done.
      - rewrite <- hcString_fieldTokens, Hstr. unfold GoStrings.TrimSpace.
        assert (GoStrings.trimLeft ("cores=" +:+ GoStrconv.FormatUint c +:+ " cpu-power="
                                      +:+ GoStrconv.FormatUint p)
                = "cores=" +:+ GoStrconv.FormatUint c +:+ " cpu-power="
                    +:+ GoStrconv.FormatUint p) as -> by done.
        rewrite <- !sapp_assoc. rewrite trimRight_FormatUint by done. done. }
    rewrite Htoks.
    change ["cores=" +:+ GoStrconv.FormatUint c; "cpu-power=" +:+ GoStrconv.FormatUint p]
      with (rendered "cores" (GoStrconv.FormatUint <$> Some c)
            ++ rendered "cpu-power" (GoStrconv.FormatUint <$> Some p)).
    rewrite setRaws_app, run_cores by (done || by intros ? [= <-]).
    rewrite run_cpu_power by (done || by intros ? [= <-]). done.
  - rewrite parseUint64_spec, plain_integer_FormatUint by done. done.
Qed.

End PlainIntegers.

(** ** The further properties at concrete inputs *)

(** A [mem] token on a record with cores assigned. *)
Lemma token_assigns_only_its_field_witness :
  let hc := with_CpuCores zeroHC (Some 2) in
  let hc' := (@setRaw sampleImports hc ("mem" +:+ "=" +:+ "1G")).1 in
  hc' = mkHardwareCharacteristics None (Some 1024) None (Some 2) None None None /\
  CpuCores hc' = CpuCores hc.
Proof.
  intros hc hc'. split; [vm_compute; reflexivity|].
  assert (has_byte "=" "mem" = false) as Hk by reflexivity.
  destruct (@token_assigns_only_its_field sampleImports hc "mem" "1G" Hk) as (_ & Hcores & _).
  apply Hcores. discriminate.
Defined.

(** A second [cores] token, and a [tags] token after tags were given. *)
Lemma token_errors_witness :
  let hc := with_CpuCores zeroHC (Some 2) in
  @setRaw sampleImports hc "cores=4" = (hc, Some (bad_characteristic "cores" already_set)) /\
  "cores" ∈ keys /\
  exists v, "cores=4" = "cores" +:+ "=" +:+ v /\ is_set "cores" hc = true.
Proof.
  intros hc.
  assert (@setRaw sampleImports hc "cores=4"
          = (hc, Some (bad_characteristic "cores" already_set))) as Hraw by reflexivity.
  split; [exact Hraw|].
  exact (@token_errors sampleImports hc hc "cores=4" _ Hraw).
Defined.

(** The record of a call with five tokens. *)
Lemma successful_parse_invariant_witness :
  let hc := mkHardwareCharacteristics (Some "amd64") (Some 2048) None (Some 4) None
              (Some ["foo"; "bar"]) (Some "az1") in
  @ParseHardware sampleImports ["arch=amd64 cores=4"; "mem=2G tags=foo,bar availability-zone=az1"]
    = (hc, None) /\
  AvailabilityZone hc <> Some "" /\
  (forall l t, Tags hc = Some l -> t ∈ l -> has_byte "," t = false /\ has_byte " " t = false).
Proof.
  intros hc.
  assert (@ParseHardware sampleImports
            ["arch=amd64 cores=4"; "mem=2G tags=foo,bar availability-zone=az1"] = (hc, None))
    as Hparse by (vm_compute; reflexivity).
  split; [exact Hparse|].
  destruct (@successful_parse_invariant sampleImports _ hc Hparse) as (Hz & _ & _ & Ht & _).
  split; [exact Hz|exact Ht].
Defined.


(** A call cut after its first argument. *)
Lemma parts_of_a_call_witness :
  exists ha hb,
    @ParseHardware sampleImports ["mem=1G"] = (ha, None) /\
    @ParseHardware sampleImports ["cores=2 tags=a"] = (hb, None) /\
    keeps ha (mkHardwareCharacteristics None (Some 1024) None (Some 2) None (Some ["a"]) None) /\
    keeps hb (mkHardwareCharacteristics None (Some 1024) None (Some 2) None (Some ["a"]) None).
Proof.
  apply (proj2 (@parts_of_a_call sampleImports ["mem=1G"] ["cores=2 tags=a"])).
  vm_compute; reflexivity.
Defined.

(** Three tokens in two orders. *)
Lemma token_order_is_irrelevant_witness :
  @ParseHardware sampleImports ["tags=a cores=2"; "mem=1G"]
    = (mkHardwareCharacteristics None (Some 1024) None (Some 2) None (Some ["a"]) None, None).
Proof.
  apply (@token_order_is_irrelevant sampleImports ["mem=1G"; "cores=2 tags=a"]
           ["tags=a cores=2"; "mem=1G"]).
  - change (["mem=1G"; "cores=2"; "tags=a"] ≡ₚ ["tags=a"; "cores=2"; "mem=1G"]).
    etrans; [apply Permutation_cons_append|]. simpl. apply perm_swap.
  - change ("availability-zone=" ∉ ["mem=1G"; "cores=2"; "tags=a"]).
    intros Hin. repeat (apply elem_of_cons in Hin as [Hin|Hin]; [discriminate Hin|]).
    by apply elem_of_nil in Hin.
  - vm_compute; reflexivity.
Defined.

(** The size [2^53 + 1] is rendered and read back as [2^53]. *)
Lemma rendered_size_read_back_witness :
  GoStrconv.FormatUint (2 ^ 53 + 1) = "9007199254740993" /\
  @uint64_of_float sampleImports (Float64.of_Z (2 ^ 53 + 1)) = 2 ^ 53 /\
  @parseSize sampleImports (GoStrconv.FormatUint (2 ^ 53 + 1) +:+ "M")
    = (Some (@uint64_of_float sampleImports (Float64.of_Z (2 ^ 53 + 1))), None).
Proof.
  split; [vm_compute; reflexivity|]. split; [vm_compute; reflexivity|].
  apply (@rendered_size_read_back sampleImports (2 ^ 53 + 1) sampleImports_conforms).
  unfold GoStrconv.maxUint64. lia.
Defined.

(** [3T] is 3145728 megabytes. *)
Lemma integer_sizes_witness :
  @parseSize sampleImports ("3" +:+ "T") = (Some (dec_value 0 "3" * 2 ^ 20), None) /\
  dec_value 0 "3" * 2 ^ 20 = 3145728.
Proof.
  split; [|reflexivity].
  apply (@integer_sizes sampleImports "3" "T" 20 sampleImports_conforms).
  - discriminate.
  - reflexivity.
  - rewrite !elem_of_cons. tauto.
  - vm_compute; reflexivity.
  - vm_compute. discriminate.
Defined.

(** A record with an architecture, a size and two tags. *)
Lemma rendering_is_read_back_witness :
  let hc := mkHardwareCharacteristics (Some "amd64") (Some 2048) None None None
              (Some ["foo"; "bar"]) None in
  hcString hc = "arch=amd64 mem=2048M tags=foo,bar" /\
  @MustParseHardware sampleImports [hcString hc] = Returns (unset_empty_tags hc).
Proof.
  intros hc. split; [vm_compute; reflexivity|].
  apply (@rendering_is_read_back sampleImports hc sampleImports_conforms).
  split; [|split; [|split]].
  - split; [|split; [|split; [|split]]].
    + intros a [= <-]. split; [reflexivity|]. right. reflexivity.
    + intros n [=].
    + intros n [=].
    + intros l [= <-]. right. exists "foo,bar". split; [discriminate|]. split; reflexivity.
    + intros z [=].
  - vm_compute; reflexivity.
  - intros n [= <-]. split; [unfold GoStrconv.maxUint64; lia|vm_compute; reflexivity].
  - intros n [=].
Defined.

(** The value [a,,b] holds three tags, the second one empty. *)
Lemma tags_round_trip_witness :
  exists l, parseTags "a,,b" = Some l /\ l <> [] /\
    Forall (fun t => has_byte "," t = false) l /\
    GoStrings.Join l "," = "a,,b" /\
    hcString (with_Tags zeroHC (Some l)) = "tags=" +:+ "a,,b".
Proof.
  apply (proj1 tags_round_trip). discriminate.
Defined.

(** The largest [uint64] as a number of cores. *)
Lemma rendered_integers_read_back_witness :
  let hc := mkHardwareCharacteristics None None None (Some (2 ^ 64 - 1)) (Some 0) None None in
  hcString hc = "cores=" +:+ GoStrconv.FormatUint (2 ^ 64 - 1) +:+ " cpu-power="
                  +:+ GoStrconv.FormatUint 0 /\
  @ParseHardware sampleImports [hcString hc] = (hc, None) /\
  parseUint64 (GoStrconv.FormatUint (2 ^ 64 - 1)) = (Some (2 ^ 64 - 1), None).
Proof.
  apply (@rendered_integers_read_back sampleImports (2 ^ 64 - 1) 0);
    unfold GoStrconv.maxUint64; lia.
Defined.
